(** * The stepper motion engine of the LCleaner ESP32 firmware

    A shallow embedding of [src/ESPfirmware.cpp]: the axis records
    ([StepperConfig] and the global array [steppers]), the profile
    calculator ([calculateAccelSteps], [calculateDecelSteps],
    [calculateAccelDelay], [calculateDecelDelay], [startAcceleratedMove]),
    the limit interlock ([checkLimitSwitches]), the per-iteration scheduler
    ([updateSteppers]) and the stepper commands of [handleCommand]; and,
    beside the motion engine, the line assembly of [loop()]
    ([SerialInput]), the servo table of the [set_servo] command
    ([ServoSlots]) and the status LED ([Led]: [setLedColor],
    [handleLedCommand], [updateLedAnimations] and the LED part of
    [setup()]).

    Conventions of the embedding.
    - [int] and [long] are 32 bits wide on the ESP32; their values are
      integers of [Z] and every arithmetic operation is followed by the
      two's-complement wrap-around [wrap32].  [unsigned long] values are
      reduced modulo [2^32] by [u32].
    - [float] is IEEE 754 binary32 with round-to-nearest-even; finite values
      are the rationals they denote (module [Float32]).
    - [digitalWrite] takes the level as [uint8_t]: an [int] argument is
      reduced modulo 256 before it is tested against zero ([level_of_int]).
    - The input pins are a function [Z -> Level] sampled by [digitalRead];
      what the firmware writes (pin writes and the JSON lines printed on the
      serial port) is collected in a list of [Output].
    - A command arrives already decoded ([Command], [Led.LedCommand], the
      pin and angle of [set_servo]); the JSON parser is not part of the
      embedding, nor are the [set_ws2812b_*] commands.  The pixel
      arithmetic of the FastLED library is a parameter ([Led.PixelOps]).
    - The second firmware file, [src/ESPfirmware_simple.cpp], has the same
      scheduler, interlock and commands; it differs in the profile
      calculator (an eased curve computed in double precision) and prints no
      profile.  The calculator embedded here is that of
      [src/ESPfirmware.cpp]. *)

From Stdlib Require Import ZArith QArith Qround Qpower Qreduction Lia Lqa List Bool String Ascii.
From Stdlib Require Import Floats.SpecFloat.
From stdpp Require Import base list.

Local Open Scope Z_scope.

(* ------------------------------------------------------------------------- *)
(** ** Machine integers *)

Module MachInt.

Definition INT_MIN : Z := - 2 ^ 31.
Definition INT_MAX : Z := 2 ^ 31 - 1.

(** Two's-complement reduction of a mathematical integer to [int]/[long]. *)
Definition wrap32 (x : Z) : Z := (x + 2 ^ 31) mod 2 ^ 32 - 2 ^ 31.

(** Reduction to [unsigned long]; also the conversion of an [int] operand
    that meets an [unsigned long] one in a comparison. *)
Definition u32 (x : Z) : Z := x mod 2 ^ 32.

Definition is_int (x : Z) : Prop := INT_MIN <= x <= INT_MAX.

Definition iadd (a b : Z) : Z := wrap32 (a + b).
Definition isub (a b : Z) : Z := wrap32 (a - b).
Definition ineg (a : Z) : Z := wrap32 (- a).
Definition imul (a b : Z) : Z := wrap32 (a * b).
(** C division truncates toward zero. *)
Definition idiv (a b : Z) : Z := wrap32 (Z.quot a b).
(** Arduino's [abs] is the macro [((x)>0?(x):-(x))]. *)
Definition iabs (a : Z) : Z := if 0 <? a then a else ineg a.

End MachInt.
Export MachInt.

(* ------------------------------------------------------------------------- *)
(** ** Single-precision floating point *)

Module Float32.

(** A finite binary32 number is the rational it denotes.  [RN] rounds a
    rational to the nearest binary32 number, ties to even: the exponent of
    the result is [fexp], the significand has [prec] bits (fewer in the
    subnormal range below [2^(emin+prec-1)]).  Every operand that the
    firmware produces is below [2^62] in magnitude, far from the binary32
    overflow threshold [2^128], so infinities and NaN are not represented. *)

Definition prec : Z := 24.
Definition emin : Z := -149.

(** [ilog2 q] is the integer part of the base-2 logarithm of [q > 0]. *)
Definition ilog2 (q : Q) : Z :=
  let l := Z.log2 (Qnum q) - Z.log2 (Zpos (Qden q)) in
  if Qle_bool (2 ^ l) q then l else l - 1.

Definition fexp (q : Q) : Z := Z.max (ilog2 q - (prec - 1)) emin.

(** Nearest integer, ties to even. *)
Definition rne (q : Q) : Z :=
  let f := Qfloor q in
  match (q - inject_Z f ?= 1 # 2)%Q with
  | Lt => f
  | Gt => f + 1
  | Eq => if Z.even f then f else f + 1
  end.

Definition round_pos (q : Q) : Q :=
  let e := fexp q in (inject_Z (rne (q / 2 ^ e)) * 2 ^ e)%Q.

Definition RN (q : Q) : Q :=
  match (q ?= 0)%Q with
  | Eq => 0%Q
  | Gt => Qred (round_pos (Qred q))
  | Lt => Qred (- round_pos (Qred (- q)))
  end.

(** [(float)z] for an [int] or [long] [z]. *)
Definition of_int (z : Z) : Q := RN (inject_Z z).
Definition fdiv (a b : Q) : Q := RN (a / b).
Definition fmul (a b : Q) : Q := RN (a * b).

(** [(int)x]: the fractional part is discarded.  C leaves the conversion
    undefined when the result does not fit; the model saturates. *)
Definition trunc (q : Q) : Z := Z.quot (Qnum q) (Zpos (Qden q)).
Definition to_int (q : Q) : Z := Z.max INT_MIN (Z.min INT_MAX (trunc q)).

(** The same operations taken from the Standard Library's specification of
    IEEE 754 arithmetic, used to cross-check [RN] on sample inputs. *)
Definition sf_of_int (z : Z) : spec_float := binary_normalize 24 128 z 0 false.
Definition sf_value (f : spec_float) : Q :=
  match f with
  | S754_finite s m e => Qred ((if s then -1 else 1) * inject_Z (Zpos m) * 2 ^ e)
  | _ => 0%Q
  end.
Definition sf_interp (d k n : Z) : Q :=
  sf_value (SFmul 24 128 (sf_of_int d) (SFdiv 24 128 (sf_of_int k) (sf_of_int n))).

End Float32.

(* ------------------------------------------------------------------------- *)
(** ** Data model *)

Definition MAX_STEPPERS : Z := 2.

Inductive Level := LOW | HIGH.

Definition Level_eqb (a b : Level) : bool :=
  match a, b with LOW, LOW | HIGH, HIGH => true | _, _ => false end.

(** [digitalWrite(uint8_t pin, uint8_t val)] called with an [int] [v]: the
    argument is converted to [uint8_t], that is reduced modulo 256; the
    result zero is [LOW], anything else [HIGH]. *)
Definition level_of_int (v : Z) : Level := if v mod 256 =? 0 then LOW else HIGH.

Record StepperConfig := {
  stepPin : Z;
  dirPin : Z;
  enablePin : Z;
  limitA : Z;
  limitB : Z;
  home : Z;
  position : Z;
  minLimit : Z;
  maxLimit : Z;
  target : Z;
  active : bool;
  paused : bool;
  direction : bool;
  homing : bool;
  enableConfigured : bool;
  lastStepTime : Z;      (* unsigned long *)
  speed : Z;
  acceleration : Z;
  deceleration : Z;
  minDelay : Z;
  maxDelay : Z;
  useAcceleration : bool;
  currentDelay : Z;
  totalSteps : Z;        (* long *)
  stepsTaken : Z;        (* long *)
  accelSteps : Z;        (* long *)
  decelSteps : Z;        (* long *)
  movePhase : Z          (* 0=accel, 1=constant, 2=decel *)
}.

(** Assignment to one field of a record: [s <| f_ := v |>] is [s.f = v]. *)
Inductive ZField :=
| stepPin_ | dirPin_ | enablePin_ | limitA_ | limitB_ | home_ | position_
| minLimit_ | maxLimit_ | target_ | lastStepTime_ | speed_ | acceleration_
| deceleration_ | minDelay_ | maxDelay_ | currentDelay_ | totalSteps_
| stepsTaken_ | accelSteps_ | decelSteps_ | movePhase_.

Inductive BField :=
| active_ | paused_ | direction_ | homing_ | enableConfigured_ | useAcceleration_.

Definition setZ (f : ZField) (v : Z) (s : StepperConfig) : StepperConfig :=
  {| stepPin := match f with stepPin_ => v | _ => stepPin s end;
     dirPin := match f with dirPin_ => v | _ => dirPin s end;
     enablePin := match f with enablePin_ => v | _ => enablePin s end;
     limitA := match f with limitA_ => v | _ => limitA s end;
     limitB := match f with limitB_ => v | _ => limitB s end;
     home := match f with home_ => v | _ => home s end;
     position := match f with position_ => v | _ => position s end;
     minLimit := match f with minLimit_ => v | _ => minLimit s end;
     maxLimit := match f with maxLimit_ => v | _ => maxLimit s end;
     target := match f with target_ => v | _ => target s end;
     active := active s;
     paused := paused s;
     direction := direction s;
     homing := homing s;
     enableConfigured := enableConfigured s;
     lastStepTime := match f with lastStepTime_ => v | _ => lastStepTime s end;
     speed := match f with speed_ => v | _ => speed s end;
     acceleration := match f with acceleration_ => v | _ => acceleration s end;
     deceleration := match f with deceleration_ => v | _ => deceleration s end;
     minDelay := match f with minDelay_ => v | _ => minDelay s end;
     maxDelay := match f with maxDelay_ => v | _ => maxDelay s end;
     useAcceleration := useAcceleration s;
     currentDelay := match f with currentDelay_ => v | _ => currentDelay s end;
     totalSteps := match f with totalSteps_ => v | _ => totalSteps s end;
     stepsTaken := match f with stepsTaken_ => v | _ => stepsTaken s end;
     accelSteps := match f with accelSteps_ => v | _ => accelSteps s end;
     decelSteps := match f with decelSteps_ => v | _ => decelSteps s end;
     movePhase := match f with movePhase_ => v | _ => movePhase s end |}.

Definition setB (f : BField) (v : bool) (s : StepperConfig) : StepperConfig :=
  {| stepPin := stepPin s;
     dirPin := dirPin s;
     enablePin := enablePin s;
     limitA := limitA s;
     limitB := limitB s;
     home := home s;
     position := position s;
     minLimit := minLimit s;
     maxLimit := maxLimit s;
     target := target s;
     active := match f with active_ => v | _ => active s end;
     paused := match f with paused_ => v | _ => paused s end;
     direction := match f with direction_ => v | _ => direction s end;
     homing := match f with homing_ => v | _ => homing s end;
     enableConfigured := match f with enableConfigured_ => v | _ => enableConfigured s end;
     lastStepTime := lastStepTime s;
     speed := speed s;
     acceleration := acceleration s;
     deceleration := deceleration s;
     minDelay := minDelay s;
     maxDelay := maxDelay s;
     useAcceleration := match f with useAcceleration_ => v | _ => useAcceleration s end;
     currentDelay := currentDelay s;
     totalSteps := totalSteps s;
     stepsTaken := stepsTaken s;
     accelSteps := accelSteps s;
     decelSteps := decelSteps s;
     movePhase := movePhase s |}.

Notation "s <| f := v |>" := (setZ f v s) (at level 1, left associativity, f at level 0).
Notation "s <| f ::= v |>" := (setB f v s) (at level 1, left associativity, f at level 0).

(** A record as [setup()] leaves it: zeroed, acceleration disabled, default
    delay bounds. *)
Definition initial_stepper : StepperConfig :=
  {| stepPin := 0; dirPin := 0; enablePin := 0; limitA := 0; limitB := 0; home := 0;
     position := 0; minLimit := 0; maxLimit := 0; target := 0; active := false;
     paused := false; direction := false; homing := false; enableConfigured := false;
     lastStepTime := 0; speed := 0; acceleration := 0; deceleration := 0;
     minDelay := 500; maxDelay := 5000; useAcceleration := false; currentDelay := 1000;
     totalSteps := 0; stepsTaken := 0; accelSteps := 0; decelSteps := 0; movePhase := 0 |}.

(** The global array [steppers[MAX_STEPPERS]]. *)
Abbreviation Steppers := (list StepperConfig).
Definition setup_steppers : Steppers := [initial_stepper; initial_stepper].

(** What the firmware prints on the serial port, one constructor per JSON
    document, and what it does to the pins. *)
Inductive SerialMsg :=
| stepper_done (id position : Z)                       (* "event":"stepper_done" *)
| limit_hit (id : Z) (limit : string) (position : Z)   (* "event":"limit_hit" *)
| stepper_initialized (id : Z)
| status_ok (message : string)
| status_error (message : string)
| accel_setup (id totalSteps accelSteps decelSteps acceleration deceleration speed maxDelay : Z)
| pin_states (id : Z) (limit_a limit_b home_sw : bool) (position : Z) (moving : bool).

Inductive PinMode := OUTPUT | INPUT_PULLUP.

(** [digitalWrite] and [pinMode] carry the pin number the code passes and
    the level, respectively the mode, it sets. *)
Inductive Output :=
| digitalWrite (pin : Z) (val : Level)
| pinMode (pin : Z) (mode : PinMode)
| Serial (msg : SerialMsg).

(** The axis an event is about. *)
Definition event_axis (m : SerialMsg) : option Z :=
  match m with
  | stepper_done id _ | limit_hit id _ _ => Some id
  | _ => None
  end.

Fixpoint events_of (id : Z) (out : list Output) : list SerialMsg :=
  match out with
  | [] => []
  | Serial m :: rest =>
      match event_axis m with
      | Some j => if j =? id then m :: events_of id rest else events_of id rest
      | None => events_of id rest
      end
  | _ :: rest => events_of id rest
  end.

(* ------------------------------------------------------------------------- *)
(** ** Profile calculator *)

(** [calculateAccelSteps(id, totalSteps)]; [s] is [steppers[id]]. *)
Definition calculateAccelSteps (s : StepperConfig) (totalSteps : Z) : Z :=
  if acceleration s <=? 0 then 0
  else
    let calculatedSteps := acceleration s in
    let maxAccelSteps := idiv (imul totalSteps 2) 5 in
    let finalSteps := Z.min maxAccelSteps calculatedSteps in
    Z.max finalSteps 10.

Definition calculateDecelSteps (s : StepperConfig) (totalSteps : Z) : Z :=
  if deceleration s <=? 0 then 0
  else
    let calculatedSteps := deceleration s in
    let maxDecelSteps := idiv (imul totalSteps 2) 5 in
    let finalSteps := Z.min maxDecelSteps calculatedSteps in
    Z.max finalSteps 10.

(** [progress = (float)currentStep / (float)totalAccelSteps;
     return startDelay - (int)((startDelay - endDelay) * progress);] *)
Definition calculateAccelDelay (id currentStep totalAccelSteps startDelay endDelay : Z) : Z :=
  if totalAccelSteps =? 0 then endDelay
  else
    let progress := Float32.fdiv (Float32.of_int currentStep) (Float32.of_int totalAccelSteps) in
    isub startDelay
      (Float32.to_int (Float32.fmul (Float32.of_int (isub startDelay endDelay)) progress)).

Definition calculateDecelDelay (id currentStep totalDecelSteps startDelay endDelay : Z) : Z :=
  if totalDecelSteps =? 0 then startDelay
  else
    let progress := Float32.fdiv (Float32.of_int currentStep) (Float32.of_int totalDecelSteps) in
    iadd startDelay
      (Float32.to_int (Float32.fmul (Float32.of_int (isub endDelay startDelay)) progress)).

Definition startAcceleratedMove (id targetPos moveSpeed : Z) (s : StepperConfig)
  : StepperConfig * list Output :=
  let s := s <| totalSteps_ := iabs (isub targetPos (position s)) |> in
  let s := s <| stepsTaken_ := 0 |> in
  let s := s <| speed_ := moveSpeed |> in
  let s := s <| accelSteps_ := calculateAccelSteps s (totalSteps s) |> in
  let s := s <| decelSteps_ := calculateDecelSteps s (totalSteps s) |> in
  let debug :=
    [Serial (accel_setup id (totalSteps s) (accelSteps s) (decelSteps s)
               (acceleration s) (deceleration s) (speed s) (maxDelay s))] in
  (* Ensure accel + decel doesn't exceed total steps *)
  let s :=
    if totalSteps s <? iadd (accelSteps s) (decelSteps s) then
      let s := s <| accelSteps_ := idiv (totalSteps s) 2 |> in
      s <| decelSteps_ := isub (totalSteps s) (accelSteps s) |>
    else s in
  (* Determine starting phase and delay *)
  let s :=
    if 0 <? accelSteps s then
      let s := s <| movePhase_ := 0 |> in s <| currentDelay_ := maxDelay s |>
    else
      let s := s <| movePhase_ := 1 |> in s <| currentDelay_ := speed s |> in
  let s := s <| active_ ::= true |> in
  (s <| paused_ ::= false |>, debug).

(* ------------------------------------------------------------------------- *)
(** ** Safety interlock *)

(** A switch is triggered when its pin reads [LOW] (pull-up input). *)
Definition readLimitSwitch (rd : Z -> Level) (pin : Z) : bool := Level_eqb (rd pin) LOW.

Definition sendLimitHitEvent (id : Z) (limitName : string) (pos : Z) : list Output :=
  [Serial (limit_hit id limitName pos)].

Definition sendStepperDone (id : Z) (s : StepperConfig) : list Output :=
  [Serial (stepper_done id (position s))].

(** [if (enableConfigured) digitalWrite(enablePin, HIGH);] *)
Definition disableDriver (s : StepperConfig) : list Output :=
  if enableConfigured s then [digitalWrite (enablePin s) HIGH] else [].

Definition checkLimitSwitches (rd : Z -> Level) (id dir : Z) (s : StepperConfig)
  : StepperConfig * list Output :=
  if (dir =? 1) && readLimitSwitch rd (limitA s) then
    (s <| active_ ::= false |>,
     disableDriver s ++ sendLimitHitEvent id "limit_a" (position s))
  else if (dir =? 0) && readLimitSwitch rd (limitB s) then
    (s <| active_ ::= false |>,
     disableDriver s ++ sendLimitHitEvent id "limit_b" (position s))
  else (s, []).

(* ------------------------------------------------------------------------- *)
(** ** Motion scheduler *)

(** The block of [updateSteppers] under "Handle acceleration/deceleration". *)
Definition profileStep (id : Z) (s : StepperConfig) : StepperConfig :=
  let s := s <| stepsTaken_ := iadd (stepsTaken s) 1 |> in
  if movePhase s =? 0 then
    if stepsTaken s <? accelSteps s then
      s <| currentDelay_ :=
             calculateAccelDelay id (stepsTaken s) (accelSteps s) (maxDelay s) (speed s) |>
    else
      let s := s <| movePhase_ := 1 |> in s <| currentDelay_ := speed s |>
  else if movePhase s =? 1 then
    let remainingSteps := isub (totalSteps s) (stepsTaken s) in
    if remainingSteps <=? decelSteps s then s <| movePhase_ := 2 |> else s
  else if movePhase s =? 2 then
    let decelStep := isub (stepsTaken s) (isub (totalSteps s) (decelSteps s)) in
    s <| currentDelay_ :=
           calculateDecelDelay id decelStep (decelSteps s) (speed s) (maxDelay s) |>
  else s.

(** The delay the scheduler compares the elapsed time with. *)
Definition effectiveDelay (s : StepperConfig) : Z :=
  if useAcceleration s then currentDelay s else speed s.

(** [(now - lastStepTime) >= currentDelay], an [unsigned long] comparison. *)
Definition stepDue (now : Z) (s : StepperConfig) : bool :=
  u32 (effectiveDelay s) <=? u32 (now - lastStepTime s).

(** One iteration of the [for] loop of [updateSteppers], for axis [i] with
    record [s]; [now] is the value of [micros()] read at the start of the
    call. *)
Definition updateStepper (now : Z) (rd : Z -> Level) (i : Z) (s : StepperConfig)
  : StepperConfig * list Output :=
  if negb (active s) || paused s then (s, [])
  else
    (* Check limit switches for safety during movement *)
    let '(s, o1) :=
      if negb (homing s) then checkLimitSwitches rd i (Z.b2z (direction s)) s
      else (s, []) in
    if negb (homing s) && negb (active s) then (s, o1)
    else if stepDue now s then
      let o2 := [digitalWrite (stepPin s) HIGH; digitalWrite (stepPin s) LOW] in
      let s := s <| position_ := iadd (position s) (if direction s then 1 else -1) |> in
      let s := s <| lastStepTime_ := now |> in
      (* Handle homing *)
      if homing s && Level_eqb (rd (home s)) LOW then
        let s := s <| active_ ::= false |> in
        let s := s <| homing_ ::= false |> in
        let s := s <| position_ := 0 |> in
        (s, o1 ++ o2 ++ disableDriver s ++ sendStepperDone i s)
      else
        (* Handle acceleration/deceleration *)
        let s := if useAcceleration s && negb (homing s) then profileStep i s else s in
        (* Check if move is complete *)
        if negb (homing s) && (position s =? target s) then
          let s := s <| active_ ::= false |> in
          (s, o1 ++ o2 ++ disableDriver s ++ sendStepperDone i s)
        else (s, o1 ++ o2)
    else (s, o1).

Definition updateSteppers (now : Z) (rd : Z -> Level) (st : Steppers)
  : Steppers * list Output :=
  foldl
    (fun acc i =>
       match acc.1 !! i with
       | Some s =>
           let r := updateStepper now rd (Z.of_nat i) s in
           (<[i := r.1]> acc.1, acc.2 ++ r.2)
       | None => acc
       end)
    (st, []) (seq 0 (Z.to_nat MAX_STEPPERS)).

(** A scheduler tick: the clock value and the pin levels it observes. *)
Record Tick := { tick_now : Z; tick_pins : Z -> Level }.

(** Consecutive ticks with no command in between. *)
Fixpoint run (ticks : list Tick) (st : Steppers) : Steppers * list Output :=
  match ticks with
  | [] => (st, [])
  | t :: rest =>
      let r1 := updateSteppers (tick_now t) (tick_pins t) st in
      let r2 := run rest r1.1 in
      (r2.1, r1.2 ++ r2.2)
  end.

(** The same ticks applied to one axis record. *)
Fixpoint runStepper (i : Z) (ticks : list Tick) (s : StepperConfig)
  : StepperConfig * list Output :=
  match ticks with
  | [] => (s, [])
  | t :: rest =>
      let r1 := updateStepper (tick_now t) (tick_pins t) i s in
      let r2 := runStepper i rest r1.1 in
      (r2.1, r1.2 ++ r2.2)
  end.

(** The records of axis [i] after each tick. *)
Fixpoint history (i : Z) (ticks : list Tick) (s : StepperConfig) : list StepperConfig :=
  match ticks with
  | [] => []
  | t :: rest =>
      let s' := (updateStepper (tick_now t) (tick_pins t) i s).1 in
      s' :: history i rest s'
  end.

(** A list with runs of equal consecutive values collapsed to one. *)
Fixpoint changes (l : list Z) : list Z :=
  match l with
  | [] => []
  | x :: rest =>
      match rest with
      | [] => [x]
      | y :: _ => if x =? y then changes rest else x :: changes rest
      end
  end.

(* ------------------------------------------------------------------------- *)
(** ** Axis command interface *)

Inductive Command :=
| init_stepper (id step_pin dir_pin limit_a limit_b home_pin min_limit max_limit : Z)
    (enable_pin : option Z)
| move_stepper (id steps dir speed_arg : Z)
| home_stepper (id : Z) (speed_arg : option Z)
| set_stepper_acceleration (id accel : Z)
| set_stepper_deceleration (id decel : Z)
| set_stepper_speed_limits (id min_delay max_delay : Z)
| get_pin_states (id : Z)
| get_status (id : option Z).

(** The result of a command: the new array and what was written, or an
    access to [steppers[id]] with [id] outside the array, which C leaves
    undefined. *)
Inductive Outcome :=
| Done (st : Steppers) (out : list Output)
| OutOfBounds (id : Z).

(** Run [f] on [steppers[id]]. *)
Definition onStepper (id : Z) (st : Steppers)
  (f : StepperConfig -> StepperConfig * list Output) : Outcome :=
  if (0 <=? id) && (id <? MAX_STEPPERS) then
    match st !! Z.to_nat id with
    | Some s => let r := f s in Done (<[Z.to_nat id := r.1]> st) r.2
    | None => OutOfBounds id
    end
  else OutOfBounds id.

(** Read [steppers[id]] without changing it. *)
Definition readStepper (id : Z) (st : Steppers) (f : StepperConfig -> list Output) : Outcome :=
  if (0 <=? id) && (id <? MAX_STEPPERS) then
    match st !! Z.to_nat id with
    | Some s => Done st (f s)
    | None => OutOfBounds id
    end
  else OutOfBounds id.

Definition initStepper (id step_pin dir_pin limit_a limit_b home_pin min_limit max_limit : Z)
  (enable_pin : option Z) (s : StepperConfig) : StepperConfig * list Output :=
  let s := s <| stepPin_ := step_pin |> in
  let s := s <| dirPin_ := dir_pin |> in
  let s := s <| limitA_ := limit_a |> in
  let s := s <| limitB_ := limit_b |> in
  let s := s <| home_ := home_pin |> in
  let s := s <| minLimit_ := min_limit |> in
  let s := s <| maxLimit_ := max_limit |> in
  let s := s <| enableConfigured_ ::= (match enable_pin with Some _ => true | None => false end) |> in
  let '(s, o1) :=
    match enable_pin with
    | Some p => (s <| enablePin_ := p |>, [pinMode p OUTPUT; digitalWrite p HIGH])
    | None => (s, [])
    end in
  let o2 :=
    [pinMode (stepPin s) OUTPUT; pinMode (dirPin s) OUTPUT; pinMode (home s) INPUT_PULLUP;
     pinMode (limitA s) INPUT_PULLUP; pinMode (limitB s) INPUT_PULLUP] in
  let s := s <| position_ := 0 |> in
  let s := s <| active_ ::= false |> in
  let s := s <| paused_ ::= false |> in
  let s := s <| homing_ ::= false |> in
  (s, o1 ++ o2 ++ [Serial (stepper_initialized id)]).

Definition moveStepper (now id steps dir speed_arg : Z) (s : StepperConfig)
  : StepperConfig * list Output :=
  let s := s <| target_ := iadd (position s) (if dir =? 1 then steps else ineg steps) |> in
  let s := s <| speed_ := speed_arg |> in
  let s := s <| direction_ ::= negb (dir =? 0) |> in
  let s := s <| homing_ ::= false |> in
  let o1 :=
    digitalWrite (dirPin s) (level_of_int dir)
    :: (if enableConfigured s then [digitalWrite (enablePin s) LOW] else []) in
  (* Initialize acceleration if enabled (either acceleration or deceleration > 0) *)
  let '(s, o2) :=
    if useAcceleration s && ((0 <? acceleration s) || (0 <? deceleration s)) then
      startAcceleratedMove id (target s) speed_arg s
    else
      (* Use constant speed (existing behavior) *)
      let s := s <| active_ ::= true |> in
      let s := s <| paused_ ::= false |> in
      (s <| currentDelay_ := speed_arg |>, []) in
  (s <| lastStepTime_ := now |>, o1 ++ o2).

Definition homeStepper (now : Z) (speed_arg : option Z) (s : StepperConfig)
  : StepperConfig * list Output :=
  let s := s <| direction_ ::= false |> in
  let o1 := [digitalWrite (dirPin s) LOW] in
  let s := s <| target_ := -999999 |> in
  let s := s <| active_ ::= true |> in
  let s := s <| paused_ ::= false |> in
  let s := s <| homing_ ::= true |> in
  let s := s <| speed_ := (match speed_arg with Some v => v | None => 1000 end) |> in
  let s := s <| currentDelay_ := speed s |> in
  let o2 := if enableConfigured s then [digitalWrite (enablePin s) LOW] else [] in
  (s <| lastStepTime_ := now |>, o1 ++ o2).

Definition setAcceleration (v : Z) (s : StepperConfig) : StepperConfig :=
  let s := s <| acceleration_ := v |> in
  s <| useAcceleration_ ::= ((0 <? acceleration s) || (0 <? deceleration s)) |>.

Definition setDeceleration (v : Z) (s : StepperConfig) : StepperConfig :=
  let s := s <| deceleration_ := v |> in
  s <| useAcceleration_ ::= ((0 <? acceleration s) || (0 <? deceleration s)) |>.

Definition setSpeedLimits (lo hi : Z) (s : StepperConfig) : StepperConfig :=
  let s := s <| minDelay_ := lo |> in s <| maxDelay_ := hi |>.

Definition sendPinStates (rd : Z -> Level) (id : Z) (s : StepperConfig) : list Output :=
  [Serial (pin_states id (readLimitSwitch rd (limitA s)) (readLimitSwitch rd (limitB s))
             (readLimitSwitch rd (home s)) (position s) (active s && negb (paused s)))].

Definition invalid_stepper_id : list Output := [Serial (status_error "invalid_stepper_id")].

Definition validId (id : Z) : bool := (0 <=? id) && (id <? MAX_STEPPERS).

(** The stepper branches of [handleCommand]; [now] is what [micros()]
    returns and [rd] what [digitalRead] returns during the command. *)
Definition handleCommand (now : Z) (rd : Z -> Level) (c : Command) (st : Steppers) : Outcome :=
  match c with
  | init_stepper id step_pin dir_pin limit_a limit_b home_pin min_limit max_limit enable_pin =>
      onStepper id st
        (initStepper id step_pin dir_pin limit_a limit_b home_pin min_limit max_limit enable_pin)
  | move_stepper id steps dir speed_arg =>
      if id <? MAX_STEPPERS then onStepper id st (moveStepper now id steps dir speed_arg)
      else Done st []
  | home_stepper id speed_arg => onStepper id st (homeStepper now speed_arg)
  | set_stepper_acceleration id v =>
      if validId id then
        onStepper id st (fun s => (setAcceleration v s, [Serial (status_ok "acceleration_set")]))
      else Done st invalid_stepper_id
  | set_stepper_deceleration id v =>
      if validId id then
        onStepper id st (fun s => (setDeceleration v s, [Serial (status_ok "deceleration_set")]))
      else Done st invalid_stepper_id
  | set_stepper_speed_limits id lo hi =>
      if validId id then
        onStepper id st (fun s => (setSpeedLimits lo hi s, [Serial (status_ok "speed_limits_set")]))
      else Done st invalid_stepper_id
  | get_pin_states id =>
      if validId id then readStepper id st (sendPinStates rd id)
      else Done st invalid_stepper_id
  | get_status id_arg =>
      let id := match id_arg with Some v => v | None => 0 end in
      if validId id then readStepper id st (sendPinStates rd id)
      else Done st invalid_stepper_id
  end.

(* ------------------------------------------------------------------------- *)
(** ** Serial line assembly *)

Module SerialInput.

(** The part of [loop()] that reads the serial port: characters are
    collected in the static [inputString] until a line feed hands the line
    to [handleCommand]. *)

Definition LF : ascii := "010"%char.
Definition CR : ascii := "013"%char.

Inductive LoopEvent :=
| handleCommand_call (input : list ascii)   (* handleCommand(inputString) *)
| command_too_long.                         (* {"error":"command_too_long"} *)

(** The body of [while (Serial.available())] for the character [c] just
    read; the result is the new [inputString] and what the iteration did. *)
Definition readChar (c : ascii) (inputString : list ascii) : list ascii * list LoopEvent :=
  if Ascii.eqb c LF then
    if Nat.ltb 0 (length inputString) then ([], [handleCommand_call inputString])
    else (inputString, [])
  else if negb (Ascii.eqb c CR) then
    let inputString := inputString ++ [c] in
    (* Prevent buffer overflow *)
    if Nat.ltb 500 (length inputString) then ([], [command_too_long])
    else (inputString, [])
  else (inputString, []).

(** The loop over the characters that are available. *)
Fixpoint readSerial (available : list ascii) (inputString : list ascii)
  : list ascii * list LoopEvent :=
  match available with
  | [] => (inputString, [])
  | c :: rest =>
      let r1 := readChar c inputString in
      let r2 := readSerial rest r1.1 in
      (r2.1, r1.2 ++ r2.2)
  end.

(** A character that is neither line feed nor carriage return. *)
Definition plain (c : ascii) : Prop := c <> LF /\ c <> CR.

(** What [handleCommand] can be called with from [loop()]. *)
Definition wellFormedCall (e : LoopEvent) : Prop :=
  match e with
  | handleCommand_call input =>
      (1 <= length input <= 500)%nat /\ Forall plain input
  | command_too_long => True
  end.

(** The lines of a text, each followed by a line feed. *)
Definition unlines (lines : list (list ascii)) : list ascii :=
  concat (map (fun l => l ++ [LF]) lines).

Definition nonEmpty (l : list ascii) : bool := Nat.ltb 0 (length l).

Definition notCR (c : ascii) : bool := negb (Ascii.eqb c CR).

(** Sample input. *)
Definition sample_lines : list (list ascii) :=
  [list_ascii_of_string "first"; []; list_ascii_of_string "second"].

Definition overlong_head : list ascii := repeat "x"%char 501.

End SerialInput.

(* ------------------------------------------------------------------------- *)
(** ** Servo slots *)

Module ServoSlots.

(** The [set_servo] branch of [handleCommand]: the global [attachedPins]
    records which pin each of the [MAX_SERVOS] servo objects is attached
    to, [-1] for none. *)

Definition MAX_SERVOS : nat := 4.

(** [int attachedPins[MAX_SERVOS] = {-1, -1, -1, -1};] *)
Definition initial_pins : list Z := [-1; -1; -1; -1].

(** Calls on the servo objects [servos[i]]. *)
Inductive ServoCall :=
| servo_write (i : nat) (angle : Z)
| servo_setPeriodHertz (i : nat) (hertz : Z)
| servo_attach (i : nat) (pin : Z).

(** The reply: ["status"] is ["ok"] or ["servo_attach_failed"], and the
    pin and the angle of the command are echoed. *)
Inductive ServoReply := servo_reply (ok : bool) (pin angle : Z).

(** [for (i = 0; ...; i++) if (attachedPins[i] == pin) { ...; break; }]:
    the first index, counted from [i], whose entry is [pin]. *)
Fixpoint findSlot (pin : Z) (attachedPins : list Z) (i : nat) : option nat :=
  match attachedPins with
  | [] => None
  | p :: rest => if p =? pin then Some i else findSlot pin rest (S i)
  end.

Definition setServo (pin angle : Z) (attachedPins : list Z)
  : list Z * list ServoCall * ServoReply :=
  match findSlot pin attachedPins 0 with
  | Some i => (attachedPins, [servo_write i angle], servo_reply true pin angle)
  | None =>
      match findSlot (-1) attachedPins 0 with
      | Some i =>
          (<[i := pin]> attachedPins,
           [servo_setPeriodHertz i 50; servo_attach i pin; servo_write i angle],
           servo_reply true pin angle)
      | None => (attachedPins, [], servo_reply false pin angle)
      end
  end.

(** A sequence of [set_servo] commands, each a pin and an angle. *)
Fixpoint setServos (cmds : list (Z * Z)) (attachedPins : list Z)
  : list Z * list ServoCall * list ServoReply :=
  match cmds with
  | [] => (attachedPins, [], [])
  | (pin, angle) :: rest =>
      let '(a1, c1, r1) := setServo pin angle attachedPins in
      let '(a2, c2, r2) := setServos rest a1 in
      (a2, c1 ++ c2, r1 :: r2)
  end.

(** The attached pins fill the first slots, without [-1] and without
    repetition; the free slots follow. *)
Definition Packed (ap : list Z) : Prop :=
  exists used n, ap = used ++ repeat (-1) n /\ ~ In (-1) used /\ NoDup used /\
                 (length used + n = MAX_SERVOS)%nat.

End ServoSlots.

(* ------------------------------------------------------------------------- *)
(** ** Status LED *)

Module Led.

(** The WS2812B code: [setLedColor], [handleLedCommand],
    [updateLedAnimations] and the LED part of [setup()].  There is one LED
    ([NUM_LEDS] is 1), the pixel [leds[0]]. *)

Record CRGB := { red : Z; green : Z; blue : Z }.

Definition Black : CRGB := {| red := 0; green := 0; blue := 0 |}.

(** The pixel operations of the FastLED library that the firmware calls.
    Their arithmetic belongs to the library; the firmware's code is
    embedded for any such operations. *)
Class PixelOps := {
  getLuma : CRGB -> Z;                  (* uint8_t CRGB::getLuma() *)
  fadeToBlackBy : CRGB -> Z -> CRGB;    (* CRGB::fadeToBlackBy(uint8_t) *)
  setHue : CRGB -> Z -> CRGB            (* CRGB::setHue(uint8_t) *)
}.

(** The LED globals, with the function-static [lastDebugOutput] of
    [setLedColor]. *)
Record LedState := {
  leds0 : CRGB;
  ledInitialized : bool;
  ledAnimationMode : Z;          (* 0=solid, 1=blinking, 2=breathing, 3=rotating *)
  ledBrightness : Z;             (* uint8_t *)
  lastLedUpdate : Z;             (* unsigned long *)
  ledAnimationSpeed : Z;         (* unsigned long *)
  ledAnimationDirection : bool;
  ledAnimationStep : Z;
  lastDebugOutput : Z            (* unsigned long *)
}.

Definition with_leds0 (c : CRGB) (l : LedState) : LedState :=
  {| leds0 := c; ledInitialized := ledInitialized l; ledAnimationMode := ledAnimationMode l;
     ledBrightness := ledBrightness l; lastLedUpdate := lastLedUpdate l;
     ledAnimationSpeed := ledAnimationSpeed l;
     ledAnimationDirection := ledAnimationDirection l;
     ledAnimationStep := ledAnimationStep l; lastDebugOutput := lastDebugOutput l |}.

Definition with_initialized (v : bool) (l : LedState) : LedState :=
  {| leds0 := leds0 l; ledInitialized := v; ledAnimationMode := ledAnimationMode l;
     ledBrightness := ledBrightness l; lastLedUpdate := lastLedUpdate l;
     ledAnimationSpeed := ledAnimationSpeed l;
     ledAnimationDirection := ledAnimationDirection l;
     ledAnimationStep := ledAnimationStep l; lastDebugOutput := lastDebugOutput l |}.

Definition with_mode (v : Z) (l : LedState) : LedState :=
  {| leds0 := leds0 l; ledInitialized := ledInitialized l; ledAnimationMode := v;
     ledBrightness := ledBrightness l; lastLedUpdate := lastLedUpdate l;
     ledAnimationSpeed := ledAnimationSpeed l;
     ledAnimationDirection := ledAnimationDirection l;
     ledAnimationStep := ledAnimationStep l; lastDebugOutput := lastDebugOutput l |}.

Definition with_brightness (v : Z) (l : LedState) : LedState :=
  {| leds0 := leds0 l; ledInitialized := ledInitialized l;
     ledAnimationMode := ledAnimationMode l;
     ledBrightness := v; lastLedUpdate := lastLedUpdate l;
     ledAnimationSpeed := ledAnimationSpeed l;
     ledAnimationDirection := ledAnimationDirection l;
     ledAnimationStep := ledAnimationStep l; lastDebugOutput := lastDebugOutput l |}.

Definition with_lastLedUpdate (v : Z) (l : LedState) : LedState :=
  {| leds0 := leds0 l; ledInitialized := ledInitialized l;
     ledAnimationMode := ledAnimationMode l;
     ledBrightness := ledBrightness l; lastLedUpdate := v;
     ledAnimationSpeed := ledAnimationSpeed l;
     ledAnimationDirection := ledAnimationDirection l;
     ledAnimationStep := ledAnimationStep l; lastDebugOutput := lastDebugOutput l |}.

Definition with_speed (v : Z) (l : LedState) : LedState :=
  {| leds0 := leds0 l; ledInitialized := ledInitialized l;
     ledAnimationMode := ledAnimationMode l;
     ledBrightness := ledBrightness l; lastLedUpdate := lastLedUpdate l;
     ledAnimationSpeed := v;
     ledAnimationDirection := ledAnimationDirection l;
     ledAnimationStep := ledAnimationStep l; lastDebugOutput := lastDebugOutput l |}.

Definition with_direction (v : bool) (l : LedState) : LedState :=
  {| leds0 := leds0 l; ledInitialized := ledInitialized l;
     ledAnimationMode := ledAnimationMode l;
     ledBrightness := ledBrightness l; lastLedUpdate := lastLedUpdate l;
     ledAnimationSpeed := ledAnimationSpeed l;
     ledAnimationDirection := v;
     ledAnimationStep := ledAnimationStep l; lastDebugOutput := lastDebugOutput l |}.

Definition with_step (v : Z) (l : LedState) : LedState :=
  {| leds0 := leds0 l; ledInitialized := ledInitialized l;
     ledAnimationMode := ledAnimationMode l;
     ledBrightness := ledBrightness l; lastLedUpdate := lastLedUpdate l;
     ledAnimationSpeed := ledAnimationSpeed l;
     ledAnimationDirection := ledAnimationDirection l;
     ledAnimationStep := v; lastDebugOutput := lastDebugOutput l |}.

Definition with_lastDebugOutput (v : Z) (l : LedState) : LedState :=
  {| leds0 := leds0 l; ledInitialized := ledInitialized l;
     ledAnimationMode := ledAnimationMode l;
     ledBrightness := ledBrightness l; lastLedUpdate := lastLedUpdate l;
     ledAnimationSpeed := ledAnimationSpeed l;
     ledAnimationDirection := ledAnimationDirection l;
     ledAnimationStep := ledAnimationStep l; lastDebugOutput := v |}.

(** The globals as their initialisers leave them; [pixel] is the content
    of [leds[0]] before the firmware has written to it. *)
Definition power_on (pixel : CRGB) : LedState :=
  {| leds0 := pixel; ledInitialized := false; ledAnimationMode := 0; ledBrightness := 50;
     lastLedUpdate := 0; ledAnimationSpeed := 100; ledAnimationDirection := true;
     ledAnimationStep := 0; lastDebugOutput := 0 |}.

(** What the LED code does to the outside: calls of the FastLED object and
    lines on the serial port. *)
Inductive LedOut :=
| FastLED_setBrightness (scale : Z)
| FastLED_show (pixel : CRGB)
| led_set_debug (r g b brightness : Z)     (* "debug":"led_set" *)
| led_reply (m : SerialMsg)
| led_println (text : string).

(** Conversion to [uint8_t]. *)
Definition u8 (x : Z) : Z := x mod 256.

(** [setLedColor(r, g, b, brightness)]; [ms] is what [millis()] returns
    during the call. *)
Definition setLedColor (ms : Z) (r g b brightness : Z) (l : LedState)
  : LedState * list LedOut :=
  if negb (ledInitialized l) then (l, [])
  else
    let l := with_leds0 {| red := r; green := g; blue := b |} l in
    let '(l, o1) :=
      if negb (brightness =? 255) then
        if negb (ledBrightness l =? brightness) then
          (with_brightness brightness l, [FastLED_setBrightness brightness])
        else (l, [])
      else (l, []) in
    let o2 := [FastLED_show (leds0 l)] in
    if 1000 <? u32 (ms - lastDebugOutput l) then
      (with_lastDebugOutput ms l, o1 ++ o2 ++ [led_set_debug r g b (ledBrightness l)])
    else (l, o1 ++ o2).

(** The LED part of [setup()]. *)
Definition setup_led (ms : Z) (l : LedState) : LedState * list LedOut :=
  let o0 := [FastLED_setBrightness (ledBrightness l)] in
  let '(l, o1) := setLedColor ms 0 0 50 255 l in   (* Default blue color on startup *)
  let o2 := [FastLED_show (leds0 l)] in
  let l := with_initialized true l in
  (l, o0 ++ o1 ++ o2 ++ [led_println "LED initialized successfully"]).

(** A decoded ["led"] command: the subcommand and the keys it reads. *)
Inductive LedCommand :=
| set_color (r g b : Z) (brightness : option Z)
| set_animation (mode : Z) (speed : option Z) (rgb : option (Z * Z * Z))
    (brightness : option Z)
| off
| other_subcommand (name : string)
| no_subcommand.

Definition handleLedCommand (ms : Z) (c : LedCommand) (l : LedState)
  : LedState * list LedOut :=
  if negb (ledInitialized l) then (l, [led_reply (status_error "led_not_initialized")])
  else
    match c with
    | set_color r g b brightness =>
        (* Update brightness if provided *)
        let '(l, o1) :=
          match brightness with
          | Some v => (with_brightness v l, [FastLED_setBrightness v])
          | None => (l, [])
          end in
        (* Set animation mode to solid (0) *)
        let l := with_mode 0 l in
        let '(l, o2) := setLedColor ms r g b 255 l in
        (l, o1 ++ o2 ++ [led_reply (status_ok "color_set")])
    | set_animation mode speed rgb brightness =>
        let l := with_mode mode l in
        let l := match speed with Some v => with_speed v l | None => l end in
        let l :=
          match rgb with
          | Some (r, g, b) => with_leds0 {| red := r; green := g; blue := b |} l
          | None => l
          end in
        let '(l, o1) :=
          match brightness with
          | Some v => (with_brightness v l, [FastLED_setBrightness v])
          | None => (l, [])
          end in
        (* Reset animation parameters *)
        let l := with_direction true l in
        let l := with_step 0 l in
        let l := with_lastLedUpdate ms l in
        (l, o1 ++ [led_reply (status_ok "animation_set")])
    | off =>
        let '(l, o1) := setLedColor ms 0 0 0 255 l in
        let l := with_mode 0 l in
        (l, o1 ++ [led_reply (status_ok "led_off")])
    | other_subcommand _ => (l, [led_reply (status_error "unknown_subcommand")])
    | no_subcommand => (l, [led_reply (status_error "missing_subcommand")])
    end.

(** [updateLedAnimations()]; [currentMillis] is the value of [millis()]. *)
Definition updateLedAnimations `{PixelOps} (currentMillis : Z) (l : LedState)
  : LedState * list LedOut :=
  if negb (ledInitialized l) || (ledAnimationMode l =? 0) then (l, [])
  else if u32 (currentMillis - lastLedUpdate l) <? u32 (ledAnimationSpeed l) then (l, [])
  else
    let l := with_lastLedUpdate currentMillis l in
    let currentColor := leds0 l in
    let shown (l : LedState) := (l, [FastLED_show (leds0 l)]) in
    if ledAnimationMode l =? 1 then
      (* Blinking *)
      let luma := getLuma (leds0 l) in
      shown (if 0 <? luma then with_leds0 Black l else with_leds0 currentColor l)
    else if ledAnimationMode l =? 2 then
      (* Breathing *)
      let l :=
        if ledAnimationDirection l then
          let l := with_step (iadd (ledAnimationStep l) 5) l in
          if 100 <=? ledAnimationStep l then with_direction false (with_step 100 l) else l
        else
          let l := with_step (isub (ledAnimationStep l) 5) l in
          if ledAnimationStep l <=? 5 then with_direction true (with_step 5 l) else l in
      let l := with_leds0 currentColor l in
      shown (with_leds0
               (fadeToBlackBy (leds0 l)
                  (u8 (isub 255 (idiv (imul (ledAnimationStep l) 255) 100)))) l)
    else if ledAnimationMode l =? 3 then
      (* Rotating colors (hue shift) *)
      let l := with_leds0 (setHue (leds0 l) (u8 (ledAnimationStep l))) l in
      shown (with_step (Z.rem (iadd (ledAnimationStep l) 5) 256) l)
    else if ledAnimationMode l =? 4 then
      (* SOS pattern *)
      let l :=
        if Z.rem (idiv (ledAnimationStep l) 2) 2 =? 0 then with_leds0 currentColor l
        else with_leds0 Black l in
      shown (with_step (Z.rem (iadd (ledAnimationStep l) 1) 20) l)
    else if ledAnimationMode l =? 5 then
      (* Flash *)
      let flashPhase := Z.rem (ledAnimationStep l) 10 in
      let l :=
        if (flashPhase <? 1) || (flashPhase =? 2) || (flashPhase =? 4)
        then with_leds0 currentColor l
        else with_leds0 Black l in
      shown (with_step (Z.rem (iadd (ledAnimationStep l) 1) 20) l)
    else
      (* Unknown animation mode, set to solid *)
      (with_mode 0 l, []).

(** Successive calls of [updateLedAnimations] at the given clock values,
    with no command in between. *)
Fixpoint animate `{PixelOps} (times : list Z) (l : LedState) : LedState * list LedOut :=
  match times with
  | [] => (l, [])
  | t :: rest =>
      let r1 := updateLedAnimations t l in
      let r2 := animate rest r1.1 in
      (r2.1, r1.2 ++ r2.2)
  end.

(** An animation update is due at [currentMillis]. *)
Definition updateDue (currentMillis : Z) (l : LedState) : bool :=
  ledInitialized l && negb (ledAnimationMode l =? 0) &&
  negb (u32 (currentMillis - lastLedUpdate l) <? u32 (ledAnimationSpeed l)).

(** The modes that only switch the pixel between its colour and black. *)
Definition onOffMode (l : LedState) : Prop :=
  ledAnimationMode l = 1 \/ ledAnimationMode l = 4 \/ ledAnimationMode l = 5.

(** Sample pixel operations, for the examples: the luma is the largest
    channel, fading scales the channels, the hue sets the red channel. *)
Definition sample_ops : PixelOps :=
  {| getLuma := fun c => Z.max (red c) (Z.max (green c) (blue c));
     fadeToBlackBy := fun c f =>
       {| red := red c * (255 - f) / 256; green := green c * (255 - f) / 256;
          blue := blue c * (255 - f) / 256 |};
     setHue := fun c h => {| red := h; green := 255 - h; blue := 0 |} |}.

(** The LED after [setup()], and after a blink and a breathing animation
    have been started on it. *)
Definition ready : LedState := (setup_led 0 (power_on Black)).1.

Definition blinking_red : LedState :=
  (handleLedCommand 0 (set_animation 1 (Some 100) (Some (255, 0, 0)) None) ready).1.

Definition breathing_green : LedState :=
  (handleLedCommand 0 (set_animation 2 (Some 50) (Some (0, 255, 0)) None) ready).1.

End Led.

(* ------------------------------------------------------------------------- *)
(** ** Notions used in the statements *)

(** The pulse on the step line: [HIGH], two microseconds, [LOW]. *)
Definition stepPulse (s : StepperConfig) : list Output :=
  [digitalWrite (stepPin s) HIGH; digitalWrite (stepPin s) LOW].

(** The record after the pulse: position and time stamp updated. *)
Definition stepped (now : Z) (s : StepperConfig) : StepperConfig :=
  (s <| position_ := iadd (position s) (if direction s then 1 else -1) |>)
    <| lastStepTime_ := now |>.

(** The record after a pulse of an ordinary move, before the completion check. *)
Definition advanced (now i : Z) (s : StepperConfig) : StepperConfig :=
  if useAcceleration s then profileStep i (stepped now s) else stepped now s.

(** The switch that guards the current travel direction, and the name it
    is reported under: limit A when moving forward ([direction == 1]),
    limit B when moving backward. *)
Definition guardPin (s : StepperConfig) : Z := if direction s then limitA s else limitB s.
Definition guardName (s : StepperConfig) : string :=
  if direction s then "limit_a"%string else "limit_b"%string.

(** The signed unit step of a direction. *)
Definition stepUnit (fwd : bool) : Z := if fwd then 1 else -1.

(** The scheduler steps the axis in this iteration. *)
Definition stepsNow (now : Z) (rd : Z -> Level) (s : StepperConfig) : bool :=
  active s && negb (paused s) && (homing s || negb (readLimitSwitch rd (guardPin s)))
  && stepDue now s.

(** The branches of one scheduler iteration; every record and input falls
    in one of them ([Branch_total]). *)
Inductive Branch (now : Z) (rd : Z -> Level) (s : StepperConfig) : Prop :=
| br_idle : active s = false \/ paused s = true -> Branch now rd s
| br_limit : active s = true -> paused s = false -> homing s = false ->
    readLimitSwitch rd (guardPin s) = true -> Branch now rd s
| br_wait : active s = true -> paused s = false ->
    homing s = true \/ readLimitSwitch rd (guardPin s) = false ->
    stepDue now s = false -> Branch now rd s
| br_homed : active s = true -> paused s = false -> homing s = true ->
    stepDue now s = true -> rd (home s) = LOW -> Branch now rd s
| br_homing_step : active s = true -> paused s = false -> homing s = true ->
    stepDue now s = true -> rd (home s) = HIGH -> Branch now rd s
| br_move : active s = true -> paused s = false -> homing s = false ->
    readLimitSwitch rd (guardPin s) = false -> stepDue now s = true -> Branch now rd s.

(** What a home command leaves, and what every later tick keeps until the
    home switch is seen: the axis is active in homing mode and the delay the
    scheduler uses is [v]; the profile fields are those of [r0]. *)
Definition Homing (v : Z) (r0 s : StepperConfig) : Prop :=
  homing s = true /\ active s = true /\ paused s = false /\
  speed s = v /\ currentDelay s = v /\ effectiveDelay s = v /\
  stepsTaken s = stepsTaken r0 /\ movePhase s = movePhase r0 /\
  totalSteps s = totalSteps r0 /\ accelSteps s = accelSteps r0 /\
  decelSteps s = decelSteps r0.

(** The axis after a completed home-seek. *)
Definition Homed (s : StepperConfig) : Prop :=
  homing s = false /\ active s = false /\ position s = 0.

(** The profile fields a constant-speed move leaves alone. *)
Definition sameProfile (s s' : StepperConfig) : Prop :=
  totalSteps s' = totalSteps s /\ stepsTaken s' = stepsTaken s /\
  accelSteps s' = accelSteps s /\ decelSteps s' = decelSteps s /\
  movePhase s' = movePhase s.

(** An accelerated move in progress whose stored delay is the one the
    calculator prescribes for the steps taken so far: in ACCEL the
    acceleration delay at [stepsTaken]; in CONST the target delay [speed];
    in DECEL [speed] (just after the switch) or the deceleration delay at
    the number of steps into the phase.  The delays are within the range
    that [float] represents exactly. *)
Definition OnProfile (id : Z) (s : StepperConfig) : Prop :=
  (0 <= speed s /\ speed s <= maxDelay s /\ maxDelay s <= 2 ^ 24) /\
  (0 <= stepsTaken s /\ stepsTaken s < totalSteps s /\ totalSteps s <= INT_MAX) /\
  (0 <= accelSteps s /\ 0 <= decelSteps s /\ decelSteps s <= totalSteps s) /\
  ((movePhase s = 0 /\ stepsTaken s <= accelSteps s /\
    currentDelay s =
      calculateAccelDelay id (stepsTaken s) (accelSteps s) (maxDelay s) (speed s)) \/
   (movePhase s = 1 /\ currentDelay s = speed s) \/
   (movePhase s = 2 /\ totalSteps s - decelSteps s <= stepsTaken s /\
    (currentDelay s = speed s \/
     currentDelay s =
       calculateDecelDelay id (stepsTaken s - (totalSteps s - decelSteps s))
         (decelSteps s) (speed s) (maxDelay s)))).

(** An axis [k] pulses into a move whose target was its own position [p]:
    active, and (once it has stepped) at [p] plus or minus [k] modulo
    [2^32]. *)
Definition Overshot (p : Z) (r0 : StepperConfig) (k : Z) (s : StepperConfig) : Prop :=
  active s = true /\ paused s = false /\ homing s = false /\
  direction s = direction r0 /\ limitA s = limitA r0 /\ limitB s = limitB r0 /\
  target s = wrap32 p /\
  (k = 0 -> position s = p) /\
  (0 < k -> position s = wrap32 (p + stepUnit (direction r0) * k)).

(** Where the phase may stand after [stepsTaken] steps of a move of [T]
    steps with phase lengths [a] and [d]. *)
Definition PhaseOk (T a d : Z) (s : StepperConfig) : Prop :=
  (movePhase s = 0 /\ stepsTaken s < a) \/
  (movePhase s = 1 /\ a <= stepsTaken s /\ (stepsTaken s = a \/ d < T - stepsTaken s)) \/
  (movePhase s = 2 /\ a < stepsTaken s /\ T - stepsTaken s <= d).

(** An accelerated move of [T] steps from position [p0] in direction [fwd],
    with phase lengths [a] and [d]: the position is [stepsTaken] steps from
    [p0], and the axis is active exactly while steps remain. *)
Definition Moving (p0 T a d : Z) (fwd : bool) (s : StepperConfig) : Prop :=
  (useAcceleration s = true /\ homing s = false /\ paused s = false /\
   direction s = fwd) /\
  (target s = p0 + stepUnit fwd * T /\ totalSteps s = T /\ accelSteps s = a /\
   decelSteps s = d) /\
  (0 <= stepsTaken s <= T /\ position s = p0 + stepUnit fwd * stepsTaken s /\
   active s = (stepsTaken s <? T)) /\
  PhaseOk T a d s.

(** A tick leaves the axis as it is or takes exactly one step. *)
Definition OneStep (fwd : bool) (x y : StepperConfig) : Prop :=
  y = x \/
  (stepsTaken y = stepsTaken x + 1 /\ position y = position x + stepUnit fwd).

Fixpoint Stepwise (fwd : bool) (x : StepperConfig) (l : list StepperConfig) : Prop :=
  match l with
  | [] => True
  | y :: rest => OneStep fwd x y /\ Stepwise fwd y rest
  end.

(** Each value is its predecessor or its predecessor plus one. *)
Fixpoint climbs (x : Z) (l : list Z) : Prop :=
  match l with
  | [] => True
  | y :: rest => (y = x \/ y = x + 1) /\ climbs y rest
  end.

(** Sample records and runs. *)
Definition moving_forward : StepperConfig :=
  (((initial_stepper <| active_ ::= true |>) <| direction_ ::= true |>) <| target_ := 100 |>)
    <| limitA_ := 34 |>.

Definition seeking_home : StepperConfig :=
  (homeStepper 0 None (initial_stepper <| position_ := 77 |>)).1.

Definition both_ramps : StepperConfig :=
  setDeceleration 500 (setAcceleration 500 initial_stepper).

Definition ramping_up : StepperConfig := (startAcceleratedMove 0 2000 500 both_ramps).1.

Definition three_ticks : list Tick :=
  [ {| tick_now := 1000; tick_pins := fun _ => HIGH |};
    {| tick_now := 2000; tick_pins := fun _ => HIGH |};
    {| tick_now := 3000; tick_pins := fun _ => HIGH |} ].

Definition thirty_two_ticks : list Tick :=
  map (fun k => {| tick_now := Z.of_nat k * 100000; tick_pins := fun _ => HIGH |}) (seq 1 32).

(** Triples [(d, k, n)] on which the rounding of this file is compared with
    the Standard Library's IEEE 754 operations. *)
Definition float_samples : list (Z * Z * Z) :=
  [(4500, 1, 10); (4500, 3, 7); (4500, 499, 500); (-4000, 1, 12); (16777215, 1, 3);
   (16777217, 2, 3); (2147483647, 999, 1000); (1, 1, 2147483647); (33554434, 5, 9);
   (-16777219, 7, 11); (4900, 999, 1000); (1000, 11, 12)].

Definition float_sample_ok (x : Z * Z * Z) : bool :=
  let '(d, k, n) := x in
  Qeq_bool (Float32.sf_interp d k n)
    (Float32.fmul (Float32.of_int d) (Float32.fdiv (Float32.of_int k) (Float32.of_int n))).

(** The fields a scheduler iteration never writes. *)
Definition sameSetup (s s' : StepperConfig) : Prop :=
  stepPin s' = stepPin s /\ dirPin s' = dirPin s /\ enablePin s' = enablePin s /\
  enableConfigured s' = enableConfigured s /\ limitA s' = limitA s /\
  limitB s' = limitB s /\ home s' = home s /\ minLimit s' = minLimit s /\
  maxLimit s' = maxLimit s /\ target s' = target s /\ direction s' = direction s /\
  paused s' = paused s /\ speed s' = speed s /\ acceleration s' = acceleration s /\
  deceleration s' = deceleration s /\ minDelay s' = minDelay s /\
  maxDelay s' = maxDelay s /\ useAcceleration s' = useAcceleration s /\
  totalSteps s' = totalSteps s /\ accelSteps s' = accelSteps s /\
  decelSteps s' = decelSteps s.

(** The one input pin an iteration of the scheduler may read for an axis:
    the home switch while homing, the limit switch of the travel direction
    otherwise. *)
Definition watchedPin (s : StepperConfig) : Z := if homing s then home s else guardPin s.

(** What the main loop feeds the stepper code: a decoded stepper command
    (with the clock and the pin levels at that moment) or a call of
    [updateSteppers]. *)
Inductive Input :=
| on_command (now : Z) (pins : Z -> Level) (c : Command)
| on_tick (t : Tick).

Definition feed (x : Input) (st : Steppers) : Outcome :=
  match x with
  | on_command now pins c => handleCommand now pins c st
  | on_tick t => let r := updateSteppers (tick_now t) (tick_pins t) st in Done r.1 r.2
  end.

(** A sequence of inputs, stopped by the first access outside the array. *)
Fixpoint session (ins : list Input) (st : Steppers) : Outcome :=
  match ins with
  | [] => Done st []
  | x :: rest =>
      match feed x st with
      | Done st1 o1 =>
          match session rest st1 with
          | Done st2 o2 => Done st2 (o1 ++ o2)
          | OutOfBounds id => OutOfBounds id
          end
      | OutOfBounds id => OutOfBounds id
      end
  end.

(** What holds of every axis record the firmware can reach from [setup()]. *)
Definition Reachable (s : StepperConfig) : Prop :=
  paused s = false /\
  useAcceleration s = ((0 <? acceleration s) || (0 <? deceleration s)) /\
  (homing s = true -> active s = true /\ direction s = false /\ target s = -999999).

(** A sample session: an axis is wired, given a ramp and moved, the other
    axis is sent home, and the status is asked for. *)
Definition sample_session : list Input :=
  [ on_command 0 (fun _ => HIGH) (init_stepper 0 25 26 32 33 34 0 1000 (Some 27));
    on_command 10 (fun _ => HIGH) (set_stepper_acceleration 0 500);
    on_command 20 (fun _ => HIGH) (move_stepper 0 30 1 500);
    on_tick {| tick_now := 6000; tick_pins := fun _ => HIGH |};
    on_command 7000 (fun _ => HIGH) (home_stepper 1 None);
    on_tick {| tick_now := 12000; tick_pins := fun _ => HIGH |};
    on_command 13000 (fun _ => HIGH) (get_status None) ].

(** The axis a command addresses. *)
Definition commandAxis (c : Command) : Z :=
  match c with
  | init_stepper id _ _ _ _ _ _ _ _ | move_stepper id _ _ _ | home_stepper id _
  | set_stepper_acceleration id _ | set_stepper_deceleration id _
  | set_stepper_speed_limits id _ _ | get_pin_states id => id
  | get_status id_arg => match id_arg with Some v => v | None => 0 end
  end.

(** An axis wired to pins of its own, and the same axis seeking home. *)
Definition wired_axis : StepperConfig :=
  (initStepper 0 25 26 32 33 34 0 1000 (Some 27) initial_stepper).1.

Definition wired_homing : StepperConfig := (homeStepper 0 None wired_axis).1.

(** Pin levels with both limit switches of [wired_axis] closed and its home
    switch open. *)
Definition limits_closed (pin : Z) : Level := if pin =? 34 then HIGH else LOW.

(** Consecutive ticks on the 32-bit clock, each at least [d] microseconds
    after the one before, the first one after [t0]. *)
Fixpoint spaced (d t0 : Z) (ticks : list Tick) : Prop :=
  match ticks with
  | [] => True
  | t :: rest => d <= u32 (tick_now t - t0) /\ spaced d (tick_now t) rest
  end.

(** [n] step pulses on the step line. *)
Fixpoint pulseTrain (s : StepperConfig) (n : nat) : list Output :=
  match n with
  | O => []
  | S k => stepPulse s ++ pulseTrain s k
  end.

(** Ticks every 1000 microseconds with every switch open. *)
Definition steady_ticks (n : nat) : list Tick :=
  map (fun k => {| tick_now := Z.of_nat k * 1000; tick_pins := fun _ => HIGH |}) (seq 1 n).

(** A constant-speed move of [n] steps from [p0] with [k] steps done. *)
Definition Cruising (p0 n v : Z) (fwd : bool) (r0 : StepperConfig) (k t : Z)
    (s : StepperConfig) : Prop :=
  active s = true /\ paused s = false /\ homing s = false /\ useAcceleration s = false /\
  direction s = fwd /\ speed s = v /\ target s = p0 + stepUnit fwd * n /\
  position s = p0 + stepUnit fwd * k /\ lastStepTime s = t /\
  stepPin s = stepPin r0 /\ enablePin s = enablePin r0 /\
  enableConfigured s = enableConfigured r0 /\ limitA s = limitA r0 /\ limitB s = limitB r0.

(** Ticks every 5000 microseconds with every switch open. *)
Definition slow_ticks (n : nat) : list Tick :=
  map (fun k => {| tick_now := Z.of_nat k * 5000; tick_pins := fun _ => HIGH |}) (seq 1 n).

(** The record with other software travel limits. *)
Definition withLimits (lo hi : Z) (s : StepperConfig) : StepperConfig :=
  (s <| minLimit_ := lo |>) <| maxLimit_ := hi |>.

(** The fields [withLimits] writes. *)
Definition limitField (f : ZField) : bool :=
  match f with minLimit_ | maxLimit_ => true | _ => false end.

(** [wired_axis] on a forward move, and pin levels with only its limit A
    switch open. *)
Definition wired_moving : StepperConfig := (moveStepper 0 0 10 1 1000 wired_axis).1.

Definition only_limit_a_open (pin : Z) : Level := if pin =? 32 then HIGH else LOW.

(** What one tick may do to the stored delay, by the phase before the
    tick: not grow, and stay at or above [speed], in ACCEL; stay at [speed]
    in CONST; not shrink, and stay at or below [maxDelay], in DECEL. *)
Definition delayStep (s s' : StepperConfig) : Prop :=
  (movePhase s = 0 -> speed s <= currentDelay s' <= currentDelay s) /\
  (movePhase s = 1 -> currentDelay s' = speed s /\ currentDelay s' = currentDelay s) /\
  (movePhase s = 2 -> currentDelay s <= currentDelay s' <= maxDelay s).

(** [delayStep] at every tick of a run, up to and including the tick that
    takes the last of the [totalSteps] steps. *)
Fixpoint delaySteps (s : StepperConfig) (l : list StepperConfig) : Prop :=
  match l with
  | [] => True
  | s' :: rest => delayStep s s' /\ (stepsTaken s' < totalSteps s' -> delaySteps s' rest)
  end.

(** Every tick of a run leaves the axis as it is or obeys [delayStep]. *)
Fixpoint delayRun (s : StepperConfig) (l : list StepperConfig) : Prop :=
  match l with
  | [] => True
  | s' :: rest => (s' = s \/ delayStep s s') /\ delayRun s' rest
  end.

(** An accelerated move with no deceleration ramp that has left ACCEL: it
    runs at the commanded delay.  A move of zero steps starts like this. *)
Definition Flat (s : StepperConfig) : Prop :=
  decelSteps s = 0 /\ (movePhase s = 1 \/ movePhase s = 2) /\ currentDelay s = speed s.

(** An accelerated move in progress that is on its profile and can reach
    its target. *)
Definition Arriving (s : StepperConfig) : Prop :=
  OnProfile 0 s /\
  exists p0 T a d fwd,
    is_int p0 /\ is_int (p0 + stepUnit fwd * T) /\ T <= INT_MAX /\
    0 <= a <= T /\ 0 <= d <= T /\ Moving p0 T a d fwd s.

(** The stored delay is within the bounds of the axis, and will stay there
    at the coming ticks. *)
Definition DelayKept (s : StepperConfig) : Prop :=
  Reachable s /\ (0 <= minDelay s /\ maxDelay s <= 2 ^ 24) /\
  minDelay s <= currentDelay s <= maxDelay s /\
  (active s = true -> homing s = false -> useAcceleration s = true ->
   minDelay s <= speed s /\ (Flat s \/ Arriving s)).

(** The commands that keep the stored delay within the bounds:
    a commanded speed lies within the bounds of the axis; a move of an axis
    with acceleration enabled is commanded with [dir] 0 or 1 and a
    representable target; acceleration is not switched on during a
    constant-speed move; and the bounds are not changed during an
    accelerated move, new bounds enclose the stored delay and stay within
    the range that [float] represents exactly. *)
Definition admissible (c : Command) (st : Steppers) : Prop :=
  match c with
  | move_stepper id steps dir v =>
      forall s, 0 <= id -> st !! Z.to_nat id = Some s ->
        minDelay s <= v <= maxDelay s /\
        (useAcceleration s = true ->
         (dir = 0 \/ dir = 1) /\ 0 <= steps <= INT_MAX /\ is_int (position s) /\
         is_int (position s + (if dir =? 1 then steps else - steps)))
  | home_stepper id sp =>
      forall s, 0 <= id -> st !! Z.to_nat id = Some s ->
        minDelay s <= (match sp with Some v => v | None => 1000 end) <= maxDelay s
  | set_stepper_acceleration id v | set_stepper_deceleration id v =>
      forall s, 0 <= id -> st !! Z.to_nat id = Some s ->
        active s = true -> homing s = false -> useAcceleration s = false -> v <= 0
  | set_stepper_speed_limits id lo hi =>
      forall s, 0 <= id -> st !! Z.to_nat id = Some s ->
        (0 <= lo /\ lo <= currentDelay s <= hi /\ hi <= 2 ^ 24) /\
        (active s = true -> homing s = false -> useAcceleration s = false)
  | init_stepper _ _ _ _ _ _ _ _ _ | get_pin_states _ | get_status _ => True
  end.

(** A sequence of inputs each command of which is admissible in the state
    it arrives in. *)
Fixpoint admissibleSession (ins : list Input) (st : Steppers) : Prop :=
  match ins with
  | [] => True
  | x :: rest =>
      match x with on_command _ _ c => admissible c st | on_tick _ => True end /\
      match feed x st with
      | Done st1 _ => admissibleSession rest st1
      | OutOfBounds _ => True
      end
  end.

(** The arithmetic and the calculator are unfolded on request only. *)
Arguments wrap32 : simpl never.
Arguments u32 : simpl never.
Arguments iadd : simpl never.
Arguments isub : simpl never.
Arguments ineg : simpl never.
Arguments imul : simpl never.
Arguments idiv : simpl never.
Arguments iabs : simpl never.
Arguments calculateAccelSteps : simpl never.
Arguments calculateDecelSteps : simpl never.
Arguments calculateAccelDelay : simpl never.
Arguments calculateDecelDelay : simpl never.
Arguments startAcceleratedMove : simpl never.
Arguments profileStep : simpl never.
Arguments stepDue : simpl never.
Arguments effectiveDelay : simpl never.
Arguments disableDriver : simpl never.
Arguments readLimitSwitch : simpl never.
Arguments updateStepper : simpl never.

(* ------------------------------------------------------------------------- *)
(** ** Properties of the binary32 rounding *)

Module Float32Facts.
Import Float32.

Definition p2 (e : Z) : Q := (2 ^ e)%Q.

Lemma p2_pos e : (0 < p2 e)%Q.
Proof. apply Qpower_0_lt. reflexivity. Qed.

Lemma p2_add a b : (p2 (a + b) == p2 a * p2 b)%Q.
Proof. unfold p2. apply Qpower_plus. discriminate. Qed.

Lemma p2_le a b : a <= b -> (p2 a <= p2 b)%Q.
Proof. intros H. apply Qpower_le_compat_l; [exact H | discriminate]. Qed.

Lemma p2_lt_inv a b : (p2 a < p2 b)%Q -> a < b.
Proof. intros H. apply (Qpower_lt_compat_l_inv 2); [exact H | reflexivity]. Qed.

Lemma p2_Z e : 0 <= e -> (p2 e == inject_Z (2 ^ e))%Q.
Proof. intros H. unfold p2. rewrite Zpower_Qpower by exact H. reflexivity. Qed.

Lemma Q_num_den q : (q == inject_Z (Qnum q) / inject_Z (Zpos (Qden q)))%Q.
Proof. destruct q as [n d]. apply Qmake_Qdiv. Qed.

(** [ilog2] brackets a positive rational between two powers of two. *)
Lemma ilog2_spec q : (0 < q)%Q -> (p2 (ilog2 q) <= q < p2 (ilog2 q + 1))%Q.
Proof.
  intros Hq. unfold ilog2.
  set (a := Z.log2 (Qnum q)). set (b := Z.log2 (Zpos (Qden q))).
  assert (Hn : 0 < Qnum q).
  { destruct q as [n d]. unfold Qlt in Hq. simpl in *. lia. }
  assert (Hd : 0 < Zpos (Qden q)) by lia.
  destruct (Z.log2_spec _ Hn) as [Ha1 Ha2]. destruct (Z.log2_spec _ Hd) as [Hb1 Hb2].
  fold a in Ha1, Ha2. fold b in Hb1, Hb2.
  assert (Ha0 : 0 <= a) by apply Z.log2_nonneg.
  assert (Hb0 : 0 <= b) by apply Z.log2_nonneg.
  (* the bounds as rationals *)
  assert (Hqa : (inject_Z (Qnum q) < p2 (a + 1))%Q).
  { rewrite p2_Z by lia. rewrite <- Zlt_Qlt. exact Ha2. }
  assert (Hqb : (p2 b <= inject_Z (Zpos (Qden q)))%Q).
  { rewrite p2_Z by lia. rewrite <- Zle_Qle. exact Hb1. }
  assert (Hdq : (0 < inject_Z (Zpos (Qden q)))%Q) by (rewrite <- (Zlt_Qlt 0); lia).
  assert (Hmul : (q * inject_Z (Zpos (Qden q)) == inject_Z (Qnum q))%Q).
  { rewrite (Q_num_den q) at 1. field. intros E. rewrite E in Hdq. inversion Hdq. }
  assert (Hup : (q < p2 (a - b + 1))%Q).
  { pose proof (p2_add (a - b + 1) b) as E.
    replace (a - b + 1 + b) with (a + 1) in E by lia.
    pose proof (p2_pos (a - b + 1)). pose proof (p2_pos b).
    apply Qnot_le_lt. intros C.
    assert ((p2 (a - b + 1) * p2 b <= q * inject_Z (Zpos (Qden q)))%Q).
    { apply Qle_trans with (q * p2 b)%Q.
      - apply Qmult_le_compat_r; [exact C | apply Qlt_le_weak; assumption].
      - rewrite !(Qmult_comm q). apply Qmult_le_compat_r; [exact Hqb | apply Qlt_le_weak; exact Hq]. }
    rewrite <- E, Hmul in H1. apply (Qlt_not_le _ _ Hqa H1). }
  destruct (Qle_bool (2 ^ (a - b)) q) eqn:Hc.
  - apply Qle_bool_iff in Hc. split; [exact Hc | exact Hup].
  - assert (Hlt : (q < p2 (a - b))%Q).
    { apply Qnot_le_lt. intros C. apply Qle_bool_iff in C. unfold p2 in C. congruence. }
    split.
    + (* 2^(a-b-1) <= q from 2^a <= n and d < 2^(b+1) *)
      assert (Hqa' : (p2 a <= inject_Z (Qnum q))%Q).
      { rewrite p2_Z by lia. rewrite <- Zle_Qle. exact Ha1. }
      assert (Hqb' : (inject_Z (Zpos (Qden q)) < p2 (b + 1))%Q).
      { rewrite p2_Z by lia. rewrite <- Zlt_Qlt. exact Hb2. }
      pose proof (p2_add (a - b - 1) (b + 1)) as E.
      replace (a - b - 1 + (b + 1)) with a in E by lia.
      pose proof (p2_pos (a - b - 1)). pose proof (p2_pos (b + 1)).
      apply Qnot_lt_le. intros C.
      assert ((q * inject_Z (Zpos (Qden q)) < p2 (a - b - 1) * p2 (b + 1))%Q).
      { apply Qle_lt_trans with (q * p2 (b + 1))%Q.
        - rewrite !(Qmult_comm q). apply Qmult_le_compat_r; [apply Qlt_le_weak; exact Hqb' | apply Qlt_le_weak; exact Hq].
        - apply Qmult_lt_compat_r; assumption. }
      rewrite <- E, Hmul in H1. apply (Qlt_not_le _ _ H1 Hqa').
    + replace (a - b - 1 + 1) with (a - b) by lia. exact Hlt.
Qed.

Lemma ilog2_unique q l : (p2 l <= q < p2 (l + 1))%Q -> ilog2 q = l.
Proof.
  intros [H1 H2].
  assert (Hq : (0 < q)%Q) by (eapply Qlt_le_trans; [apply (p2_pos l) | exact H1]).
  destruct (ilog2_spec q Hq) as [H3 H4].
  assert (ilog2 q < l + 1) by (apply p2_lt_inv; eapply Qle_lt_trans; eassumption).
  assert (l < ilog2 q + 1) by (apply p2_lt_inv; eapply Qle_lt_trans; eassumption).
  lia.
Qed.

Lemma ilog2_mono x y : (0 < x)%Q -> (x <= y)%Q -> ilog2 x <= ilog2 y.
Proof.
  intros Hx Hxy.
  assert (Hy : (0 < y)%Q) by (eapply Qlt_le_trans; eassumption).
  destruct (ilog2_spec x Hx) as [H1 _]. destruct (ilog2_spec y Hy) as [_ H2].
  assert (ilog2 x < ilog2 y + 1); [|lia].
  apply p2_lt_inv. eapply Qle_lt_trans; [exact H1|]. eapply Qle_lt_trans; eassumption.
Qed.

Lemma rne_comp x y : (x == y)%Q -> rne x = rne y.
Proof.
  intros E. unfold rne. rewrite (Qfloor_comp _ _ E).
  assert (E2 : (x - inject_Z (Qfloor y) == y - inject_Z (Qfloor y))%Q) by (rewrite E; reflexivity).
  rewrite (Qcompare_comp _ _ E2 _ _ (Qeq_refl (1 # 2))). reflexivity.
Qed.

Lemma rne_bounds x : Qfloor x <= rne x <= Qfloor x + 1.
Proof.
  unfold rne. destruct (_ ?= _)%Q; [destruct (Z.even _)|..]; lia.
Qed.

Lemma rne_Z z : rne (inject_Z z) = z.
Proof.
  unfold rne. rewrite Qfloor_Z.
  assert (E : (inject_Z z - inject_Z z ?= 1 # 2)%Q = Lt).
  { apply (proj1 (Qlt_alt _ _)). lra. }
  rewrite E. reflexivity.
Qed.

Lemma rne_mono x y : (x <= y)%Q -> rne x <= rne y.
Proof.
  intros Hxy. pose proof (Qfloor_resp_le _ _ Hxy) as Hf.
  destruct (Z.eq_dec (Qfloor x) (Qfloor y)) as [E | N].
  - unfold rne. rewrite E.
    destruct (Qcompare_spec (x - inject_Z (Qfloor y)) (1 # 2)) as [H1 | H1 | H1];
    destruct (Qcompare_spec (y - inject_Z (Qfloor y)) (1 # 2)) as [H2 | H2 | H2];
    try destruct (Z.even (Qfloor y)); try lia; exfalso; lra.
  - pose proof (rne_bounds x). pose proof (rne_bounds y). lia.
Qed.

Lemma fexp_mono x y : (0 < x)%Q -> (x <= y)%Q -> fexp x <= fexp y.
Proof. intros Hx Hxy. unfold fexp. pose proof (ilog2_mono x y Hx Hxy). lia. Qed.

Lemma round_pos_nonneg x : (0 < x)%Q -> (0 <= round_pos x)%Q.
Proof.
  intros Hx. unfold round_pos.
  pose proof (p2_pos (fexp x)) as Hp. fold (p2 (fexp x)).
  apply Qmult_le_0_compat; [|apply Qlt_le_weak; exact Hp].
  rewrite <- (Zle_Qle 0). rewrite <- (rne_Z 0). apply rne_mono.
  apply Qle_shift_div_l; [exact Hp | change (inject_Z 0) with 0%Q; lra].
Qed.

(** A rounded value does not exceed the next power of two. *)
Lemma round_pos_upper x : (0 < x)%Q -> (round_pos x <= p2 (prec + fexp x))%Q.
Proof.
  intros Hx. unfold round_pos. fold (p2 (fexp x)).
  destruct (ilog2_spec x Hx) as [_ Hu].
  pose proof (p2_pos (fexp x)) as Hp.
  rewrite p2_add. apply Qmult_le_compat_r; [|apply Qlt_le_weak; exact Hp].
  rewrite (p2_Z prec) by (unfold prec; lia). rewrite <- Zle_Qle.
  rewrite <- (rne_Z (2 ^ prec)). apply rne_mono.
  rewrite <- p2_Z by (unfold prec; lia).
  apply Qle_shift_div_r; [exact Hp|]. rewrite <- p2_add.
  apply Qlt_le_weak. eapply Qlt_le_trans; [exact Hu|]. apply p2_le.
  unfold fexp, prec. lia.
Qed.

(** Above the subnormal range a rounded value keeps its leading bit. *)
Lemma round_pos_lower y :
  (0 < y)%Q -> emin < fexp y -> (p2 (prec - 1 + fexp y) <= round_pos y)%Q.
Proof.
  intros Hy He. unfold round_pos. fold (p2 (fexp y)).
  destruct (ilog2_spec y Hy) as [Hl _].
  pose proof (p2_pos (fexp y)) as Hp.
  rewrite p2_add. apply Qmult_le_compat_r; [|apply Qlt_le_weak; exact Hp].
  rewrite (p2_Z (prec - 1)) by (unfold prec; lia). rewrite <- Zle_Qle.
  rewrite <- (rne_Z (2 ^ (prec - 1))). apply rne_mono.
  rewrite <- p2_Z by (unfold prec; lia).
  apply Qle_shift_div_l; [exact Hp|]. rewrite <- p2_add.
  eapply Qle_trans; [|exact Hl]. apply p2_le. unfold fexp, prec in *. lia.
Qed.

Lemma round_pos_mono x y : (0 < x)%Q -> (x <= y)%Q -> (round_pos x <= round_pos y)%Q.
Proof.
  intros Hx Hxy.
  assert (Hy : (0 < y)%Q) by (eapply Qlt_le_trans; eassumption).
  pose proof (fexp_mono x y Hx Hxy) as He.
  destruct (Z.eq_dec (fexp x) (fexp y)) as [E | N].
  - unfold round_pos. rewrite E. fold (p2 (fexp y)).
    pose proof (p2_pos (fexp y)) as Hp.
    apply Qmult_le_compat_r; [|apply Qlt_le_weak; exact Hp].
    rewrite <- Zle_Qle. apply rne_mono.
    apply Qle_shift_div_l; [exact Hp|].
    unfold Qdiv. rewrite <- Qmult_assoc, (Qmult_comm (/ _)), Qmult_inv_r, Qmult_1_r; [exact Hxy|].
    intros C. rewrite C in Hp. inversion Hp.
  - eapply Qle_trans; [apply round_pos_upper; exact Hx|].
    eapply Qle_trans; [|apply round_pos_lower; [exact Hy|]].
    + apply p2_le. lia.
    + assert (emin <= fexp x) by (unfold fexp; lia). lia.
Qed.

Lemma RN_comp x y : (x == y)%Q -> RN x = RN y.
Proof.
  intros E. unfold RN.
  rewrite (Qcompare_comp _ _ E _ _ (Qeq_refl 0)).
  rewrite (Qred_complete _ _ E).
  assert (E2 : (- x == - y)%Q) by (rewrite E; reflexivity).
  rewrite (Qred_complete _ _ E2). reflexivity.
Qed.

Lemma RN_0 : RN 0 = 0%Q.
Proof. reflexivity. Qed.

Lemma RN_pos x : (0 < x)%Q -> (RN x == round_pos (Qred x))%Q.
Proof.
  intros H. unfold RN. rewrite (proj1 (Qgt_alt _ _) H). apply Qred_correct.
Qed.

Lemma RN_neg x : (x < 0)%Q -> (RN x == - round_pos (Qred (- x)))%Q.
Proof.
  intros H. unfold RN. rewrite (proj1 (Qlt_alt _ _) H). apply Qred_correct.
Qed.

Lemma RN_nonneg x : (0 <= x)%Q -> (0 <= RN x)%Q.
Proof.
  intros H. destruct (Qlt_le_dec 0 x) as [Hp | Hn].
  - rewrite RN_pos by exact Hp. apply round_pos_nonneg. rewrite Qred_correct. exact Hp.
  - assert (E : (x == 0)%Q) by lra. rewrite (RN_comp _ _ E). rewrite RN_0. lra.
Qed.

Lemma RN_nonpos x : (x <= 0)%Q -> (RN x <= 0)%Q.
Proof.
  intros H. destruct (Qlt_le_dec x 0) as [Hn | Hp].
  - rewrite RN_neg by exact Hn.
    assert ((0 <= round_pos (Qred (- x)))%Q); [|lra].
    apply round_pos_nonneg. rewrite Qred_correct. lra.
  - assert (E : (x == 0)%Q) by lra. rewrite (RN_comp _ _ E). rewrite RN_0. lra.
Qed.

(** Rounding to nearest is monotone. *)
Lemma RN_mono x y : (x <= y)%Q -> (RN x <= RN y)%Q.
Proof.
  intros Hxy.
  destruct (Qlt_le_dec 0 x) as [Hx | Hx].
  - assert (Hy : (0 < y)%Q) by lra.
    rewrite (RN_pos x Hx), (RN_pos y Hy).
    apply round_pos_mono; rewrite !Qred_correct; assumption.
  - destruct (Qlt_le_dec y 0) as [Hy | Hy].
    + assert (Hx' : (x < 0)%Q) by lra.
      rewrite (RN_neg x Hx'), (RN_neg y Hy).
      apply Qopp_le_compat.
      apply round_pos_mono; rewrite !Qred_correct; lra.
    + eapply Qle_trans; [apply RN_nonpos; exact Hx | apply RN_nonneg; exact Hy].
Qed.

Lemma RN_opp x : (RN (- x) == - RN x)%Q.
Proof.
  destruct (Qcompare_spec x 0) as [E | L | G].
  - assert (E2 : (- x == 0)%Q) by lra.
    rewrite (RN_comp _ _ E2), (RN_comp _ _ E), RN_0. reflexivity.
  - assert (G : (0 < - x)%Q) by lra.
    rewrite (RN_pos _ G), (RN_neg _ L). lra.
  - assert (L : (- x < 0)%Q) by lra.
    rewrite (RN_neg _ L), (RN_pos _ G).
    assert (E : (- - x == x)%Q) by lra.
    rewrite (Qred_complete _ _ E). reflexivity.
Qed.

(** Integers of at most [prec] bits are binary32 numbers. *)
Lemma round_pos_int z : 0 < z <= 2 ^ prec -> (round_pos (inject_Z z) == inject_Z z)%Q.
Proof.
  intros [Hz1 Hz2].
  assert (Hq : (0 < inject_Z z)%Q) by (rewrite <- (Zlt_Qlt 0); lia).
  destruct (ilog2_spec _ Hq) as [Hl Hu].
  set (l := ilog2 (inject_Z z)) in *.
  assert (Hl0 : 0 <= l).
  { assert (0 < l + 1); [|lia]. apply p2_lt_inv. eapply Qle_lt_trans; [|exact Hu].
    change (p2 0) with (inject_Z 1). rewrite <- Zle_Qle. lia. }
  assert (Hl24 : l <= prec).
  { assert (l < prec + 1); [|lia]. apply p2_lt_inv. eapply Qle_lt_trans; [exact Hl|].
    rewrite (p2_Z (prec + 1)) by (unfold prec; lia). rewrite <- Zlt_Qlt.
    unfold prec in *. lia. }
  destruct (Z.eq_dec l prec) as [E | N].
  - (* z is 2^prec itself *)
    assert (z = 2 ^ prec).
    { rewrite E, (p2_Z prec) in Hl by (unfold prec; lia). rewrite <- Zle_Qle in Hl. lia. }
    subst z. vm_compute. reflexivity.
  - unfold round_pos. fold (p2 (fexp (inject_Z z))).
    assert (He : fexp (inject_Z z) = l - (prec - 1)).
    { unfold fexp. fold l. unfold prec, emin in *. lia. }
    rewrite He. set (e := l - (prec - 1)).
    assert (Hneg : 0 <= - e) by (unfold e, prec in *; lia).
    pose proof (p2_pos e) as Hpe.
    assert (Hinv : (p2 e * p2 (- e) == 1)%Q).
    { rewrite <- p2_add. replace (e + - e) with 0 by lia. reflexivity. }
    assert (Hm : (inject_Z z / p2 e == inject_Z (z * 2 ^ (- e)))%Q).
    { rewrite inject_Z_mult, <- p2_Z by exact Hneg.
      apply Qmult_inj_r with (p2 e); [intros C; rewrite C in Hpe; inversion Hpe|].
      unfold Qdiv. rewrite <- !Qmult_assoc, (Qmult_comm (/ p2 e)), (Qmult_comm (p2 (- e))).
      rewrite Qmult_inv_r by (intros C; rewrite C in Hpe; inversion Hpe).
      rewrite Hinv. reflexivity. }
    rewrite (rne_comp _ _ Hm), rne_Z, inject_Z_mult, <- p2_Z by exact Hneg.
    rewrite <- Qmult_assoc, (Qmult_comm (p2 (- e))), Hinv. ring.
Qed.

Lemma ilog2_comp x y : (0 < x)%Q -> (x == y)%Q -> ilog2 x = ilog2 y.
Proof.
  intros Hx E. symmetry. apply ilog2_unique. rewrite <- E. apply ilog2_spec. exact Hx.
Qed.

Lemma round_pos_comp x y : (0 < x)%Q -> (x == y)%Q -> (round_pos x == round_pos y)%Q.
Proof.
  intros Hx E. unfold round_pos, fexp. rewrite (ilog2_comp x y Hx E).
  set (e := Z.max _ _).
  assert (E2 : (x / 2 ^ e == y / 2 ^ e)%Q) by (rewrite E; reflexivity).
  rewrite (rne_comp _ _ E2). reflexivity.
Qed.

Lemma RN_int z : Z.abs z <= 2 ^ prec -> (RN (inject_Z z) == inject_Z z)%Q.
Proof.
  intros Hz. destruct (Z.lt_trichotomy z 0) as [L | [E | G]].
  - assert (Hq : (inject_Z z < 0)%Q) by (rewrite <- (Zlt_Qlt _ 0); lia).
    rewrite (RN_neg _ Hq).
    assert (E : (Qred (- inject_Z z) == inject_Z (- z))%Q).
    { rewrite Qred_correct, inject_Z_opp. reflexivity. }
    assert (Hq' : (0 < Qred (- inject_Z z))%Q) by (rewrite Qred_correct; lra).
    rewrite (round_pos_comp _ _ Hq' E), round_pos_int by lia.
    rewrite inject_Z_opp. lra.
  - subst z. reflexivity.
  - assert (Hq : (0 < inject_Z z)%Q) by (rewrite <- (Zlt_Qlt 0); lia).
    rewrite (RN_pos _ Hq).
    assert (Hq' : (0 < Qred (inject_Z z))%Q) by (rewrite Qred_correct; exact Hq).
    rewrite (round_pos_comp _ _ Hq' (Qred_correct _)). apply round_pos_int. lia.
Qed.

(** On the samples the rounding agrees with the binary32 operations of the
    Standard Library's IEEE 754 specification. *)
Example RN_agrees_with_SpecFloat : forallb float_sample_ok float_samples = true.
Proof. vm_compute. reflexivity. Qed.

End Float32Facts.
(* ------------------------------------------------------------------------- *)
(** ** Machine integer facts *)

Lemma wrap32_id x : is_int x -> wrap32 x = x.
Proof.
  unfold is_int, wrap32, INT_MIN, INT_MAX. intros H.
  rewrite Z.mod_small by lia. lia.
Qed.

Lemma wrap32_range x : is_int (wrap32 x).
Proof.
  unfold is_int, wrap32, INT_MIN, INT_MAX.
  pose proof (Z.mod_pos_bound (x + 2 ^ 31) (2 ^ 32)). lia.
Qed.

(* ------------------------------------------------------------------------- *)
(** ** The interpolation term of the delay functions *)

Module Ramp.
Import Float32 Float32Facts.

(** [(int)((float)d * ((float)k / (float)n))] *)
Definition ramp (d k n : Z) : Z :=
  to_int (fmul (of_int d) (fdiv (of_int k) (of_int n))).

Lemma of_int_mono a b : a <= b -> (of_int a <= of_int b)%Q.
Proof. intros H. apply RN_mono. rewrite <- Zle_Qle. exact H. Qed.

Lemma of_int_exact z : Z.abs z <= 2 ^ prec -> (of_int z == inject_Z z)%Q.
Proof. apply RN_int. Qed.

Lemma of_int_nonneg z : 0 <= z -> (0 <= of_int z)%Q.
Proof. intros H. apply RN_nonneg. rewrite <- (Zle_Qle 0). exact H. Qed.

Lemma of_int_pos n : 0 < n -> (1 <= of_int n)%Q.
Proof.
  intros H. assert (E : (of_int 1 == 1)%Q) by (apply (of_int_exact 1); unfold prec; simpl; lia).
  rewrite <- E. apply of_int_mono. lia.
Qed.

Lemma Qdiv_le_mono a b c : (0 < c)%Q -> (a <= b)%Q -> (a / c <= b / c)%Q.
Proof.
  intros Hc H. apply Qle_shift_div_l; [exact Hc|].
  unfold Qdiv. rewrite <- Qmult_assoc, (Qmult_comm (/ c)), Qmult_inv_r, Qmult_1_r; [exact H|].
  intros E. rewrite E in Hc. inversion Hc.
Qed.

(** [progress] grows with the step index and stays between 0 and 1. *)
Lemma progress_mono k k' n :
  k <= k' -> 0 < n -> (fdiv (of_int k) (of_int n) <= fdiv (of_int k') (of_int n))%Q.
Proof.
  intros Hk Hn. apply RN_mono. apply Qdiv_le_mono.
  - pose proof (of_int_pos n Hn). lra.
  - apply of_int_mono. exact Hk.
Qed.

Lemma progress_nonneg k n : 0 <= k -> 0 < n -> (0 <= fdiv (of_int k) (of_int n))%Q.
Proof.
  intros Hk Hn. apply RN_nonneg.
  pose proof (of_int_pos n Hn). pose proof (of_int_nonneg k Hk).
  apply Qle_shift_div_l; lra.
Qed.

Lemma progress_le_1 k n : k <= n -> 0 < n -> (fdiv (of_int k) (of_int n) <= 1)%Q.
Proof.
  intros Hk Hn.
  assert (E : (RN 1 == 1)%Q) by (apply (RN_int 1); unfold prec; simpl; lia).
  rewrite <- E. apply RN_mono.
  pose proof (of_int_pos n Hn). pose proof (of_int_mono k n Hk).
  apply Qle_shift_div_r; lra.
Qed.

Lemma progress_full n : 0 < n -> (fdiv (of_int n) (of_int n) == 1)%Q.
Proof.
  intros Hn. pose proof (of_int_pos n Hn).
  assert (E : (of_int n / of_int n == 1)%Q) by (field; lra).
  unfold fdiv. rewrite (RN_comp _ _ E). apply (RN_int 1). unfold prec; simpl; lia.
Qed.

Lemma progress_zero n : (fdiv (of_int 0) (of_int n) == 0)%Q.
Proof.
  unfold fdiv, of_int. change (RN (inject_Z 0)) with 0%Q.
  assert (E : (0 / RN (inject_Z n) == 0)%Q) by (unfold Qdiv; ring).
  rewrite (RN_comp _ _ E). reflexivity.
Qed.

(** Truncation toward zero. *)
Lemma trunc_nonneg q : (0 <= q)%Q -> trunc q = Qfloor q.
Proof.
  destruct q as [n d]. unfold Qle, trunc, Qfloor. simpl. intros H.
  apply Z.quot_div_nonneg; lia.
Qed.

Lemma trunc_opp q : trunc (- q) = - trunc q.
Proof. destruct q as [n d]. unfold trunc. simpl. apply Z.quot_opp_l. lia. Qed.

Lemma trunc_nonpos q : (q <= 0)%Q -> trunc q = - Qfloor (- q).
Proof.
  intros H. assert (E : (0 <= - q)%Q) by lra.
  rewrite <- (trunc_nonneg _ E), trunc_opp. lia.
Qed.

Lemma trunc_mono x y : (x <= y)%Q -> trunc x <= trunc y.
Proof.
  intros H. destruct (Qlt_le_dec x 0) as [Hx | Hx]; destruct (Qlt_le_dec y 0) as [Hy | Hy].
  - rewrite (trunc_nonpos x), (trunc_nonpos y) by lra.
    assert (Qfloor (- y) <= Qfloor (- x)) by (apply Qfloor_resp_le; lra). lia.
  - rewrite (trunc_nonpos x), (trunc_nonneg y) by lra.
    assert (Qfloor 0 <= Qfloor (- x)) by (apply Qfloor_resp_le; lra).
    assert (Qfloor 0 <= Qfloor y) by (apply Qfloor_resp_le; lra).
    change (Qfloor 0) with 0 in *. lia.
  - lra.
  - rewrite (trunc_nonneg x), (trunc_nonneg y) by lra. apply Qfloor_resp_le. exact H.
Qed.

Lemma trunc_comp x y : (x == y)%Q -> trunc x = trunc y.
Proof.
  intros E. apply Z.le_antisymm; apply trunc_mono; rewrite E; apply Qle_refl.
Qed.

Lemma trunc_Z z : trunc (inject_Z z) = z.
Proof. unfold trunc. simpl. apply Z.quot_1_r. Qed.

Lemma to_int_mono x y : (x <= y)%Q -> to_int x <= to_int y.
Proof. intros H. unfold to_int. pose proof (trunc_mono x y H). lia. Qed.

Lemma to_int_Z z : is_int z -> to_int (inject_Z z) = z.
Proof. unfold to_int, is_int. rewrite trunc_Z. lia. Qed.

Lemma to_int_comp x y : (x == y)%Q -> to_int x = to_int y.
Proof. intros E. unfold to_int. rewrite (trunc_comp x y E). reflexivity. Qed.

(** The interpolation term grows with the step index. *)
Lemma ramp_mono d k k' n : 0 <= d -> k <= k' -> 0 < n -> ramp d k n <= ramp d k' n.
Proof.
  intros Hd Hk Hn. unfold ramp. apply to_int_mono. apply RN_mono.
  rewrite !(Qmult_comm (of_int d)). apply Qmult_le_compat_r.
  - apply progress_mono; assumption.
  - apply of_int_nonneg. exact Hd.
Qed.

Lemma ramp_zero d n : ramp d 0 n = 0.
Proof.
  unfold ramp, fmul.
  assert (E : (of_int d * fdiv (of_int 0) (of_int n) == 0)%Q).
  { rewrite progress_zero. ring. }
  rewrite (RN_comp _ _ E). reflexivity.
Qed.

Lemma ramp_full d n : Z.abs d <= 2 ^ prec -> 0 < n -> ramp d n n = d.
Proof.
  intros Hd Hn. unfold ramp, fmul.
  assert (E : (of_int d * fdiv (of_int n) (of_int n) == inject_Z d)%Q).
  { rewrite progress_full by exact Hn. rewrite of_int_exact by exact Hd. ring. }
  rewrite (RN_comp _ _ E).
  rewrite (to_int_comp _ _ (RN_int d Hd)). apply to_int_Z.
  unfold is_int, INT_MIN, INT_MAX, prec in *. lia.
Qed.

(** With an exactly representable span the term stays within the span. *)
Lemma ramp_bounds d k n :
  0 <= d <= 2 ^ prec -> 0 <= k <= n -> 0 < n -> 0 <= ramp d k n <= d.
Proof.
  intros Hd Hk Hn. split.
  - rewrite <- (ramp_zero d n). apply ramp_mono; lia.
  - rewrite <- (ramp_full d n) at 2 by lia. apply ramp_mono; lia.
Qed.

End Ramp.
(* ------------------------------------------------------------------------- *)
(** ** The branches of one scheduler iteration *)

Lemma updateStepper_idle now rd i s :
  active s = false \/ paused s = true -> updateStepper now rd i s = (s, []).
Proof.
  intros H. unfold updateStepper.
  destruct H as [H | H]; rewrite H; [reflexivity | rewrite orb_true_r; reflexivity].
Qed.

Lemma checkLimitSwitches_hit rd i s :
  readLimitSwitch rd (guardPin s) = true ->
  checkLimitSwitches rd i (Z.b2z (direction s)) s =
  (s <| active_ ::= false |>, disableDriver s ++ sendLimitHitEvent i (guardName s) (position s)).
Proof.
  unfold checkLimitSwitches, guardPin, guardName. intros H.
  destruct (direction s); simpl in *; rewrite H; reflexivity.
Qed.

Lemma checkLimitSwitches_clear rd i s :
  readLimitSwitch rd (guardPin s) = false ->
  checkLimitSwitches rd i (Z.b2z (direction s)) s = (s, []).
Proof.
  unfold checkLimitSwitches, guardPin. intros H.
  destruct (direction s); simpl in *; rewrite H; reflexivity.
Qed.

Lemma updateStepper_limit now rd i s :
  active s = true -> paused s = false -> homing s = false ->
  readLimitSwitch rd (guardPin s) = true ->
  updateStepper now rd i s =
  (s <| active_ ::= false |>, disableDriver s ++ sendLimitHitEvent i (guardName s) (position s)).
Proof.
  intros Ha Hp Hh Hl. unfold updateStepper. rewrite Ha, Hp, Hh. simpl.
  rewrite (checkLimitSwitches_hit rd i s Hl). simpl. rewrite Hh. reflexivity.
Qed.

Lemma updateStepper_wait now rd i s :
  active s = true -> paused s = false ->
  homing s = true \/ readLimitSwitch rd (guardPin s) = false ->
  stepDue now s = false ->
  updateStepper now rd i s = (s, []).
Proof.
  intros Ha Hp Hl Hd. unfold updateStepper. rewrite Ha, Hp. simpl.
  destruct (homing s) eqn:Hh; simpl.
  - rewrite Hh, Hd. reflexivity.
  - destruct Hl as [Hl | Hl]; [discriminate|].
    rewrite (checkLimitSwitches_clear rd i s Hl). rewrite Hh, Ha, Hd. reflexivity.
Qed.

Lemma updateStepper_homed now rd i s :
  active s = true -> paused s = false -> homing s = true ->
  stepDue now s = true -> rd (home s) = LOW ->
  updateStepper now rd i s =
  ((((stepped now s) <| active_ ::= false |>) <| homing_ ::= false |>) <| position_ := 0 |>,
   stepPulse s ++ disableDriver s ++ [Serial (stepper_done i 0)]).
Proof.
  intros Ha Hp Hh Hd Hl. unfold updateStepper.
  repeat (simpl; rewrite ?Ha, ?Hp, ?Hh, ?Hd, ?Hl).
  unfold disableDriver, sendStepperDone. reflexivity.
Qed.

Lemma updateStepper_homing_step now rd i s :
  active s = true -> paused s = false -> homing s = true ->
  stepDue now s = true -> rd (home s) = HIGH ->
  updateStepper now rd i s = (stepped now s, stepPulse s).
Proof.
  intros Ha Hp Hh Hd Hl. unfold updateStepper.
  repeat (simpl; rewrite ?Ha, ?Hp, ?Hh, ?Hd, ?Hl).
  rewrite andb_false_r. simpl. rewrite Hh. reflexivity.
Qed.

Lemma profileStep_fixed i s :
  let s' := profileStep i s in
  position s' = position s /\ target s' = target s /\ active s' = active s /\
  paused s' = paused s /\ homing s' = homing s /\ direction s' = direction s /\
  useAcceleration s' = useAcceleration s /\ speed s' = speed s /\
  totalSteps s' = totalSteps s /\ accelSteps s' = accelSteps s /\
  decelSteps s' = decelSteps s /\ maxDelay s' = maxDelay s /\ minDelay s' = minDelay s /\
  enableConfigured s' = enableConfigured s /\ enablePin s' = enablePin s /\
  stepPin s' = stepPin s /\ limitA s' = limitA s /\ limitB s' = limitB s /\
  home s' = home s /\ lastStepTime s' = lastStepTime s /\
  acceleration s' = acceleration s /\ deceleration s' = deceleration s /\
  stepsTaken s' = iadd (stepsTaken s) 1.
Proof.
  unfold profileStep. cbv zeta. simpl.
  repeat match goal with |- context [if ?b then _ else _] => destruct b end;
  simpl; repeat split; reflexivity.
Qed.

Lemma advanced_fixed now i s :
  let s' := advanced now i s in
  homing s' = homing s /\ active s' = active s /\ paused s' = paused s /\
  direction s' = direction s /\ target s' = target s /\
  useAcceleration s' = useAcceleration s /\ speed s' = speed s /\
  enableConfigured s' = enableConfigured s /\ enablePin s' = enablePin s /\
  stepPin s' = stepPin s /\ limitA s' = limitA s /\ limitB s' = limitB s /\
  home s' = home s /\ lastStepTime s' = now /\
  position s' = iadd (position s) (if direction s then 1 else -1).
Proof.
  unfold advanced. destruct (useAcceleration s) eqn:Hu.
  - pose proof (profileStep_fixed i (stepped now s)) as H. cbv zeta in *. simpl in H.
    intuition congruence.
  - simpl. rewrite Hu. repeat split; reflexivity.
Qed.

Lemma disableDriver_advanced now i s : disableDriver (advanced now i s) = disableDriver s.
Proof.
  destruct (advanced_fixed now i s) as (_ & _ & _ & _ & _ & _ & _ & E1 & E2 & _).
  unfold disableDriver. rewrite E1, E2. reflexivity.
Qed.

Lemma updateStepper_move now rd i s :
  active s = true -> paused s = false -> homing s = false ->
  readLimitSwitch rd (guardPin s) = false -> stepDue now s = true ->
  updateStepper now rd i s =
  let s2 := advanced now i s in
  if position s2 =? target s2 then
    (s2 <| active_ ::= false |>,
     stepPulse s ++ disableDriver s ++ [Serial (stepper_done i (position s2))])
  else (s2, stepPulse s).
Proof.
  intros Ha Hp Hh Hl Hd. unfold updateStepper. rewrite Ha, Hp, Hh. simpl.
  rewrite (checkLimitSwitches_clear rd i s Hl). rewrite Hh, Ha, Hd. simpl.
  rewrite andb_true_r. fold (stepped now s). fold (advanced now i s).
  destruct (advanced_fixed now i s) as (E1 & _).
  rewrite E1, Hh. simpl.
  destruct (_ =? _); [|reflexivity].
  unfold sendStepperDone.
  change (disableDriver ((advanced now i s) <| active_ ::= false |>))
    with (disableDriver (advanced now i s)).
  rewrite disableDriver_advanced. reflexivity.
Qed.

Lemma Branch_total now rd s : Branch now rd s.
Proof.
  destruct (active s) eqn:Ha; [|apply br_idle; left; assumption].
  destruct (paused s) eqn:Hp; [apply br_idle; right; assumption|].
  destruct (homing s) eqn:Hh.
  - destruct (stepDue now s) eqn:Hd.
    + destruct (rd (home s)) eqn:Hl; [apply br_homed | apply br_homing_step]; assumption.
    + apply br_wait; auto.
  - destruct (readLimitSwitch rd (guardPin s)) eqn:Hl; [apply br_limit; assumption|].
    destruct (stepDue now s) eqn:Hd; [apply br_move | apply br_wait]; auto.
Qed.

Lemma events_of_app id o1 o2 : events_of id (o1 ++ o2) = events_of id o1 ++ events_of id o2.
Proof.
  induction o1 as [|x o1 IH]; simpl; [reflexivity|].
  destruct x as [p v | p m | m]; try exact IH.
  destruct (event_axis m) as [j|]; [|exact IH].
  destruct (j =? id); [simpl; rewrite IH; reflexivity | exact IH].
Qed.

Lemma events_of_disableDriver id s : events_of id (disableDriver s) = [].
Proof. unfold disableDriver. destruct (enableConfigured s); reflexivity. Qed.

Lemma events_of_stepPulse id s : events_of id (stepPulse s) = [].
Proof. reflexivity. Qed.

(** Every event an axis emits carries the axis's own id. *)
Lemma updateStepper_events_other now rd i j s :
  i <> j -> events_of j (updateStepper now rd i s).2 = [].
Proof.
  intros Hij. assert (E : (i =? j) = false) by (apply Z.eqb_neq; exact Hij).
  destruct (Branch_total now rd s).
  - rewrite updateStepper_idle by assumption. reflexivity.
  - rewrite updateStepper_limit by assumption. simpl.
    rewrite events_of_app, events_of_disableDriver. simpl. rewrite E. reflexivity.
  - rewrite updateStepper_wait by assumption. reflexivity.
  - rewrite updateStepper_homed by assumption. simpl.
    rewrite events_of_app, events_of_disableDriver. simpl. rewrite E. reflexivity.
  - rewrite updateStepper_homing_step by assumption. reflexivity.
  - rewrite updateStepper_move by assumption. cbv zeta.
    destruct (position _ =? target _); [|reflexivity]. simpl.
    rewrite events_of_app, events_of_disableDriver. simpl. rewrite E. reflexivity.
Qed.

Lemma Steppers_two (st : Steppers) :
  length st = Z.to_nat MAX_STEPPERS -> exists s0 s1, st = [s0; s1].
Proof.
  destruct st as [|s0 [|s1 [|s2 st]]]; simpl; intros H; try discriminate.
  exists s0, s1. reflexivity.
Qed.

Lemma updateSteppers_two now rd s0 s1 :
  updateSteppers now rd [s0; s1] =
  ([(updateStepper now rd 0 s0).1; (updateStepper now rd 1 s1).1],
   (updateStepper now rd 0 s0).2 ++ (updateStepper now rd 1 s1).2).
Proof. reflexivity. Qed.

Lemma updateSteppers_length now rd st :
  length st = Z.to_nat MAX_STEPPERS ->
  length (updateSteppers now rd st).1 = Z.to_nat MAX_STEPPERS.
Proof.
  intros H. destruct (Steppers_two st H) as (s0 & s1 & ->).
  rewrite updateSteppers_two. reflexivity.
Qed.

(** A tick does to [steppers[i]] what the loop body does to it, and the
    events about axis [i] are those of that iteration. *)
Lemma updateSteppers_axis now rd (st : Steppers) (i : nat) s :
  length st = Z.to_nat MAX_STEPPERS -> st !! i = Some s ->
  (updateSteppers now rd st).1 !! i = Some (updateStepper now rd (Z.of_nat i) s).1 /\
  events_of (Z.of_nat i) (updateSteppers now rd st).2 =
    events_of (Z.of_nat i) (updateStepper now rd (Z.of_nat i) s).2 /\
  (forall o, In o (updateStepper now rd (Z.of_nat i) s).2 -> In o (updateSteppers now rd st).2).
Proof.
  intros H Hi. destruct (Steppers_two st H) as (s0 & s1 & ->).
  rewrite updateSteppers_two.
  destruct i as [|[|i]]; simpl in Hi; inversion Hi; subst; clear Hi; simpl.
  - split; [reflexivity|]. split.
    + rewrite events_of_app, (updateStepper_events_other now rd 1 0) by lia.
      rewrite app_nil_r. reflexivity.
    + intros o Ho. apply in_or_app. left. exact Ho.
  - split; [reflexivity|]. split.
    + rewrite events_of_app, (updateStepper_events_other now rd 0 1) by lia. reflexivity.
    + intros o Ho. apply in_or_app. right. exact Ho.
Qed.

Lemma run_length ticks st :
  length st = Z.to_nat MAX_STEPPERS -> length (run ticks st).1 = Z.to_nat MAX_STEPPERS.
Proof.
  revert st. induction ticks as [|t ticks IH]; intros st H; simpl; [exact H|].
  apply IH. apply updateSteppers_length. exact H.
Qed.

(** The same for a sequence of ticks. *)
Lemma run_axis ticks (st : Steppers) (i : nat) s :
  length st = Z.to_nat MAX_STEPPERS -> st !! i = Some s ->
  (run ticks st).1 !! i = Some (runStepper (Z.of_nat i) ticks s).1 /\
  events_of (Z.of_nat i) (run ticks st).2 =
    events_of (Z.of_nat i) (runStepper (Z.of_nat i) ticks s).2.
Proof.
  revert st s. induction ticks as [|t ticks IH]; intros st s H Hi; simpl.
  - split; [exact Hi | reflexivity].
  - destruct (updateSteppers_axis (tick_now t) (tick_pins t) st i s H Hi) as (E1 & E2 & _).
    destruct (IH _ _ (updateSteppers_length _ _ st H) E1) as (E3 & E4).
    split; [exact E3|]. rewrite !events_of_app, E2, E4. reflexivity.
Qed.

Lemma history_last i ticks s :
  last (s :: history i ticks s) = Some (runStepper i ticks s).1.
Proof.
  revert s. induction ticks as [|t ticks IH]; intros s; [reflexivity|].
  simpl history. simpl runStepper. rewrite last_cons_cons. apply IH.
Qed.

(* ------------------------------------------------------------------------- *)
(** ** Limit interlock *)

(** C1.  An axis that is active, not paused and not homing, and whose limit
    switch for the current travel direction (limit A when the direction is
    forward, limit B when backward) reads triggered at a scheduler tick, is
    inactive after that tick and otherwise unchanged (same position, no step
    pulse); the enable line is written [HIGH] if one is configured, and the
    tick emits exactly one event about the axis, a limit-hit event with the
    axis id, the limit's name and the position. *)
Theorem C1_limit_interlock now rd (st : Steppers) (i : nat) s :
  length st = Z.to_nat MAX_STEPPERS -> st !! i = Some s ->
  active s = true -> paused s = false -> homing s = false ->
  readLimitSwitch rd (guardPin s) = true ->
  let r := updateSteppers now rd st in
  r.1 !! i = Some (s <| active_ ::= false |>) /\
  events_of (Z.of_nat i) r.2 = [limit_hit (Z.of_nat i) (guardName s) (position s)] /\
  (enableConfigured s = true -> In (digitalWrite (enablePin s) HIGH) r.2) /\
  updateStepper now rd (Z.of_nat i) s =
    (s <| active_ ::= false |>,
     disableDriver s ++ [Serial (limit_hit (Z.of_nat i) (guardName s) (position s))]).
Proof.
  intros Hlen Hi Ha Hp Hh Hl r.
  destruct (updateSteppers_axis now rd st i s Hlen Hi) as (E1 & E2 & E3).
  pose proof (updateStepper_limit now rd (Z.of_nat i) s Ha Hp Hh Hl) as E.
  unfold sendLimitHitEvent in E. rewrite E in E1, E2, E3. simpl in E1, E2, E3.
  split; [exact E1|]. split.
  - subst r. rewrite E2, events_of_app, events_of_disableDriver. simpl.
    rewrite Z.eqb_refl. reflexivity.
  - split; [|exact E].
    intros He. apply E3. apply in_or_app. left.
    unfold disableDriver. rewrite He. left. reflexivity.
Qed.

Lemma C1_limit_interlock_witness :
  let st := [initial_stepper; moving_forward] in
  let r := updateSteppers 5000 (fun _ => LOW) st in
  r.1 !! 1%nat = Some (moving_forward <| active_ ::= false |>) /\
  events_of 1 r.2 = [limit_hit 1 "limit_a" 0].
Proof.
  pose proof (C1_limit_interlock 5000 (fun _ => LOW) [initial_stepper; moving_forward] 1
                moving_forward eq_refl eq_refl eq_refl eq_refl eq_refl eq_refl) as H.
  split; [exact (proj1 H) | exact (proj1 (proj2 H))].
Defined.

(* ------------------------------------------------------------------------- *)
(** ** Homing *)

Lemma homeStepper_Homing now sp r0 :
  Homing (match sp with Some v => v | None => 1000 end) r0 (homeStepper now sp r0).1.
Proof.
  unfold Homing, homeStepper, effectiveDelay. simpl.
  destruct (useAcceleration r0); repeat split; reflexivity.
Qed.

Lemma Homing_step v r0 now rd i s :
  Homing v r0 s ->
  let s' := (updateStepper now rd i s).1 in Homing v r0 s' \/ Homed s'.
Proof.
  intros (Hh & Ha & Hp & Hs & Hc & He & H1 & H2 & H3 & H4 & H5).
  destruct (stepDue now s) eqn:Hd.
  - destruct (rd (home s)) eqn:Hl.
    + rewrite updateStepper_homed by assumption. right. repeat split; reflexivity.
    + rewrite updateStepper_homing_step by assumption. left.
      unfold Homing, stepped, effectiveDelay in *. simpl.
      rewrite Hh, Ha, Hp, Hs, Hc, H1, H2, H3, H4, H5.
      destruct (useAcceleration s); repeat split; reflexivity.
  - rewrite updateStepper_wait by auto. left.
    unfold Homing. repeat split; assumption.
Qed.

Lemma Homed_step now rd i s :
  Homed s -> (updateStepper now rd i s).1 = s.
Proof.
  intros (_ & Ha & _). rewrite updateStepper_idle by (left; exact Ha). reflexivity.
Qed.

Lemma Homing_history v r0 i ticks s :
  Homing v r0 s \/ Homed s ->
  Forall (fun s' => Homing v r0 s' \/ Homed s') (s :: history i ticks s).
Proof.
  revert s. induction ticks as [|t ticks IH]; intros s H.
  - constructor; [exact H | constructor].
  - constructor; [exact H|]. simpl history. apply IH.
    destruct H as [H | H].
    + apply Homing_step. exact H.
    + rewrite Homed_step by exact H. right. exact H.
Qed.

(** C2 does not hold as stated: the home switch is sampled only in a tick
    in which a step of the axis is due.
    [seeking_home] has been homing since time 0 with a delay of 1000.  At
    time 500 its home switch reads triggered, but no step is due, so the
    scheduler does not sample the switch: the axis is left as it is, still
    homing and active at position 77, and nothing is printed.  When the
    switch has been released by the time of the next due step (time 1000),
    the axis steps on to position 76 and goes on homing: the trigger is
    never acted on. *)
Lemma C2_counterexample :
  let triggered := fun _ : Z => LOW in
  let released := fun _ : Z => HIGH in
  homing seeking_home = true /\ active seeking_home = true /\
  position seeking_home = 77 /\ stepDue 500 seeking_home = false /\
  triggered (home seeking_home) = LOW /\
  let r := updateSteppers 500 triggered [seeking_home; initial_stepper] in
  r.1 = [seeking_home; initial_stepper] /\ r.2 = [] /\
  let r' := updateSteppers 1000 released r.1 in
  exists s', r'.1 !! 0%nat = Some s' /\
    homing s' = true /\ active s' = true /\ position s' = 76 /\
    events_of 0 r'.2 = [].
Proof.
  cbv zeta. repeat split.
  eexists. repeat split.
Qed.

(** C2 (amended).  At a tick in which a step of a homing axis is due and its
    home switch reads triggered, whatever the position and direction, the
    position becomes 0, [homing] and [active] become false, the enable line
    is written [HIGH] if configured and one move-complete event is emitted;
    from a home command on, at every tick until then, the axis is homing at
    the constant delay [speed] set by the command, the profile fields
    (phase, step counts) being untouched; and a tick in which no step is due
    leaves the homing axis as it is, whatever the switch reads. *)
Theorem C2_homing now rd (st : Steppers) (i : nat) s :
  length st = Z.to_nat MAX_STEPPERS -> st !! i = Some s ->
  active s = true -> paused s = false -> homing s = true ->
  stepDue now s = true -> rd (home s) = LOW ->
  (let r := updateSteppers now rd st in
   exists s', r.1 !! i = Some s' /\
     position s' = 0 /\ homing s' = false /\ active s' = false /\
     events_of (Z.of_nat i) r.2 = [stepper_done (Z.of_nat i) 0] /\
     (enableConfigured s = true -> In (digitalWrite (enablePin s) HIGH) r.2)) /\
  (forall now0 sp r0 ticks,
     let s0 := (homeStepper now0 sp r0).1 in
     let v := match sp with Some v => v | None => 1000 end in
     Forall (fun s' => Homing v r0 s' \/ Homed s') (s0 :: history (Z.of_nat i) ticks s0)) /\
  (forall now' rd', stepDue now' s = false ->
     updateStepper now' rd' (Z.of_nat i) s = (s, [])).
Proof.
  intros Hlen Hi Ha Hp Hh Hd Hl. refine (conj _ (conj _ _)).
  - intros r.
    destruct (updateSteppers_axis now rd st i s Hlen Hi) as (E1 & E2 & E3).
    pose proof (updateStepper_homed now rd (Z.of_nat i) s Ha Hp Hh Hd Hl) as E.
    rewrite E in E1, E2, E3. simpl in E1, E2, E3.
    eexists. split; [exact E1|]. repeat split.
    + subst r. rewrite E2.
      change (digitalWrite (stepPin s) HIGH :: digitalWrite (stepPin s) LOW
                :: disableDriver s ++ [Serial (stepper_done (Z.of_nat i) 0)])
        with (stepPulse s ++ disableDriver s ++ [Serial (stepper_done (Z.of_nat i) 0)]).
      rewrite !events_of_app, events_of_disableDriver. simpl.
      rewrite Z.eqb_refl. reflexivity.
    + intros He. apply E3. right. right. apply in_or_app. left.
      unfold disableDriver. rewrite He. left. reflexivity.
  - intros now0 sp r0 ticks s0 v. apply Homing_history. left. apply homeStepper_Homing.
  - intros now' rd' Hw. apply updateStepper_wait; auto.
Qed.

Lemma C2_homing_witness :
  let r := updateSteppers 1000 (fun _ => LOW) [seeking_home; initial_stepper] in
  exists s', r.1 !! 0%nat = Some s' /\
    position s' = 0 /\ homing s' = false /\ active s' = false /\
    events_of 0 r.2 = [stepper_done 0 0] /\
    (enableConfigured seeking_home = true -> In (digitalWrite (enablePin seeking_home) HIGH) r.2).
Proof.
  exact (proj1 (C2_homing 1000 (fun _ => LOW) [seeking_home; initial_stepper] 0 seeking_home
                  eq_refl eq_refl eq_refl eq_refl eq_refl eq_refl eq_refl)).
Defined.

(* ------------------------------------------------------------------------- *)
(** ** Position and step count per pulse *)

(** C9 does not hold as stated: a pulse of a constant-speed move changes
    [position] and leaves [stepsTaken] alone, and the pulse on which a
    homing axis finds its home switch takes [position] from 7 to 0. *)
Lemma C9_counterexample :
  let rd := fun _ : Z => LOW in
  let s := (moveStepper 0 0 5 0 1000 (initial_stepper <| position_ := 7 |>)).1 in
  let h := (homeStepper 0 None (initial_stepper <| position_ := 7 |>)).1 in
  let r := updateStepper 1000 (fun _ => HIGH) 0 s in
  let q := updateStepper 1000 rd 0 h in
  (r.2 = stepPulse s /\ position r.1 = 6 /\ stepsTaken r.1 = stepsTaken s) /\
  (q.2 = stepPulse h ++ [Serial (stepper_done 0 0)] /\ position h = 7 /\ position q.1 = 0).
Proof. vm_compute. repeat split; reflexivity. Qed.

(** C9 (amended).  In a scheduler iteration the position of an axis changes
    only when a step pulse is emitted for it, at most one per tick: it then
    moves by one step in the current direction, except on the pulse at which
    a homing axis reads its home switch triggered, where it becomes 0.  On
    the same pulse [stepsTaken] is incremented when [useAcceleration] is set
    and the axis is not homing, and is unchanged otherwise. *)
Theorem C9_position_per_pulse now rd (i : Z) s :
  let r := updateStepper now rd i s in
  if stepsNow now rd s then
    (exists tail, r.2 = stepPulse s ++ tail /\
       (tail = [] \/ tail = disableDriver s ++ [Serial (stepper_done i (position r.1))])) /\
    position r.1 =
      (if homing s && Level_eqb (rd (home s)) LOW then 0
       else iadd (position s) (if direction s then 1 else -1)) /\
    stepsTaken r.1 =
      (if useAcceleration s && negb (homing s) then iadd (stepsTaken s) 1 else stepsTaken s)
  else
    (r.2 = [] \/ r.2 = disableDriver s ++ sendLimitHitEvent i (guardName s) (position s)) /\
    position r.1 = position s /\ stepsTaken r.1 = stepsTaken s.
Proof.
  intros r. subst r. unfold stepsNow.
  destruct (Branch_total now rd s) as [H | Ha Hp Hh Hl | Ha Hp Hl Hd | Ha Hp Hh Hd Hl
                                      | Ha Hp Hh Hd Hl | Ha Hp Hh Hl Hd].
  - rewrite updateStepper_idle by exact H.
    destruct H as [H | H]; rewrite H; simpl; rewrite ?andb_false_r; simpl; auto.
  - rewrite updateStepper_limit by assumption. rewrite Ha, Hp, Hh, Hl. simpl. auto.
  - rewrite updateStepper_wait by assumption. rewrite Hd, andb_false_r. simpl. auto.
  - rewrite updateStepper_homed by assumption. rewrite Ha, Hp, Hh, Hd, Hl. simpl.
    rewrite andb_false_r. split; [|split; reflexivity].
    eexists. split; [reflexivity|]. right. reflexivity.
  - rewrite updateStepper_homing_step by assumption. rewrite Ha, Hp, Hh, Hd, Hl. simpl.
    rewrite andb_false_r. split; [|split; reflexivity].
    exists []. split; [reflexivity | left; reflexivity].
  - rewrite updateStepper_move by assumption. rewrite Ha, Hp, Hh, Hd, Hl. simpl.
    rewrite andb_true_r.
    assert (Hst : stepsTaken (advanced now i s) =
                  (if useAcceleration s then iadd (stepsTaken s) 1 else stepsTaken s)).
    { unfold advanced. destruct (useAcceleration s); [|reflexivity].
      pose proof (profileStep_fixed i (stepped now s)) as F. cbv zeta in F. simpl in F.
      intuition congruence. }
    destruct (advanced_fixed now i s) as (_ & _ & _ & _ & _ & _ & _ & _ & _ & _ & _ & _ & _ & _ & Epos).
    destruct (position (advanced now i s) =? target (advanced now i s)); simpl.
    + split; [|split; [exact Epos | exact Hst]].
      eexists. split; [reflexivity|]. right. reflexivity.
    + split; [|split; [exact Epos | exact Hst]].
      exists []. split; [reflexivity | left; reflexivity].
Qed.

(* ------------------------------------------------------------------------- *)
(** ** Commands *)

Lemma validId_range id : validId id = true <-> 0 <= id < MAX_STEPPERS.
Proof. unfold validId. rewrite andb_true_iff, Z.leb_le, Z.ltb_lt. tauto. Qed.

Lemma onStepper_valid id (st : Steppers) f s :
  validId id = true -> st !! Z.to_nat id = Some s ->
  onStepper id st f = Done (<[Z.to_nat id := (f s).1]> st) (f s).2.
Proof.
  intros Hv Hs. unfold onStepper. fold (validId id). rewrite Hv, Hs. reflexivity.
Qed.

Lemma onStepper_invalid id (st : Steppers) f :
  validId id = false -> onStepper id st f = OutOfBounds id.
Proof. intros Hv. unfold onStepper. fold (validId id). rewrite Hv. reflexivity. Qed.

Lemma insert_lookup_valid id (st : Steppers) s s' :
  st !! Z.to_nat id = Some s -> <[Z.to_nat id := s']> st !! Z.to_nat id = Some s'.
Proof.
  intros H. apply list_lookup_insert_eq. apply lookup_lt_Some in H. exact H.
Qed.

(** What the commands do with an id outside the array: the commands that
    validate report the error and change nothing; [move_stepper] tests only
    the upper bound and reports nothing; [home_stepper] and [init_stepper]
    do not test at all. *)
Lemma handleCommand_invalid_id now rd st id :
  validId id = false ->
  (forall v, handleCommand now rd (set_stepper_acceleration id v) st = Done st invalid_stepper_id) /\
  (forall v, handleCommand now rd (set_stepper_deceleration id v) st = Done st invalid_stepper_id) /\
  (forall lo hi,
     handleCommand now rd (set_stepper_speed_limits id lo hi) st = Done st invalid_stepper_id) /\
  handleCommand now rd (get_pin_states id) st = Done st invalid_stepper_id /\
  handleCommand now rd (get_status (Some id)) st = Done st invalid_stepper_id /\
  (forall steps dir v,
     handleCommand now rd (move_stepper id steps dir v) st =
     if id <? 0 then OutOfBounds id else Done st []) /\
  (forall sp, handleCommand now rd (home_stepper id sp) st = OutOfBounds id) /\
  (forall a b c d e f g h,
     handleCommand now rd (init_stepper id a b c d e f g h) st = OutOfBounds id).
Proof.
  intros Hv. simpl. rewrite Hv. repeat split; try reflexivity; intros.
  - destruct (id <? 0) eqn:Hn.
    + assert ((id <? MAX_STEPPERS) = true) as -> by (unfold MAX_STEPPERS; lia).
      apply onStepper_invalid. exact Hv.
    + assert ((id <? MAX_STEPPERS) = false) as ->; [|reflexivity].
      unfold validId in Hv. apply andb_false_iff in Hv. destruct Hv as [Hv | Hv]; lia.
  - apply onStepper_invalid. exact Hv.
  - apply onStepper_invalid. exact Hv.
Qed.

(** C3 is not met by the code.  With id 2 (= MAX_STEPPERS) a move command
    returns without reporting an invalid id; with id -1 it passes the test
    [id < MAX_STEPPERS] and writes outside the array; [home_stepper] and
    [init_stepper] index the array with any id.  The set and query commands
    reject the same id with [invalid_stepper_id] and leave the array as it
    is. *)
Lemma C3_invalid_id_divergence :
  let rd := fun _ : Z => HIGH in
  handleCommand 0 rd (move_stepper 2 100 1 500) setup_steppers = Done setup_steppers [] /\
  handleCommand 0 rd (move_stepper (-1) 100 1 500) setup_steppers = OutOfBounds (-1) /\
  handleCommand 0 rd (home_stepper 2 None) setup_steppers = OutOfBounds 2 /\
  handleCommand 0 rd (init_stepper 2 25 26 32 33 34 0 1000 None) setup_steppers
    = OutOfBounds 2 /\
  handleCommand 0 rd (set_stepper_acceleration 2 500) setup_steppers
    = Done setup_steppers [Serial (status_error "invalid_stepper_id")] /\
  handleCommand 0 rd (get_pin_states (-1)) setup_steppers
    = Done setup_steppers [Serial (status_error "invalid_stepper_id")].
Proof. repeat split; reflexivity. Qed.

(** Only the low eight bits of [dir] reach the direction pin. *)
Example level_of_int_samples :
  level_of_int 0 = LOW /\ level_of_int 1 = HIGH /\ level_of_int 2 = HIGH /\
  level_of_int 255 = HIGH /\ level_of_int 256 = LOW /\ level_of_int (-1) = HIGH.
Proof. repeat split; reflexivity. Qed.

Lemma moveStepper_constant now id steps dir v s :
  useAcceleration s = false ->
  moveStepper now id steps dir v s =
  ((((((((s <| target_ := iadd (position s) (if dir =? 1 then steps else ineg steps) |>)
           <| speed_ := v |>) <| direction_ ::= negb (dir =? 0) |>) <| homing_ ::= false |>)
        <| active_ ::= true |>) <| paused_ ::= false |>) <| currentDelay_ := v |>)
     <| lastStepTime_ := now |>,
   digitalWrite (dirPin s) (level_of_int dir)
     :: (if enableConfigured s then [digitalWrite (enablePin s) LOW] else [])).
Proof.
  intros Hu. unfold moveStepper. cbn [useAcceleration setZ setB]. rewrite Hu.
  cbn [andb fst snd enableConfigured enablePin dirPin setZ setB]. rewrite app_nil_r. reflexivity.
Qed.

Lemma handleCommand_set_acceleration now rd (st : Steppers) id s v :
  validId id = true -> st !! Z.to_nat id = Some s ->
  handleCommand now rd (set_stepper_acceleration id v) st
  = Done (<[Z.to_nat id := setAcceleration v s]> st) [Serial (status_ok "acceleration_set")].
Proof.
  intros Hv Hs. unfold handleCommand. rewrite Hv.
  rewrite (onStepper_valid id st _ s Hv Hs). reflexivity.
Qed.

Lemma handleCommand_set_deceleration now rd (st : Steppers) id s v :
  validId id = true -> st !! Z.to_nat id = Some s ->
  handleCommand now rd (set_stepper_deceleration id v) st
  = Done (<[Z.to_nat id := setDeceleration v s]> st) [Serial (status_ok "deceleration_set")].
Proof.
  intros Hv Hs. unfold handleCommand. rewrite Hv.
  rewrite (onStepper_valid id st _ s Hv Hs). reflexivity.
Qed.

Lemma handleCommand_move now rd (st : Steppers) id s steps dir v :
  validId id = true -> st !! Z.to_nat id = Some s ->
  handleCommand now rd (move_stepper id steps dir v) st
  = Done (<[Z.to_nat id := (moveStepper now id steps dir v s).1]> st)
         (moveStepper now id steps dir v s).2.
Proof.
  intros Hv Hs. unfold handleCommand.
  assert (Hlt : (id <? MAX_STEPPERS) = true) by (apply validId_range in Hv; lia).
  rewrite Hlt. apply onStepper_valid; assumption.
Qed.

Lemma handleCommand_home now rd (st : Steppers) id s sp :
  validId id = true -> st !! Z.to_nat id = Some s ->
  handleCommand now rd (home_stepper id sp) st
  = Done (<[Z.to_nat id := (homeStepper now sp s).1]> st) (homeStepper now sp s).2.
Proof. intros Hv Hs. unfold handleCommand. apply onStepper_valid; assumption. Qed.

(** C8.  After a set-acceleration or set-deceleration command on a valid
    axis, [useAcceleration] is [acceleration > 0 || deceleration > 0].
    After both are set to 0, [useAcceleration] is false and a move command
    takes the constant-speed branch: the axis becomes active with
    [currentDelay] and the scheduler's delay equal to the commanded speed,
    the profile fields are not touched and no profile is printed; the
    command writes the direction pin with the low eight bits of [dir]
    ([level_of_int]) and enables the driver if an enable pin is configured. *)
Theorem C8_useAcceleration now rd (st : Steppers) (id : Z) s :
  validId id = true -> st !! Z.to_nat id = Some s ->
  (forall v, exists s',
     handleCommand now rd (set_stepper_acceleration id v) st
       = Done (<[Z.to_nat id := s']> st) [Serial (status_ok "acceleration_set")] /\
     acceleration s' = v /\ deceleration s' = deceleration s /\
     useAcceleration s' = ((0 <? acceleration s') || (0 <? deceleration s'))) /\
  (forall v, exists s',
     handleCommand now rd (set_stepper_deceleration id v) st
       = Done (<[Z.to_nat id := s']> st) [Serial (status_ok "deceleration_set")] /\
     deceleration s' = v /\ acceleration s' = acceleration s /\
     useAcceleration s' = ((0 <? acceleration s') || (0 <? deceleration s'))) /\
  (forall steps dir v, exists st1 o1 st2 o2 st3 s3,
     handleCommand now rd (set_stepper_acceleration id 0) st = Done st1 o1 /\
     handleCommand now rd (set_stepper_deceleration id 0) st1 = Done st2 o2 /\
     handleCommand now rd (move_stepper id steps dir v) st2
       = Done st3 (digitalWrite (dirPin s) (level_of_int dir)
                     :: (if enableConfigured s then [digitalWrite (enablePin s) LOW] else [])) /\
     st3 !! Z.to_nat id = Some s3 /\
     useAcceleration s3 = false /\ active s3 = true /\ paused s3 = false /\
     homing s3 = false /\ speed s3 = v /\ currentDelay s3 = v /\ effectiveDelay s3 = v /\
     sameProfile s s3).
Proof.
  intros Hv Hs. split; [|split].
  - intros v. exists (setAcceleration v s).
    split; [apply handleCommand_set_acceleration; assumption|].
    repeat split; reflexivity.
  - intros v. exists (setDeceleration v s).
    split; [apply handleCommand_set_deceleration; assumption|].
    repeat split; reflexivity.
  - intros steps dir v.
    pose proof (insert_lookup_valid id st s (setAcceleration 0 s) Hs) as Hs1.
    pose proof (insert_lookup_valid id _ _ (setDeceleration 0 (setAcceleration 0 s)) Hs1) as Hs2.
    set (s2 := setDeceleration 0 (setAcceleration 0 s)) in *.
    assert (Hu : useAcceleration s2 = false) by reflexivity.
    pose proof (moveStepper_constant now id steps dir v s2 Hu) as Hm.
    exists (<[Z.to_nat id := setAcceleration 0 s]> st), [Serial (status_ok "acceleration_set")].
    exists (<[Z.to_nat id := s2]> (<[Z.to_nat id := setAcceleration 0 s]> st)).
    exists [Serial (status_ok "deceleration_set")].
    exists (<[Z.to_nat id := (moveStepper now id steps dir v s2).1]>
              (<[Z.to_nat id := s2]> (<[Z.to_nat id := setAcceleration 0 s]> st))).
    exists (moveStepper now id steps dir v s2).1.
    split; [apply handleCommand_set_acceleration; assumption|].
    split; [apply handleCommand_set_deceleration; assumption|].
    split.
    { rewrite (handleCommand_move now rd _ id s2 steps dir v Hv Hs2).
      rewrite Hm. reflexivity. }
    split; [apply (insert_lookup_valid id _ _ _ Hs2)|].
    rewrite Hm. unfold sameProfile, effectiveDelay. cbn.
    repeat split; reflexivity.
Qed.

Lemma C8_useAcceleration_witness :
  let st := [setDeceleration 300 (setAcceleration 500 initial_stepper); initial_stepper] in
  exists st1 o1 st2 o2 st3 s3,
    handleCommand 0 (fun _ => HIGH) (set_stepper_acceleration 0 0) st = Done st1 o1 /\
    handleCommand 0 (fun _ => HIGH) (set_stepper_deceleration 0 0) st1 = Done st2 o2 /\
    handleCommand 0 (fun _ => HIGH) (move_stepper 0 100 1 800) st2
      = Done st3 [digitalWrite 0 HIGH] /\
    st3 !! 0%nat = Some s3 /\
    useAcceleration s3 = false /\ active s3 = true /\ paused s3 = false /\
    homing s3 = false /\ speed s3 = 800 /\ currentDelay s3 = 800 /\ effectiveDelay s3 = 800 /\
    sameProfile (setDeceleration 300 (setAcceleration 500 initial_stepper)) s3.
Proof.
  exact (proj2 (proj2 (C8_useAcceleration 0 (fun _ => HIGH)
    [setDeceleration 300 (setAcceleration 500 initial_stepper); initial_stepper] 0
    (setDeceleration 300 (setAcceleration 500 initial_stepper)) eq_refl eq_refl)) 100 1 800).
Defined.

(* ------------------------------------------------------------------------- *)
(** ** Phase lengths *)

(** Reduce projections of updated records, and nothing else. *)
Ltac fields :=
  cbn [stepPin dirPin enablePin limitA limitB home position minLimit maxLimit target
       active paused direction homing enableConfigured lastStepTime speed acceleration
       deceleration minDelay maxDelay useAcceleration currentDelay totalSteps stepsTaken
       accelSteps decelSteps movePhase setZ setB fst snd] in *.

Lemma idiv_range x c : is_int x -> 1 <= c -> is_int (Z.quot x c) /\ idiv x c = Z.quot x c.
Proof.
  intros Hx Hc.
  assert (H : is_int (Z.quot x c)).
  { unfold is_int, INT_MIN, INT_MAX in *.
    destruct (Z.le_gt_cases 0 x) as [Hp | Hn].
    - pose proof (Z.quot_pos x c Hp ltac:(lia)).
      pose proof (Z.quot_le_upper_bound x c x ltac:(lia) ltac:(nia)). lia.
    - pose proof (Z.quot_opp_l x c ltac:(lia)) as E.
      pose proof (Z.quot_pos (- x) c ltac:(lia) ltac:(lia)).
      pose proof (Z.quot_le_upper_bound (- x) c (- x) ltac:(lia) ltac:(nia)). lia. }
  split; [exact H | apply wrap32_id; exact H].
Qed.

Lemma quot5_bound x : is_int x -> Z.quot x 5 <= 429496729.
Proof.
  unfold is_int, INT_MIN, INT_MAX. intros H.
  destruct (Z.le_gt_cases 0 x) as [Hp | Hn].
  - pose proof (Z.quot_rem x 5 ltac:(lia)) as Q.
    pose proof (Z.rem_bound_pos x 5 Hp ltac:(lia)). lia.
  - pose proof (Z.quot_opp_l x 5 ltac:(lia)) as E.
    pose proof (Z.quot_pos (- x) 5 ltac:(lia) ltac:(lia)). lia.
Qed.

Lemma calculateAccelSteps_range s T : 0 <= calculateAccelSteps s T <= 429496729.
Proof.
  unfold calculateAccelSteps. destruct (acceleration s <=? 0); [lia|].
  pose proof (wrap32_range (T * 2)) as Hw. fold (imul T 2) in Hw.
  destruct (idiv_range (imul T 2) 5 Hw ltac:(lia)) as [_ E]. rewrite E.
  pose proof (quot5_bound _ Hw). lia.
Qed.

Lemma calculateDecelSteps_range s T : 0 <= calculateDecelSteps s T <= 429496729.
Proof.
  unfold calculateDecelSteps. destruct (deceleration s <=? 0); [lia|].
  pose proof (wrap32_range (T * 2)) as Hw. fold (imul T 2) in Hw.
  destruct (idiv_range (imul T 2) 5 Hw ltac:(lia)) as [_ E]. rewrite E.
  pose proof (quot5_bound _ Hw). lia.
Qed.

Lemma calculateAccelSteps_disabled s T : acceleration s <= 0 -> calculateAccelSteps s T = 0.
Proof.
  intros H. unfold calculateAccelSteps.
  destruct (acceleration s <=? 0) eqn:E; [reflexivity | lia].
Qed.

Lemma calculateDecelSteps_disabled s T : deceleration s <= 0 -> calculateDecelSteps s T = 0.
Proof.
  intros H. unfold calculateDecelSteps.
  destruct (deceleration s <=? 0) eqn:E; [reflexivity | lia].
Qed.

Lemma calculateAccelSteps_enabled s T : 0 < acceleration s -> 10 <= calculateAccelSteps s T.
Proof.
  intros H. unfold calculateAccelSteps.
  destruct (acceleration s <=? 0) eqn:E; lia.
Qed.

Lemma calculateDecelSteps_enabled s T : 0 < deceleration s -> 10 <= calculateDecelSteps s T.
Proof.
  intros H. unfold calculateDecelSteps.
  destruct (deceleration s <=? 0) eqn:E; lia.
Qed.

Lemma iabs_spec x : is_int x -> x <> INT_MIN -> iabs x = Z.abs x /\ 0 <= iabs x <= INT_MAX.
Proof.
  unfold is_int, INT_MIN, INT_MAX, iabs, ineg. intros H N.
  destruct (0 <? x) eqn:E.
  - lia.
  - rewrite wrap32_id by (unfold is_int, INT_MIN, INT_MAX; lia). lia.
Qed.

(** The record [startAcceleratedMove] builds, in terms of the unclamped
    phase lengths. *)
Lemma startAcceleratedMove_fields id targetPos moveSpeed s :
  let s' := (startAcceleratedMove id targetPos moveSpeed s).1 in
  let T := iabs (isub targetPos (position s)) in
  let a0 := calculateAccelSteps s T in
  let d0 := calculateDecelSteps s T in
  totalSteps s' = T /\ stepsTaken s' = 0 /\ speed s' = moveSpeed /\
  active s' = true /\ paused s' = false /\
  accelSteps s' = (if T <? a0 + d0 then idiv T 2 else a0) /\
  decelSteps s' = (if T <? a0 + d0 then isub T (idiv T 2) else d0) /\
  movePhase s' = (if 0 <? accelSteps s' then 0 else 1) /\
  currentDelay s' = (if 0 <? accelSteps s' then maxDelay s else moveSpeed) /\
  position s' = position s /\ target s' = target s /\ homing s' = homing s /\
  direction s' = direction s /\ useAcceleration s' = useAcceleration s /\
  maxDelay s' = maxDelay s /\ minDelay s' = minDelay s /\
  acceleration s' = acceleration s /\ deceleration s' = deceleration s.
Proof.
  intros s' T a0 d0. subst s'. unfold startAcceleratedMove. fields.
  change (calculateAccelSteps _ (iabs (isub targetPos (position s)))) with a0.
  change (calculateDecelSteps _ (iabs (isub targetPos (position s)))) with d0.
  fold T.
  assert (E : iadd a0 d0 = a0 + d0).
  { apply wrap32_id. pose proof (calculateAccelSteps_range s T).
    pose proof (calculateDecelSteps_range s T).
    unfold is_int, INT_MIN, INT_MAX. fold a0 d0 in H, H0. lia. }
  rewrite E. clear E. clearbody a0 d0 T.
  destruct (T <? a0 + d0); fields;
    [destruct (0 <? idiv T 2) eqn:E0 | destruct (0 <? a0) eqn:E0]; fields; rewrite ?E0;
    repeat split; reflexivity.
Qed.

Lemma startAcceleratedMove_wiring id targetPos moveSpeed s :
  let s' := (startAcceleratedMove id targetPos moveSpeed s).1 in
  limitA s' = limitA s /\ limitB s' = limitB s /\ home s' = home s /\
  stepPin s' = stepPin s /\ enablePin s' = enablePin s /\
  enableConfigured s' = enableConfigured s /\ lastStepTime s' = lastStepTime s.
Proof.
  unfold startAcceleratedMove. fields.
  repeat match goal with |- context [if ?b then _ else _] => destruct b; fields end;
  repeat split; reflexivity.
Qed.

(** C4 does not hold as stated: with acceleration 0, deceleration 500 and a
    move of 4 steps the unclamped lengths are 0 and 10, the sum exceeds 4,
    and the rescale gives [accelSteps = 2] although acceleration is 0. *)
Lemma C4_counterexample :
  let s := setDeceleration 500 initial_stepper in
  let s' := (startAcceleratedMove 0 4 500 s).1 in
  acceleration s = 0 /\ calculateAccelSteps s 4 = 0 /\ calculateDecelSteps s 4 = 10 /\
  totalSteps s' = 4 /\ accelSteps s' = 2 /\ decelSteps s' = 2.
Proof. vm_compute. repeat split; reflexivity. Qed.

(** The phase lengths after the clamping of [startAcceleratedMove]. *)
Lemma phase_lengths_clamped id targetPos moveSpeed s :
  isub targetPos (position s) <> INT_MIN ->
  let s' := (startAcceleratedMove id targetPos moveSpeed s).1 in
  let T := totalSteps s' in
  let a0 := calculateAccelSteps s T in
  let d0 := calculateDecelSteps s T in
  T = Z.abs (isub targetPos (position s)) /\
  0 <= accelSteps s' /\ 0 <= decelSteps s' /\ accelSteps s' + decelSteps s' <= T /\
  (T < a0 + d0 ->
   accelSteps s' = Z.quot T 2 /\ decelSteps s' = T - Z.quot T 2 /\
   accelSteps s' + decelSteps s' = T /\ accelSteps s' <= decelSteps s' <= accelSteps s' + 1) /\
  (a0 + d0 <= T -> accelSteps s' = a0 /\ decelSteps s' = d0) /\
  (acceleration s <= 0 -> a0 = 0) /\ (deceleration s <= 0 -> d0 = 0).
Proof.
  intros Hd s' T a0 d0.
  destruct (startAcceleratedMove_fields id targetPos moveSpeed s)
    as (ET & _ & _ & _ & _ & Ea & Ed & _).
  fold s' in ET, Ea, Ed. fold T in ET. rewrite <- ET in Ea, Ed. fold a0 d0 in Ea, Ed.
  pose proof (wrap32_range (targetPos - position s)) as Hr. fold (isub targetPos (position s)) in Hr.
  destruct (iabs_spec _ Hr Hd) as [Eabs HT]. rewrite <- ET in Eabs, HT.
  pose proof (calculateAccelSteps_range s T) as Ra. fold a0 in Ra.
  pose proof (calculateDecelSteps_range s T) as Rd. fold d0 in Rd.
  assert (HTi : is_int T) by (unfold is_int, INT_MIN, INT_MAX in *; lia).
  destruct (idiv_range T 2 HTi ltac:(lia)) as [Hq Eq].
  assert (Hq2 : 0 <= Z.quot T 2 /\ 2 * Z.quot T 2 <= T <= 2 * Z.quot T 2 + 1).
  { pose proof (Z.quot_rem T 2 ltac:(lia)) as Q.
    pose proof (Z.rem_bound_pos T 2 ltac:(lia) ltac:(lia)).
    pose proof (Z.quot_pos T 2 ltac:(lia) ltac:(lia)). lia. }
  assert (Es : isub T (Z.quot T 2) = T - Z.quot T 2).
  { apply wrap32_id. unfold is_int, INT_MIN, INT_MAX in *. lia. }
  split; [exact Eabs|].
  destruct (T <? a0 + d0) eqn:Hc.
  - rewrite Eq in Ea, Ed. rewrite Es in Ed. rewrite Ea, Ed.
    repeat split; intros; try lia.
    + apply calculateAccelSteps_disabled; assumption.
    + apply calculateDecelSteps_disabled; assumption.
  - rewrite Ea, Ed. repeat split; intros; try lia.
    + apply calculateAccelSteps_disabled; assumption.
    + apply calculateDecelSteps_disabled; assumption.
Qed.

(** C4 (amended).  After the clamping of [startAcceleratedMove], for a move
    whose distance [|target - position|] is representable,
    [0 <= accelSteps + decelSteps <= totalSteps]; when the unclamped sum
    exceeds [totalSteps] the two are replaced by the halves of [totalSteps]
    (so that their sum is [totalSteps]), whatever the magnitudes are;
    otherwise they are the calculator's values, which are 0 when
    [acceleration <= 0], respectively [deceleration <= 0]. *)
Theorem C4_phase_lengths id targetPos moveSpeed s :
  isub targetPos (position s) <> INT_MIN ->
  let s' := (startAcceleratedMove id targetPos moveSpeed s).1 in
  let T := totalSteps s' in
  let a0 := calculateAccelSteps s T in
  let d0 := calculateDecelSteps s T in
  T = Z.abs (isub targetPos (position s)) /\
  0 <= accelSteps s' /\ 0 <= decelSteps s' /\ accelSteps s' + decelSteps s' <= T /\
  (T < a0 + d0 ->
   accelSteps s' = Z.quot T 2 /\ decelSteps s' = T - Z.quot T 2 /\
   accelSteps s' + decelSteps s' = T /\ accelSteps s' <= decelSteps s' <= accelSteps s' + 1) /\
  (a0 + d0 <= T -> accelSteps s' = a0 /\ decelSteps s' = d0) /\
  (acceleration s <= 0 -> a0 = 0) /\ (deceleration s <= 0 -> d0 = 0).
Proof. exact (phase_lengths_clamped id targetPos moveSpeed s). Qed.

Lemma C4_phase_lengths_witness :
  let s := setDeceleration 500 (setAcceleration 500 initial_stepper) in
  let s' := (startAcceleratedMove 0 2000 500 s).1 in
  totalSteps s' = 2000 /\ accelSteps s' = 500 /\ decelSteps s' = 500 /\
  accelSteps s' + decelSteps s' <= totalSteps s'.
Proof.
  pose proof (C4_phase_lengths 0 2000 500
                (setDeceleration 500 (setAcceleration 500 initial_stepper))
                ltac:(vm_compute; discriminate)) as H.
  cbv zeta in H. destruct H as (H1 & _ & _ & H4 & _).
  split; [exact H1|]. split; [reflexivity|]. split; [reflexivity | exact H4].
Defined.

(* ------------------------------------------------------------------------- *)
(** ** Delay curve *)

Section DelayCurve.
Import Float32 Ramp.

(** Delays between 0 and [2^24] microseconds, target delay not above the
    starting delay: the range in which the [int] to [float] conversions of
    the delay functions are exact. *)
Variables lo hi : Z.
Hypothesis Hlo : 0 <= lo.
Hypothesis Hlohi : lo <= hi.
Hypothesis Hhi : hi <= 2 ^ 24.

Lemma span_exact : isub hi lo = hi - lo /\ 0 <= hi - lo <= 2 ^ prec.
Proof.
  unfold isub. rewrite wrap32_id; unfold is_int, INT_MIN, INT_MAX, prec; lia.
Qed.

Lemma calculateAccelDelay_ramp id k n :
  0 <= k <= n -> 0 < n ->
  calculateAccelDelay id k n hi lo = hi - ramp (hi - lo) k n.
Proof.
  intros Hk Hn. unfold calculateAccelDelay.
  destruct (n =? 0) eqn:E; [lia|].
  destruct span_exact as [Es Hs]. rewrite Es. fold (ramp (hi - lo) k n).
  pose proof (ramp_bounds (hi - lo) k n Hs Hk Hn).
  unfold isub. apply wrap32_id. unfold is_int, INT_MIN, INT_MAX. lia.
Qed.

Lemma calculateDecelDelay_ramp id k n :
  0 <= k <= n -> 0 < n ->
  calculateDecelDelay id k n lo hi = lo + ramp (hi - lo) k n.
Proof.
  intros Hk Hn. unfold calculateDecelDelay.
  destruct (n =? 0) eqn:E; [lia|].
  destruct span_exact as [Es Hs]. rewrite Es. fold (ramp (hi - lo) k n).
  pose proof (ramp_bounds (hi - lo) k n Hs Hk Hn).
  unfold iadd. apply wrap32_id. unfold is_int, INT_MIN, INT_MAX. lia.
Qed.

Lemma calculateAccelDelay_bounds id k n :
  0 <= k <= n -> lo <= calculateAccelDelay id k n hi lo <= hi.
Proof.
  intros Hk. destruct (Z.eq_dec n 0) as [-> | N].
  - unfold calculateAccelDelay. simpl. lia.
  - rewrite calculateAccelDelay_ramp by lia.
    pose proof (ramp_bounds (hi - lo) k n (proj2 span_exact) Hk ltac:(lia)). lia.
Qed.

Lemma calculateDecelDelay_bounds id k n :
  0 <= k <= n -> lo <= calculateDecelDelay id k n lo hi <= hi.
Proof.
  intros Hk. destruct (Z.eq_dec n 0) as [-> | N].
  - unfold calculateDecelDelay. simpl. lia.
  - rewrite calculateDecelDelay_ramp by lia.
    pose proof (ramp_bounds (hi - lo) k n (proj2 span_exact) Hk ltac:(lia)). lia.
Qed.

Lemma calculateAccelDelay_mono id k k' n :
  0 <= k <= k' -> k' <= n ->
  calculateAccelDelay id k' n hi lo <= calculateAccelDelay id k n hi lo.
Proof.
  intros Hk Hn. destruct (Z.eq_dec n 0) as [-> | N].
  - unfold calculateAccelDelay. simpl. lia.
  - rewrite !calculateAccelDelay_ramp by lia.
    pose proof (ramp_mono (hi - lo) k k' n ltac:(lia) ltac:(lia) ltac:(lia)). lia.
Qed.

Lemma calculateDecelDelay_mono id k k' n :
  0 <= k <= k' -> k' <= n ->
  calculateDecelDelay id k n lo hi <= calculateDecelDelay id k' n lo hi.
Proof.
  intros Hk Hn. destruct (Z.eq_dec n 0) as [-> | N].
  - unfold calculateDecelDelay. simpl. lia.
  - rewrite !calculateDecelDelay_ramp by lia.
    pose proof (ramp_mono (hi - lo) k k' n ltac:(lia) ltac:(lia) ltac:(lia)). lia.
Qed.

Lemma calculateAccelDelay_start id n : 0 <= n -> calculateAccelDelay id 0 n hi lo = if n =? 0 then lo else hi.
Proof.
  intros Hn. destruct (n =? 0) eqn:E.
  - unfold calculateAccelDelay. rewrite E. reflexivity.
  - rewrite calculateAccelDelay_ramp by lia. rewrite ramp_zero. lia.
Qed.

Lemma calculateAccelDelay_end id n : 0 <= n -> calculateAccelDelay id n n hi lo = lo.
Proof.
  intros Hn. destruct (n =? 0) eqn:E.
  - unfold calculateAccelDelay. rewrite E. reflexivity.
  - rewrite calculateAccelDelay_ramp by lia.
    rewrite ramp_full by (unfold prec; lia). lia.
Qed.

Lemma calculateDecelDelay_start id n : calculateDecelDelay id 0 n lo hi = lo.
Proof.
  destruct (n =? 0) eqn:E.
  - unfold calculateDecelDelay. rewrite E. reflexivity.
  - unfold calculateDecelDelay. rewrite E.
    fold (ramp (isub hi lo) 0 n). rewrite ramp_zero.
    unfold iadd. rewrite Z.add_0_r. apply wrap32_id. unfold is_int, INT_MIN, INT_MAX. lia.
Qed.

Lemma calculateDecelDelay_end id n : 0 < n -> calculateDecelDelay id n n lo hi = hi.
Proof.
  intros Hn. rewrite calculateDecelDelay_ramp by lia.
  rewrite ramp_full by (unfold prec; lia). lia.
Qed.

End DelayCurve.

Lemma OnProfile_bounds id s :
  OnProfile id s -> speed s <= currentDelay s <= maxDelay s.
Proof.
  intros ((H1 & H2 & H3) & (K1 & K2 & K3) & (A1 & D1 & D2) & P).
  destruct P as [(P & L & E) | [(P & E) | (P & L & [E | E])]]; rewrite E; try lia.
  - apply calculateAccelDelay_bounds; lia.
  - apply calculateDecelDelay_bounds; lia.
Qed.

Lemma profileStep_OnProfile id s :
  OnProfile id s ->
  let s' := profileStep id s in
  (movePhase s = 0 -> speed s <= currentDelay s' <= currentDelay s) /\
  (movePhase s = 1 -> currentDelay s' = speed s /\ currentDelay s' = currentDelay s) /\
  (movePhase s = 2 -> currentDelay s <= currentDelay s' <= maxDelay s) /\
  (stepsTaken s' < totalSteps s' -> OnProfile id s').
Proof.
  intros Hon. pose proof (OnProfile_bounds id s Hon) as Hb.
  destruct Hon as ((H1 & H2 & H3) & (K1 & K2 & K3) & (A1 & D1 & D2) & P).
  assert (Ek : iadd (stepsTaken s) 1 = stepsTaken s + 1).
  { apply wrap32_id. unfold is_int, INT_MIN, INT_MAX in *. lia. }
  unfold profileStep. fields. rewrite Ek.
  destruct P as [(P & L & E) | [(P & E) | (P & L & E)]]; rewrite P; simpl Z.eqb; cbv iota.
  - (* ACCEL *)
    destruct (stepsTaken s + 1 <? accelSteps s) eqn:Hc; unfold OnProfile; fields.
    + pose proof (calculateAccelDelay_mono (speed s) (maxDelay s) H1 H2 H3 id
                    (stepsTaken s) (stepsTaken s + 1) (accelSteps s) ltac:(lia) ltac:(lia)).
      pose proof (calculateAccelDelay_bounds (speed s) (maxDelay s) H1 H2 H3 id
                    (stepsTaken s + 1) (accelSteps s) ltac:(lia)).
      repeat split; lia.
    + repeat split; lia.
  - (* CONST *)
    assert (Er : isub (totalSteps s) (stepsTaken s + 1) = totalSteps s - (stepsTaken s + 1)).
    { apply wrap32_id. unfold is_int, INT_MIN, INT_MAX in *. lia. }
    rewrite Er.
    destruct (totalSteps s - (stepsTaken s + 1) <=? decelSteps s) eqn:Hc;
      unfold OnProfile; fields.
    + repeat split; lia.
    + repeat split; lia.
  - (* DECEL *)
    assert (Er : isub (totalSteps s) (decelSteps s) = totalSteps s - decelSteps s).
    { apply wrap32_id. unfold is_int, INT_MIN, INT_MAX in *. lia. }
    rewrite Er.
    assert (Ej : isub (stepsTaken s + 1) (totalSteps s - decelSteps s)
                 = stepsTaken s + 1 - (totalSteps s - decelSteps s)).
    { apply wrap32_id. unfold is_int, INT_MIN, INT_MAX in *. lia. }
    rewrite Ej. unfold OnProfile. fields.
    set (j := stepsTaken s - (totalSteps s - decelSteps s)) in *.
    replace (stepsTaken s + 1 - (totalSteps s - decelSteps s)) with (j + 1) by (unfold j; lia).
    pose proof (calculateDecelDelay_bounds (speed s) (maxDelay s) H1 H2 H3 id
                  (j + 1) (decelSteps s) ltac:(unfold j; lia)) as Hb'.
    assert (Hm : currentDelay s
                 <= calculateDecelDelay id (j + 1) (decelSteps s) (speed s) (maxDelay s)).
    { destruct E as [E | E]; rewrite E; [lia|].
      apply calculateDecelDelay_mono; unfold j; lia. }
    repeat split; lia.
Qed.

(** An accelerated move starts on its profile. *)
Lemma startAcceleratedMove_OnProfile id targetPos moveSpeed s :
  0 <= moveSpeed -> moveSpeed <= maxDelay s -> maxDelay s <= 2 ^ 24 ->
  isub targetPos (position s) <> INT_MIN -> isub targetPos (position s) <> 0 ->
  OnProfile id (startAcceleratedMove id targetPos moveSpeed s).1.
Proof.
  intros H1 H2 H3 Hd Hnz.
  destruct (phase_lengths_clamped id targetPos moveSpeed s Hd)
    as (ET & Ha & Hdn & Hsum & _).
  destruct (startAcceleratedMove_fields id targetPos moveSpeed s)
    as (_ & Ek & Es & _ & _ & _ & _ & Ep & Ec & _ & _ & _ & _ & _ & Em & _).
  set (s' := (startAcceleratedMove id targetPos moveSpeed s).1) in *.
  pose proof (wrap32_range (targetPos - position s)) as Hr.
  fold (isub targetPos (position s)) in Hr.
  unfold OnProfile. rewrite Ek, Es, Em.
  unfold is_int, INT_MIN, INT_MAX in *.
  repeat split; try lia.
  destruct (0 <? accelSteps s') eqn:Hc.
  - left. rewrite Ep, Ec. repeat split; try lia.
    rewrite (calculateAccelDelay_start moveSpeed (maxDelay s) H1 H2 H3) by lia.
    destruct (accelSteps s' =? 0) eqn:E0; [lia | reflexivity].
  - right. left. rewrite Ep, Ec. split; reflexivity.
Qed.

Lemma OnProfile_stepped id now s : OnProfile id s -> OnProfile id (stepped now s).
Proof. unfold OnProfile, stepped. fields. tauto. Qed.

(** What a tick does to the stored delay of an axis on its profile. *)
Lemma updateStepper_OnProfile now rd id s :
  OnProfile id s ->
  let s' := (updateStepper now rd id s).1 in
  (movePhase s = 0 -> speed s <= currentDelay s' <= currentDelay s) /\
  (movePhase s = 1 -> currentDelay s' = speed s /\ currentDelay s' = currentDelay s) /\
  (movePhase s = 2 -> currentDelay s <= currentDelay s' <= maxDelay s) /\
  (useAcceleration s = true -> homing s = false ->
   stepsTaken s' < totalSteps s' -> OnProfile id s') /\
  speed s' = speed s /\ maxDelay s' = maxDelay s /\ minDelay s' = minDelay s.
Proof.
  intros Hon. pose proof (OnProfile_bounds id s Hon) as Hb.
  assert (Hsame : forall s', currentDelay s' = currentDelay s -> speed s' = speed s ->
            maxDelay s' = maxDelay s -> minDelay s' = minDelay s ->
            (stepsTaken s' < totalSteps s' -> OnProfile id s') ->
            (movePhase s = 0 -> speed s <= currentDelay s' <= currentDelay s) /\
            (movePhase s = 1 -> currentDelay s' = speed s /\ currentDelay s' = currentDelay s) /\
            (movePhase s = 2 -> currentDelay s <= currentDelay s' <= maxDelay s) /\
            (useAcceleration s = true -> homing s = false ->
             stepsTaken s' < totalSteps s' -> OnProfile id s') /\
            speed s' = speed s /\ maxDelay s' = maxDelay s /\ minDelay s' = minDelay s).
  { intros s' E1 E2 E3 E4 Hp. rewrite E1.
    destruct Hon as (_ & _ & _ & P).
    refine (conj _ (conj _ (conj _ (conj _ (conj E2 (conj E3 E4)))))).
    - intros. lia.
    - intros. destruct P as [(P & _) | [(P & E) | (P & _)]]; lia.
    - intros. lia.
    - intros _ _. exact Hp. }
  destruct (Branch_total now rd s) as [H | Ha Hp Hh Hl | Ha Hp Hl Hd | Ha Hp Hh Hd Hl
                                      | Ha Hp Hh Hd Hl | Ha Hp Hh Hl Hd].
  - rewrite updateStepper_idle by exact H. apply Hsame; auto.
  - rewrite updateStepper_limit by assumption. apply Hsame; try reflexivity.
    intros _. unfold OnProfile in *. fields. exact Hon.
  - rewrite updateStepper_wait by assumption. apply Hsame; auto.
  - rewrite updateStepper_homed by assumption. cbv zeta. simpl fst.
    destruct (Hsame ((((stepped now s) <| active_ ::= false |>) <| homing_ ::= false |>)
                       <| position_ := 0 |>) eq_refl eq_refl eq_refl eq_refl)
      as (A & B & C & _ & D).
    { intros _. unfold OnProfile, stepped in *. fields. exact Hon. }
    refine (conj A (conj B (conj C (conj _ D)))).
    intros _ Hf. congruence.
  - rewrite updateStepper_homing_step by assumption. apply Hsame; try reflexivity.
    intros _. apply OnProfile_stepped. exact Hon.
  - rewrite updateStepper_move by assumption. cbv zeta.
    assert (Hadv : let a := advanced now id s in
              (movePhase s = 0 -> speed s <= currentDelay a <= currentDelay s) /\
              (movePhase s = 1 -> currentDelay a = speed s /\ currentDelay a = currentDelay s) /\
              (movePhase s = 2 -> currentDelay s <= currentDelay a <= maxDelay s) /\
              (useAcceleration s = true -> stepsTaken a < totalSteps a -> OnProfile id a) /\
              speed a = speed s /\ maxDelay a = maxDelay s /\ minDelay a = minDelay s).
    { unfold advanced. destruct (useAcceleration s) eqn:Hu.
      - pose proof (profileStep_OnProfile id (stepped now s) (OnProfile_stepped id now s Hon)) as F.
        pose proof (profileStep_fixed id (stepped now s)) as G.
        cbv zeta in F, G. set (a := profileStep id (stepped now s)) in *.
        unfold stepped in F, G. fields.
        destruct F as (F1 & F2 & F3 & F4).
        destruct G as (_ & _ & _ & _ & _ & _ & _ & G1 & _ & _ & _ & G2 & G3 & _).
        refine (conj F1 (conj F2 (conj F3 (conj _ (conj G1 (conj G2 G3)))))).
        intros _. exact F4.
      - cbv zeta. destruct (Hsame (stepped now s) eq_refl eq_refl eq_refl eq_refl
                   ltac:(intros _; apply OnProfile_stepped; exact Hon))
          as (A & B & C & _ & D).
        refine (conj A (conj B (conj C (conj _ D)))).
        intros Hf. discriminate. }
    cbv zeta in Hadv. destruct Hadv as (A & B & C & D & E1 & E2 & E3).
    destruct (position (advanced now id s) =? target (advanced now id s)); simpl fst.
    + fields.
      refine (conj A (conj B (conj C (conj _ (conj E1 (conj E2 E3)))))).
      intros Hu _ Hk. specialize (D Hu Hk). unfold OnProfile in *. fields. exact D.
    + refine (conj A (conj B (conj C (conj _ (conj E1 (conj E2 E3)))))).
      intros Hu _ Hk. exact (D Hu Hk).
Qed.

(* ------------------------------------------------------------------------- *)
(** ** A move of zero steps *)

Lemma wrap32_wrap32_add a b : wrap32 (wrap32 a + b) = wrap32 (a + b).
Proof.
  unfold wrap32. f_equal.
  replace ((a + 2 ^ 31) mod 2 ^ 32 - 2 ^ 31 + b + 2 ^ 31)
    with ((a + 2 ^ 31) mod 2 ^ 32 + b) by lia.
  rewrite Zplus_mod_idemp_l. f_equal. lia.
Qed.

Lemma wrap32_shift_neq p d : 0 < d < 2 ^ 32 -> wrap32 (p + d) <> wrap32 p /\ wrap32 (p - d) <> wrap32 p.
Proof.
  intros Hd. unfold wrap32.
  pose proof (Z.div_mod (p + 2 ^ 31) (2 ^ 32) ltac:(lia)) as E0.
  pose proof (Z.mod_pos_bound (p + 2 ^ 31) (2 ^ 32) ltac:(lia)) as B0.
  split; intros E.
  - pose proof (Z.div_mod (p + d + 2 ^ 31) (2 ^ 32) ltac:(lia)) as E1.
    pose proof (Z.mod_pos_bound (p + d + 2 ^ 31) (2 ^ 32) ltac:(lia)) as B1.
    assert (Hm : (p + d + 2 ^ 31) mod 2 ^ 32 = (p + 2 ^ 31) mod 2 ^ 32) by lia.
    rewrite Hm in E1.
    assert (d = 2 ^ 32 * ((p + d + 2 ^ 31) / 2 ^ 32 - (p + 2 ^ 31) / 2 ^ 32)) by lia.
    nia.
  - pose proof (Z.div_mod (p - d + 2 ^ 31) (2 ^ 32) ltac:(lia)) as E1.
    pose proof (Z.mod_pos_bound (p - d + 2 ^ 31) (2 ^ 32) ltac:(lia)) as B1.
    assert (Hm : (p - d + 2 ^ 31) mod 2 ^ 32 = (p + 2 ^ 31) mod 2 ^ 32) by lia.
    rewrite Hm in E1.
    assert (d = 2 ^ 32 * ((p + 2 ^ 31) / 2 ^ 32 - (p - d + 2 ^ 31) / 2 ^ 32)) by lia.
    nia.
Qed.

Lemma Overshot_step p r0 k now rd i s :
  Overshot p r0 k s -> 0 <= k -> k + 1 < 2 ^ 32 ->
  readLimitSwitch rd (guardPin r0) = false ->
  let r := updateStepper now rd i s in
  (Overshot p r0 k r.1 \/ Overshot p r0 (k + 1) r.1) /\ events_of i r.2 = [] /\
  (stepDue now s = true ->
   position r.1 = iadd (position s) (stepUnit (direction r0)) /\ position r.1 <> target r.1).
Proof.
  intros (Ha & Hp & Hh & Hdir & HlA & HlB & Ht & Hk0 & Hk1) Hk Hlt Hl.
  assert (Hg : readLimitSwitch rd (guardPin s) = false).
  { unfold guardPin in *. rewrite Hdir, HlA, HlB. exact Hl. }
  destruct (stepDue now s) eqn:Hd.
  - rewrite updateStepper_move by assumption. cbv zeta.
    destruct (advanced_fixed now i s)
      as (F1 & F2 & F3 & F4 & F5 & _ & _ & _ & _ & _ & F6 & F7 & _ & _ & F8).
    assert (Hpos : position (advanced now i s) = wrap32 (p + stepUnit (direction r0) * (k + 1))).
    { rewrite F8, Hdir. fold (stepUnit (direction r0)). unfold iadd.
      destruct (Z.eq_dec k 0) as [-> | Hkn].
      - rewrite Hk0 by reflexivity. f_equal. lia.
      - rewrite Hk1 by lia. rewrite wrap32_wrap32_add. f_equal. lia. }
    assert (Hne : position (advanced now i s) <> target (advanced now i s)).
    { rewrite Hpos, F5, Ht.
      destruct (wrap32_shift_neq p (k + 1) ltac:(lia)) as [N1 N2].
      unfold stepUnit. destruct (direction r0).
      - replace (p + 1 * (k + 1)) with (p + (k + 1)) by lia. exact N1.
      - replace (p + -1 * (k + 1)) with (p - (k + 1)) by lia. exact N2. }
    pose proof (proj2 (Z.eqb_neq _ _) Hne) as Hneb. rewrite Hneb. simpl.
    split; [|split].
    + right. unfold Overshot. rewrite F1, F2, F3, F4, F5, F6, F7.
      repeat split; try assumption; intros; [lia | exact Hpos].
    + reflexivity.
    + intros _. split; [|exact Hne]. rewrite F8, Hdir. reflexivity.
  - rewrite updateStepper_wait by auto. simpl.
    split; [left; unfold Overshot; repeat split; assumption|].
    split; [reflexivity | discriminate].
Qed.

Lemma Overshot_run p r0 i ticks : forall k s,
  Overshot p r0 k s -> 0 <= k -> k + Z.of_nat (length ticks) < 2 ^ 32 ->
  Forall (fun t => readLimitSwitch (tick_pins t) (guardPin r0) = false) ticks ->
  let r := runStepper i ticks s in
  active r.1 = true /\ events_of i r.2 = [].
Proof.
  induction ticks as [|t ticks IH]; intros k s Ho Hk Hlen Hl.
  - simpl. split; [apply Ho | reflexivity].
  - simpl length in Hlen. inversion Hl as [|t' ticks' Hl1 Hl2]; subst.
    destruct (Overshot_step p r0 k (tick_now t) (tick_pins t) i s Ho Hk ltac:(lia) Hl1)
      as (Hor & Hev & _).
    simpl runStepper. cbv zeta. simpl fst. simpl snd.
    rewrite events_of_app, Hev. simpl.
    destruct Hor as [Ho' | Ho'].
    + apply (IH k _ Ho' Hk ltac:(lia) Hl2).
    + apply (IH (k + 1) _ Ho' ltac:(lia) ltac:(lia) Hl2).
Qed.

(** A move of zero steps leaves an active axis aimed at its own position. *)
Lemma moveStepper_zero now id dir v s :
  let s0 := (moveStepper now id 0 dir v s).1 in
  Overshot (position s) s0 0 s0 /\ direction s0 = negb (dir =? 0) /\
  limitA s0 = limitA s /\ limitB s0 = limitB s.
Proof.
  unfold moveStepper. fields.
  assert (E : iadd (position s) (if dir =? 1 then 0 else ineg 0) = wrap32 (position s)).
  { unfold iadd, ineg. change (wrap32 (- 0)) with 0. destruct (dir =? 1); f_equal; lia. }
  rewrite E.
  destruct (useAcceleration s && ((0 <? acceleration s) || (0 <? deceleration s))).
  - match goal with
    | |- context [startAcceleratedMove id ?t v ?r] =>
        destruct (startAcceleratedMove_fields id t v r)
          as (_ & _ & _ & Fa & Fp & _ & _ & _ & _ & Fpos & Ft & Fh & Fd & _);
        destruct (startAcceleratedMove_wiring id t v r) as (FA & FB & _);
        destruct (startAcceleratedMove id t v r) as [s1 o1]
    end.
    fields. unfold Overshot. fields.
    rewrite Fa, Fp, Fpos, Ft, Fh, Fd, FA, FB.
    repeat split; try reflexivity; intros; lia.
  - fields. unfold Overshot. fields. repeat split; try reflexivity; intros; lia.
Qed.

Lemma lookup_validId (st : Steppers) (i : nat) s :
  length st = Z.to_nat MAX_STEPPERS -> st !! i = Some s ->
  validId (Z.of_nat i) = true /\ Z.to_nat (Z.of_nat i) = i.
Proof.
  intros Hlen Hi. apply lookup_lt_Some in Hi. rewrite Hlen in Hi.
  split; [|apply Nat2Z.id]. apply validId_range. unfold MAX_STEPPERS in *. lia.
Qed.

(** C10.  A move command with [steps = 0] on a valid axis makes the axis
    active with the target at its current position.  The scheduler steps
    before it compares position and target, so the first due pulse takes
    the position one step away from the target, and in any run of fewer
    than [2^32] ticks in which the limit switch of the travel direction is
    not triggered (and no command intervenes) the axis stays active and no
    event about it, in particular no move-complete event, is emitted.
    ([2^32] pulses are what it takes the 32-bit position counter to come
    round to the target again.) *)
Theorem C10_zero_step_move now rd (st : Steppers) (i : nat) s dir v ticks :
  length st = Z.to_nat MAX_STEPPERS -> st !! i = Some s ->
  Z.of_nat (length ticks) < 2 ^ 32 ->
  Forall (fun t => readLimitSwitch (tick_pins t)
                     (if dir =? 0 then limitB s else limitA s) = false) ticks ->
  exists st0 s0,
    handleCommand now rd (move_stepper (Z.of_nat i) 0 dir v) st
      = Done st0 (moveStepper now (Z.of_nat i) 0 dir v s).2 /\
    st0 !! i = Some s0 /\
    active s0 = true /\ position s0 = position s /\ target s0 = wrap32 (position s0) /\
    (is_int (position s) -> target s0 = position s0) /\
    (exists s', (run ticks st0).1 !! i = Some s' /\ active s' = true) /\
    events_of (Z.of_nat i) (run ticks st0).2 = [] /\
    (forall now1 rd1,
       stepDue now1 s0 = true ->
       readLimitSwitch rd1 (if dir =? 0 then limitB s else limitA s) = false ->
       let s1 := (updateStepper now1 rd1 (Z.of_nat i) s0).1 in
       position s1 = iadd (position s0) (if dir =? 0 then -1 else 1) /\
       position s1 <> target s1 /\ active s1 = true).
Proof.
  intros Hlen Hi Hn Hl.
  destruct (lookup_validId st i s Hlen Hi) as [Hv Hid].
  assert (Hi' : st !! Z.to_nat (Z.of_nat i) = Some s) by (rewrite Hid; exact Hi).
  pose proof (handleCommand_move now rd st (Z.of_nat i) s 0 dir v Hv Hi') as Hc.
  rewrite Hid in Hc.
  set (s0 := (moveStepper now (Z.of_nat i) 0 dir v s).1) in *.
  destruct (moveStepper_zero now (Z.of_nat i) dir v s) as (Ho & Hdir & HA & HB).
  fold s0 in Ho, Hdir, HA, HB.
  assert (Hg : guardPin s0 = (if dir =? 0 then limitB s else limitA s)).
  { unfold guardPin. rewrite Hdir, HA, HB. destruct (dir =? 0); reflexivity. }
  assert (Hs0 : <[i := s0]> st !! i = Some s0).
  { apply list_lookup_insert_eq. apply lookup_lt_Some in Hi. exact Hi. }
  assert (Hlen0 : length (<[i := s0]> st) = Z.to_nat MAX_STEPPERS).
  { rewrite length_insert. exact Hlen. }
  exists (<[i := s0]> st), s0.
  split; [exact Hc|]. split; [exact Hs0|].
  pose proof Ho as (Ha & _ & _ & _ & _ & _ & Ht & Hp & _).
  specialize (Hp eq_refl).
  split; [exact Ha|]. split; [exact Hp|]. split; [rewrite Hp; exact Ht|].
  split; [intros Hint; rewrite Ht, Hp; apply wrap32_id; exact Hint|].
  assert (Hl' : Forall (fun t => readLimitSwitch (tick_pins t) (guardPin s0) = false) ticks).
  { rewrite Hg. exact Hl. }
  destruct (Overshot_run (position s) s0 (Z.of_nat i) ticks 0 s0 Ho ltac:(lia) ltac:(lia) Hl')
    as (Hact & Hev).
  destruct (run_axis ticks _ i s0 Hlen0 Hs0) as (E1 & E2).
  split; [eexists; split; [exact E1 | exact Hact]|].
  split; [rewrite E2; exact Hev|].
  intros now1 rd1 Hd Hl1 s1.
  rewrite <- Hg in Hl1.
  destruct (Overshot_step (position s) s0 0 now1 rd1 (Z.of_nat i) s0 Ho ltac:(lia) ltac:(lia) Hl1)
    as (Hor & _ & Hpos).
  destruct (Hpos Hd) as (P1 & P2). fold s1 in P1, P2, Hor.
  split; [|split; [exact P2|]].
  - rewrite P1, Hdir. unfold stepUnit. destruct (dir =? 0); reflexivity.
  - destruct Hor as [Hor | Hor]; apply Hor.
Qed.

Lemma C10_zero_step_move_witness :
  exists st0 s0,
    handleCommand 0 (fun _ => HIGH) (move_stepper 0 0 1 1000) setup_steppers
      = Done st0 (moveStepper 0 0 0 1 1000 initial_stepper).2 /\
    st0 !! 0%nat = Some s0 /\
    active s0 = true /\ position s0 = 0 /\ target s0 = wrap32 (position s0) /\
    (is_int 0 -> target s0 = position s0) /\
    (exists s', (run three_ticks st0).1 !! 0%nat = Some s' /\ active s' = true) /\
    events_of 0 (run three_ticks st0).2 = [] /\
    (forall now1 rd1,
       stepDue now1 s0 = true ->
       readLimitSwitch rd1 0 = false ->
       let s1 := (updateStepper now1 rd1 0 s0).1 in
       position s1 = iadd (position s0) 1 /\ position s1 <> target s1 /\ active s1 = true).
Proof.
  exact (C10_zero_step_move 0 (fun _ => HIGH) setup_steppers 0 initial_stepper 1 1000
           three_ticks eq_refl eq_refl ltac:(simpl; lia)
           ltac:(repeat constructor)).
Defined.

(* ------------------------------------------------------------------------- *)
(** ** Phases of an accelerated move *)

Lemma changes_cons x y l :
  changes (x :: y :: l) = if x =? y then changes (y :: l) else x :: changes (y :: l).
Proof. reflexivity. Qed.

Lemma climbs_last_ge l : forall x z, climbs x l -> last (x :: l) = Some z -> x <= z.
Proof.
  induction l as [|y l IH]; intros x z Hc Hl.
  - simpl in Hl. inversion Hl. lia.
  - destruct Hc as [Hy Hc]. rewrite last_cons_cons in Hl.
    pose proof (IH y z Hc Hl). lia.
Qed.

Lemma changes_climbs_0 l : forall x, climbs x l -> last (x :: l) = Some x -> changes (x :: l) = [x].
Proof.
  induction l as [|y l IH]; intros x Hc Hl; [reflexivity|].
  destruct Hc as [Hy Hc]. rewrite last_cons_cons in Hl.
  pose proof (climbs_last_ge l y x Hc Hl).
  assert (y = x) by lia. subst y.
  rewrite changes_cons, Z.eqb_refl. apply IH; assumption.
Qed.

Lemma changes_climbs_1 l : forall x,
  climbs x l -> last (x :: l) = Some (x + 1) -> changes (x :: l) = [x; x + 1].
Proof.
  induction l as [|y l IH]; intros x Hc Hl.
  - simpl in Hl. inversion Hl. lia.
  - destruct Hc as [Hy Hc]. rewrite last_cons_cons in Hl. rewrite changes_cons.
    destruct Hy as [-> | ->].
    + rewrite Z.eqb_refl. apply IH; assumption.
    + assert (E : (x =? x + 1) = false) by lia. rewrite E.
      rewrite (changes_climbs_0 l (x + 1) Hc Hl). reflexivity.
Qed.

Lemma changes_climbs_2 l : forall x,
  climbs x l -> last (x :: l) = Some (x + 2) -> changes (x :: l) = [x; x + 1; x + 2].
Proof.
  induction l as [|y l IH]; intros x Hc Hl.
  - simpl in Hl. inversion Hl. lia.
  - destruct Hc as [Hy Hc]. rewrite last_cons_cons in Hl. rewrite changes_cons.
    destruct Hy as [-> | ->].
    + rewrite Z.eqb_refl. apply IH; assumption.
    + assert (E : (x =? x + 1) = false) by lia. rewrite E.
      replace (x + 2) with (x + 1 + 1) in Hl |- * by lia.
      rewrite (changes_climbs_1 l (x + 1) Hc Hl). reflexivity.
Qed.

Section AcceleratedMove.

(** An accelerated move of [T] steps from position [p0] in direction [fwd],
    with phase lengths [a] and [d]; either ramp may be empty. *)
Variables (p0 T a d : Z) (fwd : bool).
Hypothesis Hp0 : is_int p0.
Hypothesis Hend : is_int (p0 + stepUnit fwd * T).
Hypothesis HT : T <= INT_MAX.
Hypothesis Ha : 0 <= a <= T.
Hypothesis Hd : 0 <= d <= T.

Lemma stepUnit_cases : stepUnit fwd = 1 \/ stepUnit fwd = -1.
Proof. unfold stepUnit. destruct fwd; auto. Qed.

Lemma PhaseOk_profileStep i s :
  totalSteps s = T -> accelSteps s = a -> decelSteps s = d ->
  0 <= stepsTaken s < T -> PhaseOk T a d s ->
  let s' := profileStep i s in
  stepsTaken s' = stepsTaken s + 1 /\
  (movePhase s' = movePhase s \/ movePhase s' = movePhase s + 1) /\
  PhaseOk T a d s'.
Proof.
  intros ET Ea Ed K P.
  unfold is_int, INT_MIN, INT_MAX in *.
  assert (Ek : iadd (stepsTaken s) 1 = stepsTaken s + 1).
  { apply wrap32_id. unfold is_int, INT_MIN, INT_MAX. lia. }
  unfold profileStep, PhaseOk. fields. rewrite Ek, ET, Ea, Ed.
  destruct P as [(P & L) | [(P & L) | (P & L)]]; rewrite P; simpl Z.eqb; cbv iota.
  - destruct (stepsTaken s + 1 <? a) eqn:Hc; fields; rewrite ?P; lia.
  - assert (Er : isub T (stepsTaken s + 1) = T - (stepsTaken s + 1)).
    { apply wrap32_id. unfold is_int, INT_MIN, INT_MAX. lia. }
    rewrite Er.
    destruct (T - (stepsTaken s + 1) <=? d) eqn:Hc; fields; rewrite ?P; lia.
  - fields. rewrite P. lia.
Qed.

Lemma Moving_step now rd i s :
  Moving p0 T a d fwd s -> readLimitSwitch rd (guardPin s) = false ->
  let s' := (updateStepper now rd i s).1 in
  Moving p0 T a d fwd s' /\ guardPin s' = guardPin s /\
  (s' = s \/
   (stepsTaken s' = stepsTaken s + 1 /\ position s' = position s + stepUnit fwd /\
    (movePhase s' = movePhase s \/ movePhase s' = movePhase s + 1))).
Proof.
  intros Hm Hl. pose proof Hm as
    ((Hu & Hh & Hp & Hdir) & (Et & ET & Ea & Ed) & ((K0 & K1) & Epos & Eact) & P).
  destruct (active s) eqn:Hact.
  2:{ rewrite updateStepper_idle by (left; exact Hact). simpl.
      split; [exact Hm | split; [reflexivity | left; reflexivity]]. }
  symmetry in Eact. apply Z.ltb_lt in Eact.
  destruct (stepDue now s) eqn:Hdue.
  2:{ rewrite updateStepper_wait by auto. simpl.
      split; [exact Hm | split; [reflexivity | left; reflexivity]]. }
  rewrite updateStepper_move by assumption. cbv zeta.
  destruct (advanced_fixed now i s)
    as (F1 & F2 & F3 & F4 & F5 & F6 & _ & _ & _ & _ & F7 & F8 & _ & _ & F9).
  assert (G : stepsTaken (advanced now i s) = stepsTaken s + 1 /\
              (movePhase (advanced now i s) = movePhase s \/
               movePhase (advanced now i s) = movePhase s + 1) /\
              PhaseOk T a d (advanced now i s) /\
              totalSteps (advanced now i s) = T /\ accelSteps (advanced now i s) = a /\
              decelSteps (advanced now i s) = d).
  { unfold advanced. rewrite Hu.
    pose proof (PhaseOk_profileStep i (stepped now s) ET Ea Ed (conj K0 Eact) P) as G.
    pose proof (profileStep_fixed i (stepped now s)) as H.
    cbv zeta in G, H. set (q := profileStep i (stepped now s)) in *.
    unfold stepped in G, H. fields.
    destruct G as (G1 & G2 & G3).
    repeat split; try assumption; intuition congruence. }
  destruct G as (G1 & G2 & G3 & G4 & G5 & G6).
  assert (Hpos : position (advanced now i s) = position s + stepUnit fwd).
  { rewrite F9, Hdir. fold (stepUnit fwd). apply wrap32_id.
    rewrite Epos. destruct stepUnit_cases as [E | E]; rewrite E in *;
    unfold is_int, INT_MIN, INT_MAX in *; lia. }
  assert (Hg : guardPin (advanced now i s) = guardPin s).
  { unfold guardPin. rewrite F4, F7, F8. reflexivity. }
  assert (Hcmp : (position (advanced now i s) =? target (advanced now i s))
                 = (stepsTaken s + 1 =? T)).
  { rewrite Hpos, F5, Et, Epos.
    destruct stepUnit_cases as [E | E]; rewrite E; lia. }
  rewrite Hcmp.
  destruct (stepsTaken s + 1 =? T) eqn:Hfin; simpl fst.
  - split; [|split].
    + unfold Moving, PhaseOk. fields. rewrite F1, F3, F4, F5, F6, G1, G4, G5, G6, Hpos, Epos.
      unfold PhaseOk in G3. rewrite G1 in G3.
      repeat split; try assumption; try lia.
    + exact Hg.
    + right. fields. repeat split; assumption.
  - split; [|split].
    + unfold Moving, PhaseOk. rewrite F1, F2, F3, F4, F5, F6, G1, G4, G5, G6, Hpos, Epos.
      unfold PhaseOk in G3. rewrite G1 in G3.
      assert (Hlt : (stepsTaken s + 1 <? T) = true) by lia.
      rewrite Hlt, Hact.
      repeat split; try assumption; try lia.
    + exact Hg.
    + right. repeat split; assumption.
Qed.

(** Along a run with no limit trigger the invariant holds at every tick,
    the phase only climbs, and each tick either leaves the axis as it is
    or takes exactly one step. *)
Lemma Moving_history i ticks : forall s,
  Moving p0 T a d fwd s ->
  Forall (fun t => readLimitSwitch (tick_pins t) (guardPin s) = false) ticks ->
  Forall (Moving p0 T a d fwd) (s :: history i ticks s) /\
  climbs (movePhase s) (map movePhase (history i ticks s)) /\
  Stepwise fwd s (history i ticks s).
Proof.
  induction ticks as [|t ticks IH]; intros s Hm Hl.
  - simpl. repeat split. constructor; [exact Hm | constructor].
  - inversion Hl as [|t' ticks' Hl1 Hl2]; subst.
    destruct (Moving_step (tick_now t) (tick_pins t) i s Hm Hl1) as (Hm' & Hg & Hstep).
    simpl history. cbv zeta.
    set (s' := (updateStepper (tick_now t) (tick_pins t) i s).1) in *.
    rewrite <- Hg in Hl2.
    destruct (IH s' Hm' Hl2) as (I1 & I2 & I3).
    split; [constructor; [exact Hm | exact I1]|].
    split.
    + simpl. split; [|exact I2].
      destruct Hstep as [-> | (_ & _ & Hph)]; [left; reflexivity | exact Hph].
    + simpl. split; [|exact I3].
      destruct Hstep as [-> | (A & B & _)]; [left; reflexivity | right; split; assumption].
Qed.

(** Where a completed move stands: all steps taken, at the target, in
    DECEL unless the acceleration ramp fills the whole move, in which case
    the last step has only switched ACCEL to CONST. *)
Lemma Moving_complete s : Moving p0 T a d fwd s -> active s = false ->
  movePhase s = (if a =? T then 1 else 2) /\ stepsTaken s = T /\
  position s = p0 + stepUnit fwd * T.
Proof using Ha Hd.
  intros (_ & _ & ((K0 & K1) & Epos & Eact) & P) Hact.
  rewrite Hact in Eact. symmetry in Eact. apply Z.ltb_ge in Eact.
  assert (stepsTaken s = T) by lia.
  split; [|split; [assumption | rewrite Epos; congruence]].
  destruct (a =? T) eqn:E; destruct P as [(P & L) | [(P & L) | (P & L)]]; lia.
Qed.

End AcceleratedMove.

Lemma last_map_Some {A B} (f : A -> B) (l : list A) x :
  last l = Some x -> last (map f l) = Some (f x).
Proof.
  induction l as [|y [|z l] IH]; intros H.
  - discriminate.
  - simpl in *. inversion H. reflexivity.
  - rewrite last_cons_cons in H. simpl map in *. rewrite last_cons_cons. apply IH. exact H.
Qed.

(** The record a move command leaves when it takes the accelerated branch:
    the move starts in ACCEL, or in CONST when the acceleration ramp is
    empty. *)
Lemma moveStepper_Moving_any now id steps dir v s :
  useAcceleration s = true -> 0 < acceleration s \/ 0 < deceleration s ->
  dir = 0 \/ dir = 1 -> 0 < steps <= INT_MAX -> is_int (position s) ->
  is_int (position s + (if dir =? 1 then steps else - steps)) ->
  let s0 := (moveStepper now id steps dir v s).1 in
  totalSteps s0 = steps /\ movePhase s0 = (if 0 <? accelSteps s0 then 0 else 1) /\
  stepsTaken s0 = 0 /\
  0 <= accelSteps s0 <= steps /\ 0 <= decelSteps s0 <= steps /\
  stepUnit (negb (dir =? 0)) * steps = (if dir =? 1 then steps else - steps) /\
  Moving (position s) steps (accelSteps s0) (decelSteps s0) (negb (dir =? 0)) s0.
Proof.
  intros Hu Had Hdir Hsteps Hpos Hend.
  assert (Hbr : useAcceleration s && ((0 <? acceleration s) || (0 <? deceleration s)) = true).
  { rewrite Hu. simpl. apply orb_true_iff. rewrite !Z.ltb_lt. exact Had. }
  assert (Hunit : stepUnit (negb (dir =? 0)) * steps = (if dir =? 1 then steps else - steps)).
  { unfold stepUnit. destruct Hdir as [-> | ->]; simpl; lia. }
  assert (Etgt : iadd (position s) (if dir =? 1 then steps else ineg steps)
                 = position s + (if dir =? 1 then steps else - steps)).
  { unfold iadd, ineg. unfold is_int, INT_MIN, INT_MAX in *.
    destruct (dir =? 1).
    - apply wrap32_id. unfold is_int, INT_MIN, INT_MAX. lia.
    - rewrite (wrap32_id (- steps)) by (unfold is_int, INT_MIN, INT_MAX; lia).
      apply wrap32_id. unfold is_int, INT_MIN, INT_MAX. lia. }
  unfold moveStepper. fields. rewrite Hbr, Etgt.
  set (tgt := position s + (if dir =? 1 then steps else - steps)) in *.
  set (r := (((s <| target_ := tgt |>) <| speed_ := v |>) <| direction_ ::= negb (dir =? 0) |>)
              <| homing_ ::= false |>).
  assert (Ediff : isub tgt (position r) = (if dir =? 1 then steps else - steps)).
  { unfold r, isub, tgt. fields. replace (position s + _ - position s)
      with (if dir =? 1 then steps else - steps) by lia.
    apply wrap32_id. unfold is_int, INT_MIN, INT_MAX in *. destruct (dir =? 1); lia. }
  assert (Hnm : isub tgt (position r) <> INT_MIN).
  { rewrite Ediff. unfold INT_MIN, INT_MAX in *. destruct (dir =? 1); lia. }
  destruct (phase_lengths_clamped id tgt v r Hnm) as (ET & A0 & D0 & Hsum & _).
  destruct (startAcceleratedMove_fields id tgt v r)
    as (_ & Ek & _ & Fa & Fp & _ & _ & Eph & _ & Fpos & Ft & Fh & Fd & Fu & _).
  rewrite Ediff in ET.
  assert (ET' : totalSteps (startAcceleratedMove id tgt v r).1 = steps).
  { rewrite ET. destruct (dir =? 1); lia. }
  destruct (startAcceleratedMove id tgt v r) as [s1 o1]. fields.
  rewrite ET' in *.
  split; [reflexivity|]. split; [exact Eph|]. split; [exact Ek|].
  split; [lia|]. split; [lia|]. split; [exact Hunit|].
  unfold Moving, PhaseOk. fields. rewrite Fu, Fh, Fp, Fd, Ft, ET', Ek, Fpos, Fa, Eph.
  unfold r. fields. rewrite Hunit. fold tgt.
  assert (Hlt : (0 <? steps) = true) by lia. rewrite Hlt.
  destruct (0 <? accelSteps s1) eqn:E;
    repeat split; try reflexivity; try assumption; try lia.
Qed.

Lemma moveStepper_Moving now id steps dir v s :
  useAcceleration s = true -> 0 < acceleration s \/ 0 < deceleration s ->
  dir = 0 \/ dir = 1 -> 0 < steps <= INT_MAX -> is_int (position s) ->
  is_int (position s + (if dir =? 1 then steps else - steps)) ->
  let s0 := (moveStepper now id steps dir v s).1 in
  0 < accelSteps s0 < totalSteps s0 ->
  totalSteps s0 = steps /\ movePhase s0 = 0 /\ stepsTaken s0 = 0 /\
  0 <= decelSteps s0 <= steps /\
  stepUnit (negb (dir =? 0)) * steps = (if dir =? 1 then steps else - steps) /\
  Moving (position s) steps (accelSteps s0) (decelSteps s0) (negb (dir =? 0)) s0.
Proof.
  intros Hu Had Hdir Hsteps Hpos Hend s0 Hacc.
  destruct (moveStepper_Moving_any now id steps dir v s Hu Had Hdir Hsteps Hpos Hend)
    as (ET & Eph & Ek & _ & Hd & Hunit & Hm).
  fold s0 in ET, Eph, Ek, Hd, Hm.
  assert (E : (0 <? accelSteps s0) = true) by lia. rewrite E in Eph.
  split; [exact ET|]. split; [exact Eph|]. split; [exact Ek|].
  split; [exact Hd|]. split; [exact Hunit | exact Hm].
Qed.

(** With both magnitudes positive and at least two steps the acceleration
    phase is neither empty nor the whole move. *)
Lemma moveStepper_both_ramps now id steps dir v s :
  useAcceleration s = true -> 0 < acceleration s -> 0 < deceleration s ->
  dir = 0 \/ dir = 1 -> 2 <= steps <= INT_MAX -> is_int (position s) ->
  is_int (position s + (if dir =? 1 then steps else - steps)) ->
  let s0 := (moveStepper now id steps dir v s).1 in
  0 < accelSteps s0 < totalSteps s0.
Proof.
  intros Hu Hacc Hdec Hdir Hsteps Hpos Hend.
  assert (Hbr : useAcceleration s && ((0 <? acceleration s) || (0 <? deceleration s)) = true).
  { rewrite Hu. simpl. apply orb_true_iff. rewrite !Z.ltb_lt. left. exact Hacc. }
  assert (Etgt : iadd (position s) (if dir =? 1 then steps else ineg steps)
                 = position s + (if dir =? 1 then steps else - steps)).
  { unfold iadd, ineg. unfold is_int, INT_MIN, INT_MAX in *.
    destruct (dir =? 1).
    - apply wrap32_id. unfold is_int, INT_MIN, INT_MAX. lia.
    - rewrite (wrap32_id (- steps)) by (unfold is_int, INT_MIN, INT_MAX; lia).
      apply wrap32_id. unfold is_int, INT_MIN, INT_MAX. lia. }
  unfold moveStepper. fields. rewrite Hbr, Etgt.
  set (tgt := position s + (if dir =? 1 then steps else - steps)) in *.
  set (r := (((s <| target_ := tgt |>) <| speed_ := v |>) <| direction_ ::= negb (dir =? 0) |>)
              <| homing_ ::= false |>).
  assert (Ediff : isub tgt (position r) = (if dir =? 1 then steps else - steps)).
  { unfold r, isub, tgt. fields. replace (position s + _ - position s)
      with (if dir =? 1 then steps else - steps) by lia.
    apply wrap32_id. unfold is_int, INT_MIN, INT_MAX in *. destruct (dir =? 1); lia. }
  assert (Hnm : isub tgt (position r) <> INT_MIN).
  { rewrite Ediff. unfold INT_MIN, INT_MAX in *. destruct (dir =? 1); lia. }
  destruct (phase_lengths_clamped id tgt v r Hnm) as (ET & A0 & D0 & Hsum & Hc1 & Hc2 & _).
  rewrite Ediff in ET.
  assert (ET' : totalSteps (startAcceleratedMove id tgt v r).1 = steps).
  { rewrite ET. destruct (dir =? 1); lia. }
  rewrite ET' in *.
  pose proof (calculateAccelSteps_enabled r steps Hacc) as Ea.
  pose proof (calculateDecelSteps_enabled r steps Hdec) as Ed.
  destruct (startAcceleratedMove id tgt v r) as [s1 o1]. fields.
  destruct (Z.lt_ge_cases steps (calculateAccelSteps r steps + calculateDecelSteps r steps))
    as [Hlt | Hge].
  - destruct (Hc1 Hlt) as (E1 & E2 & _). rewrite E1.
    pose proof (Z.quot_rem steps 2 ltac:(lia)) as Q.
    pose proof (Z.rem_bound_pos steps 2 ltac:(lia) ltac:(lia)). lia.
  - destruct (Hc2 Hge) as (E1 & E2). lia.
Qed.

(** C6 does not hold as stated: with acceleration 500 and deceleration 0 a
    move of 10 steps has [accelSteps = 10]; it runs ACCEL for nine steps,
    switches to CONST on the tenth and is complete there, without a DECEL
    phase.  With acceleration 0 and deceleration 500 a move of 30 steps
    starts in CONST. *)
Lemma C6_counterexample :
  let ticks := map (fun k => {| tick_now := Z.of_nat k * 100000; tick_pins := fun _ => HIGH |})
                 (seq 1 12) in
  let s0 := (moveStepper 0 0 10 1 500 (setAcceleration 500 initial_stepper)).1 in
  let c0 := (moveStepper 0 0 30 1 500 (setDeceleration 500 initial_stepper)).1 in
  (changes (map movePhase (s0 :: history 0 ticks s0)) = [0; 1] /\
   (exists s', last (s0 :: history 0 ticks s0) = Some s' /\
               active s' = false /\ position s' = 10 /\ stepsTaken s' = 10)) /\
  movePhase c0 = 1.
Proof.
  vm_compute. split; [split; [reflexivity|]|reflexivity].
  eexists. split; [reflexivity|]. repeat split; reflexivity.
Qed.

(** C6 (amended).  For every accelerated move commanded with [dir] 0 or 1
    and [steps > 0], start and end positions representable, in a run of
    ticks in which the limit switch of the travel direction is never
    triggered: the move starts with [stepsTaken = 0] and
    [totalSteps = steps], in ACCEL when [accelSteps > 0] and in CONST
    otherwise; every tick either leaves the axis as it is or takes one step,
    which adds one to [stepsTaken] and one step in the commanded direction
    to the position; from tick to tick the phase stays the same or advances
    by one (ACCEL to CONST, CONST to DECEL); and if the axis is inactive at
    the end of the run, then [stepsTaken] equals [totalSteps = steps], the
    position is the starting position plus [steps] (direction 1) or minus
    [steps] (direction 0), and the phases it went through are ACCEL, CONST,
    DECEL in that order when [0 < accelSteps < totalSteps], CONST, DECEL
    when [accelSteps = 0], and ACCEL, CONST when [accelSteps = totalSteps].
    With acceleration and deceleration both positive and [steps >= 2] the
    first case applies. *)
Theorem C6_phase_order now id steps dir v s ticks :
  useAcceleration s = true -> 0 < acceleration s \/ 0 < deceleration s ->
  dir = 0 \/ dir = 1 -> 0 < steps <= INT_MAX -> is_int (position s) ->
  is_int (position s + (if dir =? 1 then steps else - steps)) ->
  let s0 := (moveStepper now id steps dir v s).1 in
  Forall (fun t => readLimitSwitch (tick_pins t) (guardPin s0) = false) ticks ->
  let trace := s0 :: history id ticks s0 in
  totalSteps s0 = steps /\ stepsTaken s0 = 0 /\ 0 <= accelSteps s0 <= steps /\
  movePhase s0 = (if 0 <? accelSteps s0 then 0 else 1) /\
  Stepwise (negb (dir =? 0)) s0 (history id ticks s0) /\
  climbs (movePhase s0) (map movePhase (history id ticks s0)) /\
  (forall s', last trace = Some s' -> active s' = false ->
     stepsTaken s' = steps /\
     position s' = position s + (if dir =? 1 then steps else - steps) /\
     changes (map movePhase trace) =
       (if accelSteps s0 =? 0 then [1; 2]
        else if accelSteps s0 =? steps then [0; 1] else [0; 1; 2])) /\
  (0 < acceleration s -> 0 < deceleration s -> 2 <= steps -> 0 < accelSteps s0 < steps).
Proof.
  intros Hu Had Hdir Hsteps Hpos Hend s0 Hl trace.
  destruct (moveStepper_Moving_any now id steps dir v s Hu Had Hdir Hsteps Hpos Hend)
    as (ET & Eph & Ek & Hacc & Hd & Hunit & Hm).
  fold s0 in ET, Eph, Ek, Hacc, Hd, Hm.
  assert (Hend' : is_int (position s + stepUnit (negb (dir =? 0)) * steps))
    by (rewrite Hunit; exact Hend).
  destruct (Moving_history (position s) steps (accelSteps s0) (decelSteps s0)
              (negb (dir =? 0)) Hpos Hend' (proj2 Hsteps) Hacc Hd id ticks s0 Hm Hl)
    as (Hall & Hclimb & Hstepwise).
  split; [exact ET|]. split; [exact Ek|]. split; [exact Hacc|]. split; [exact Eph|].
  split; [exact Hstepwise|]. split; [exact Hclimb|]. split.
  - intros s' Hlast Hinact.
    assert (Hm' : Moving (position s) steps (accelSteps s0) (decelSteps s0)
                    (negb (dir =? 0)) s').
    { rewrite Forall_forall in Hall. apply Hall.
      apply (last_Some_elem_of _ _ Hlast). }
    destruct (Moving_complete _ _ _ _ _ Hacc Hd s' Hm' Hinact) as (P2 & K & Pos).
    split; [exact K|]. split; [rewrite Pos, Hunit; reflexivity|].
    pose proof (last_map_Some movePhase _ _ Hlast) as Hlm.
    subst trace. simpl map in Hlm |- *. rewrite P2 in Hlm. rewrite Eph in Hclimb, Hlm |- *.
    destruct (accelSteps s0 =? 0) eqn:E0.
    + assert (E1 : (0 <? accelSteps s0) = false) by lia.
      assert (E2 : (accelSteps s0 =? steps) = false) by lia.
      rewrite E1 in Hclimb, Hlm |- *. rewrite E2 in Hlm.
      apply (changes_climbs_1 _ 1); assumption.
    + assert (E1 : (0 <? accelSteps s0) = true) by lia.
      rewrite E1 in Hclimb, Hlm |- *.
      destruct (accelSteps s0 =? steps) eqn:E2.
      * apply (changes_climbs_1 _ 0); assumption.
      * apply (changes_climbs_2 _ 0); assumption.
  - intros Ha Hdec H2.
    pose proof (moveStepper_both_ramps now id steps dir v s Hu Ha Hdec Hdir
                  (conj H2 (proj2 Hsteps)) Hpos Hend) as Hb.
    cbv zeta in Hb. fold s0 in Hb. rewrite ET in Hb. exact Hb.
Qed.

Lemma C6_phase_order_witness :
  let s0 := (moveStepper 0 0 30 1 500 both_ramps).1 in
  let trace := s0 :: history 0 thirty_two_ticks s0 in
  let s' := (runStepper 0 thirty_two_ticks s0).1 in
  stepsTaken s' = 30 /\ position s' = 0 + 30 /\ changes (map movePhase trace) = [0; 1; 2].
Proof.
  cbv zeta.
  refine (proj1 (proj2 (proj2 (proj2 (proj2 (proj2 (proj2
    (C6_phase_order 0 0 30 1 500 both_ramps thirty_two_ticks eq_refl
       (or_introl eq_refl) (or_intror eq_refl) _ _ _ _)))))))
    (runStepper 0 thirty_two_ticks (moveStepper 0 0 30 1 500 both_ramps).1).1 _ _).
  - unfold INT_MAX. lia.
  - vm_compute. split; discriminate.
  - vm_compute. split; discriminate.
  - unfold thirty_two_ticks. apply Forall_forall. intros t Ht.
    apply list_elem_of_In, in_map_iff in Ht. destruct Ht as (k & <- & _). reflexivity.
  - vm_compute. reflexivity.
  - vm_compute. reflexivity.
Defined.

(* ------------------------------------------------------------------------- *)
(** ** Scheduler: what a tick leaves alone *)

Lemma sameSetup_refl s : sameSetup s s.
Proof. unfold sameSetup. repeat split; reflexivity. Qed.

Lemma sameSetup_trans a b c : sameSetup a b -> sameSetup b c -> sameSetup a c.
Proof. unfold sameSetup. intros H1 H2. intuition congruence. Qed.

Lemma profileStep_sameSetup i s : sameSetup s (profileStep i s).
Proof.
  unfold sameSetup, profileStep. cbv zeta. simpl.
  repeat match goal with |- context [if ?b then _ else _] => destruct b end;
  simpl; repeat split; reflexivity.
Qed.

Lemma advanced_sameSetup now i s : sameSetup s (advanced now i s).
Proof.
  unfold advanced. destruct (useAcceleration s).
  - eapply sameSetup_trans; [|apply profileStep_sameSetup].
    unfold sameSetup, stepped. simpl. repeat split; reflexivity.
  - unfold sameSetup, stepped. simpl. repeat split; reflexivity.
Qed.

Lemma updateStepper_sameSetup now rd i s : sameSetup s (updateStepper now rd i s).1.
Proof.
  destruct (Branch_total now rd s) as [Hs | ? ? ? ? | ? ? ? ? | ? ? ? ? ? | ? ? ? ? ? | ? ? ? ? ?].
  - rewrite updateStepper_idle by assumption. apply sameSetup_refl.
  - rewrite updateStepper_limit by assumption. unfold sameSetup. simpl. repeat split; reflexivity.
  - rewrite updateStepper_wait by assumption. apply sameSetup_refl.
  - rewrite updateStepper_homed by assumption. unfold sameSetup. simpl. repeat split; reflexivity.
  - rewrite updateStepper_homing_step by assumption. unfold sameSetup. simpl. repeat split; reflexivity.
  - rewrite updateStepper_move by assumption. cbv zeta.
    pose proof (advanced_sameSetup now i s) as Hk.
    destruct (position _ =? target _); simpl; [|exact Hk].
    unfold sameSetup in *. simpl. exact Hk.
Qed.

Lemma runStepper_sameSetup i ticks : forall s, sameSetup s (runStepper i ticks s).1.
Proof.
  induction ticks as [|t ticks IH]; intros s; simpl; [apply sameSetup_refl|].
  eapply sameSetup_trans; [apply updateStepper_sameSetup | apply IH].
Qed.

(** X1.  The scheduler never changes the configuration of an axis: after
    any number of ticks the pins, the travel limits, the target, the
    direction, the pause flag, the speed, the acceleration settings, the
    delay bounds and the phase lengths of the move are what they were. *)
Theorem scheduler_keeps_setup ticks (st : Steppers) (i : nat) s :
  length st = Z.to_nat MAX_STEPPERS -> st !! i = Some s ->
  exists s', (run ticks st).1 !! i = Some s' /\ sameSetup s s'.
Proof.
  intros Hlen Hi. destruct (run_axis ticks st i s Hlen Hi) as (E & _).
  eexists. split; [exact E | apply runStepper_sameSetup].
Qed.

Lemma scheduler_keeps_setup_witness :
  exists s', (run thirty_two_ticks [ramping_up; seeking_home]).1 !! 1%nat = Some s' /\
             sameSetup seeking_home s'.
Proof.
  exact (scheduler_keeps_setup thirty_two_ticks [ramping_up; seeking_home] 1 seeking_home
           eq_refl eq_refl).
Defined.

(** X2.  The scheduler does nothing for axes that are inactive or paused:
    when every axis is, a run of ticks leaves the array as it is and writes
    nothing, neither to a pin nor to the serial port. *)
Theorem idle_axes_untouched ticks (st : Steppers) :
  length st = Z.to_nat MAX_STEPPERS ->
  Forall (fun s => active s = false \/ paused s = true) st ->
  run ticks st = (st, []).
Proof.
  intros Hlen Hall. destruct (Steppers_two st Hlen) as (s0 & s1 & ->).
  inversion Hall as [|? ? H0 Hall']; subst. inversion Hall' as [|? ? H1 _]; subst.
  induction ticks as [|t ticks IH]; [reflexivity|].
  cbn [run]. rewrite updateSteppers_two.
  rewrite !updateStepper_idle by assumption. simpl. rewrite IH. reflexivity.
Qed.

Lemma idle_axes_untouched_witness : run three_ticks setup_steppers = (setup_steppers, []).
Proof.
  apply (idle_axes_untouched three_ticks setup_steppers eq_refl).
  repeat constructor.
Defined.

Lemma readLimitSwitch_ext rd rd' p : rd p = rd' p -> readLimitSwitch rd p = readLimitSwitch rd' p.
Proof. unfold readLimitSwitch. intros ->. reflexivity. Qed.

Lemma updateStepper_watched now rd rd' i s :
  rd (watchedPin s) = rd' (watchedPin s) ->
  updateStepper now rd i s = updateStepper now rd' i s.
Proof.
  unfold watchedPin. intros E.
  destruct (Branch_total now rd s) as [Hs | Ha Hp Hh Hl | Ha Hp Hl Hd | Ha Hp Hh Hd Hl
                                      | Ha Hp Hh Hd Hl | Ha Hp Hh Hl Hd].
  - rewrite !updateStepper_idle by assumption. reflexivity.
  - rewrite Hh in E. rewrite !updateStepper_limit; try assumption; [reflexivity|].
    rewrite <- (readLimitSwitch_ext rd rd' _ E). exact Hl.
  - rewrite !updateStepper_wait; try assumption; [reflexivity|].
    destruct Hl as [Hl | Hl]; [left; exact Hl|].
    destruct (homing s) eqn:Hh; [left; reflexivity|].
    right. rewrite <- (readLimitSwitch_ext rd rd' _ E). exact Hl.
  - rewrite Hh in E. rewrite !updateStepper_homed; try assumption; [reflexivity|].
    rewrite <- E. exact Hl.
  - rewrite Hh in E. rewrite !updateStepper_homing_step; try assumption; [reflexivity|].
    rewrite <- E. exact Hl.
  - rewrite Hh in E. rewrite !updateStepper_move; try assumption; [reflexivity|].
    rewrite <- (readLimitSwitch_ext rd rd' _ E). exact Hl.
Qed.

(** X3.  A homing axis is not protected by the limit switches: what a tick
    does to it depends on the input pins through the home switch alone, so
    with the home switch open the axis takes its step when one is due
    although both limit switches read triggered. *)
Theorem homing_ignores_limits now rd rd' i s :
  homing s = true -> rd (home s) = rd' (home s) ->
  updateStepper now rd i s = updateStepper now rd' i s /\
  (active s = true -> paused s = false -> stepDue now s = true -> rd (home s) = HIGH ->
   updateStepper now rd i s = (stepped now s, stepPulse s)).
Proof.
  intros Hh E. split.
  - apply updateStepper_watched. unfold watchedPin. rewrite Hh. exact E.
  - intros Ha Hp Hd Hl. apply updateStepper_homing_step; assumption.
Qed.

Lemma homing_ignores_limits_witness :
  updateStepper 1000 limits_closed 0 wired_homing
    = updateStepper 1000 (fun _ => HIGH) 0 wired_homing /\
  updateStepper 1000 limits_closed 0 wired_homing
    = (stepped 1000 wired_homing, stepPulse wired_homing).
Proof.
  destruct (homing_ignores_limits 1000 limits_closed (fun _ => HIGH) 0 wired_homing
              eq_refl eq_refl) as [H1 H2].
  split; [exact H1 | apply H2; reflexivity].
Defined.

(** X4.  For an axis that is not homing, a tick reads only the limit switch
    that guards the travel direction: the opposite limit switch and the
    home switch have no effect on what the tick does. *)
Theorem move_reads_guard_only now rd rd' i s :
  homing s = false -> rd (guardPin s) = rd' (guardPin s) ->
  updateStepper now rd i s = updateStepper now rd' i s.
Proof.
  intros Hh E. apply updateStepper_watched. unfold watchedPin. rewrite Hh. exact E.
Qed.

Lemma move_reads_guard_only_witness :
  updateStepper 1000 only_limit_a_open 0 wired_moving
    = updateStepper 1000 (fun _ => HIGH) 0 wired_moving.
Proof.
  exact (move_reads_guard_only 1000 only_limit_a_open (fun _ => HIGH) 0 wired_moving
           eq_refl eq_refl).
Defined.

(* ------------------------------------------------------------------------- *)
(** ** Reachable states *)

Lemma Reachable_initial : Reachable initial_stepper.
Proof. unfold Reachable. simpl. repeat split; discriminate. Qed.

Lemma Reachable_updateStepper now rd i s : Reachable s -> Reachable (updateStepper now rd i s).1.
Proof.
  intros (Hp & Hu & Hh).
  pose proof (updateStepper_sameSetup now rd i s)
    as (_ & _ & _ & _ & _ & _ & _ & _ & _ & Et & Ed & Epa & _ & Ea & Ede & _ & _ & Eu & _).
  unfold Reachable. rewrite Epa, Eu, Ea, Ede, Et, Ed.
  split; [exact Hp|]. split; [exact Hu|].
  destruct (Branch_total now rd s) as [Hs | Ha Hp' Hh' Hl | Ha Hp' Hl Hd | Ha Hp' Hh' Hd Hl
                                      | Ha Hp' Hh' Hd Hl | Ha Hp' Hh' Hl Hd].
  - rewrite updateStepper_idle by assumption. simpl. exact Hh.
  - rewrite updateStepper_limit by assumption. simpl. rewrite Hh'. discriminate.
  - rewrite updateStepper_wait by assumption. simpl. exact Hh.
  - rewrite updateStepper_homed by assumption. simpl. discriminate.
  - rewrite updateStepper_homing_step by assumption. simpl. intros _.
    destruct (Hh Hh') as (_ & H2 & H3). rewrite Ha. auto.
  - rewrite updateStepper_move by assumption. cbv zeta.
    destruct (advanced_fixed now i s) as (F1 & _).
    destruct (position _ =? target _); simpl; rewrite F1, Hh'; discriminate.
Qed.

(** The fields a move command sets, on either branch. *)
Lemma moveStepper_flags now id steps dir v s :
  let s' := (moveStepper now id steps dir v s).1 in
  paused s' = false /\ homing s' = false /\ active s' = true /\
  acceleration s' = acceleration s /\ deceleration s' = deceleration s /\
  useAcceleration s' = useAcceleration s /\ direction s' = negb (dir =? 0) /\
  target s' = iadd (position s) (if dir =? 1 then steps else ineg steps) /\
  position s' = position s /\ speed s' = v /\ lastStepTime s' = now /\
  limitA s' = limitA s /\ limitB s' = limitB s /\ home s' = home s.
Proof.
  unfold moveStepper. fields.
  destruct (useAcceleration s && ((0 <? acceleration s) || (0 <? deceleration s))).
  - match goal with
    | |- context [startAcceleratedMove id ?t v ?r] =>
        pose proof (startAcceleratedMove_fields id t v r) as F;
        pose proof (startAcceleratedMove_wiring id t v r) as W;
        destruct (startAcceleratedMove id t v r) as [s1 o1]
    end.
    cbv zeta in F, W. fields.
    destruct F as (_ & _ & Fs & Fa & Fp & _ & _ & _ & _ & Fpos & Ft & Fh & Fd & Fu & _ & _ & Fac & Fde).
    destruct W as (WA & WB & WH & _).
    rewrite Fs, Fa, Fp, Fpos, Ft, Fh, Fd, Fu, Fac, Fde, WA, WB, WH.
    repeat split; reflexivity.
  - fields. repeat split; reflexivity.
Qed.

Lemma Reachable_moveStepper now id steps dir v s :
  Reachable s -> Reachable (moveStepper now id steps dir v s).1.
Proof.
  intros (Hp & Hu & Hh).
  destruct (moveStepper_flags now id steps dir v s)
    as (F1 & F2 & _ & F4 & F5 & F6 & _).
  unfold Reachable. rewrite F1, F2, F4, F5, F6.
  split; [reflexivity|]. split; [exact Hu | discriminate].
Qed.

Lemma Reachable_homeStepper now sp s : Reachable s -> Reachable (homeStepper now sp s).1.
Proof.
  intros (Hp & Hu & Hh). unfold Reachable, homeStepper. fields.
  split; [reflexivity|]. split; [exact Hu|]. intros _. repeat split; reflexivity.
Qed.

Lemma Reachable_initStepper id a b c d e f g h s :
  Reachable s -> Reachable (initStepper id a b c d e f g h s).1.
Proof.
  intros (Hp & Hu & Hh). unfold Reachable, initStepper. destruct h; fields.
  - split; [reflexivity|]. split; [exact Hu | discriminate].
  - split; [reflexivity|]. split; [exact Hu | discriminate].
Qed.

Lemma Reachable_setAcceleration v s : Reachable s -> Reachable (setAcceleration v s).
Proof.
  intros (Hp & Hu & Hh). unfold Reachable, setAcceleration. fields.
  split; [exact Hp|]. split; [reflexivity | exact Hh].
Qed.

Lemma Reachable_setDeceleration v s : Reachable s -> Reachable (setDeceleration v s).
Proof.
  intros (Hp & Hu & Hh). unfold Reachable, setDeceleration. fields.
  split; [exact Hp|]. split; [reflexivity | exact Hh].
Qed.

Lemma Reachable_setSpeedLimits lo hi s : Reachable s -> Reachable (setSpeedLimits lo hi s).
Proof.
  intros (Hp & Hu & Hh). unfold Reachable, setSpeedLimits. fields.
  split; [exact Hp|]. split; [exact Hu | exact Hh].
Qed.

Lemma Forall_insert_list {A} (P : A -> Prop) (l : list A) i x :
  Forall P l -> P x -> Forall P (<[i := x]> l).
Proof.
  revert i. induction l as [|y l IH]; intros i Hl Hx; [constructor|].
  inversion Hl; subst. destruct i; simpl; constructor; auto.
Qed.

Lemma onStepper_Forall (P : StepperConfig -> Prop) id (st st' : Steppers) f out :
  (forall s, P s -> P (f s).1) -> Forall P st ->
  onStepper id st f = Done st' out -> Forall P st' /\ length st' = length st.
Proof.
  intros Hf Hst. unfold onStepper.
  destruct ((0 <=? id) && (id <? MAX_STEPPERS)); [|discriminate].
  destruct (st !! Z.to_nat id) as [s|] eqn:Hs; [|discriminate].
  intros E. inversion E; subst. split; [|apply length_insert].
  apply Forall_insert_list; [exact Hst|]. apply Hf.
  rewrite Forall_forall in Hst. apply Hst. eapply list_elem_of_lookup_2. exact Hs.
Qed.

Lemma readStepper_same id (st st' : Steppers) f out :
  readStepper id st f = Done st' out -> st' = st.
Proof.
  unfold readStepper. destruct ((0 <=? id) && (id <? MAX_STEPPERS)); [|discriminate].
  destruct (st !! Z.to_nat id); [|discriminate]. intros E. inversion E. reflexivity.
Qed.

Lemma handleCommand_Reachable now rd c (st st' : Steppers) out :
  Forall Reachable st -> handleCommand now rd c st = Done st' out ->
  Forall Reachable st' /\ length st' = length st.
Proof.
  intros Hst. destruct c; simpl.
  - apply onStepper_Forall; [|exact Hst]. intros s. apply Reachable_initStepper.
  - destruct (id <? MAX_STEPPERS).
    + apply onStepper_Forall; [|exact Hst]. intros s. apply Reachable_moveStepper.
    + intros E. inversion E; subst. auto.
  - apply onStepper_Forall; [|exact Hst]. intros s. apply Reachable_homeStepper.
  - destruct (validId id).
    + apply onStepper_Forall; [|exact Hst]. intros s. apply Reachable_setAcceleration.
    + intros E. inversion E; subst. auto.
  - destruct (validId id).
    + apply onStepper_Forall; [|exact Hst]. intros s. apply Reachable_setDeceleration.
    + intros E. inversion E; subst. auto.
  - destruct (validId id).
    + apply onStepper_Forall; [|exact Hst]. intros s. apply Reachable_setSpeedLimits.
    + intros E. inversion E; subst. auto.
  - destruct (validId id).
    + intros E. apply readStepper_same in E. subst. auto.
    + intros E. inversion E; subst. auto.
  - destruct (validId _).
    + intros E. apply readStepper_same in E. subst. auto.
    + intros E. inversion E; subst. auto.
Qed.

Lemma updateSteppers_Reachable now rd (st : Steppers) :
  length st = Z.to_nat MAX_STEPPERS -> Forall Reachable st ->
  Forall Reachable (updateSteppers now rd st).1.
Proof.
  intros Hlen Hst. destruct (Steppers_two st Hlen) as (s0 & s1 & ->).
  rewrite updateSteppers_two. simpl.
  inversion Hst as [|? ? H0 Hst']; subst. inversion Hst' as [|? ? H1 _]; subst.
  repeat constructor; apply Reachable_updateStepper; assumption.
Qed.

Lemma session_Reachable ins : forall (st st' : Steppers) out,
  length st = Z.to_nat MAX_STEPPERS -> Forall Reachable st ->
  session ins st = Done st' out ->
  Forall Reachable st' /\ length st' = Z.to_nat MAX_STEPPERS.
Proof.
  induction ins as [|x ins IH]; intros st st' out Hlen Hst E; simpl in E.
  - inversion E; subst. auto.
  - destruct (feed x st) as [st1 o1|] eqn:E1; [|discriminate].
    destruct (session ins st1) as [st2 o2|] eqn:E2; [|discriminate].
    inversion E; subst.
    apply (IH st1 st' o2); [| |exact E2].
    + destruct x; simpl in E1.
      * apply (handleCommand_Reachable _ _ _ _ _ _ Hst) in E1. lia.
      * inversion E1; subst. apply updateSteppers_length. exact Hlen.
    + destruct x; simpl in E1.
      * apply (handleCommand_Reachable _ _ _ _ _ _ Hst) in E1. tauto.
      * inversion E1; subst. apply updateSteppers_Reachable; assumption.
Qed.

Lemma setup_Reachable : Forall Reachable setup_steppers.
Proof.
  unfold setup_steppers.
  constructor; [apply Reachable_initial|]. constructor; [apply Reachable_initial|]. constructor.
Qed.

(** X5.  No code path sets [paused]: in every state the firmware reaches
    from [setup()] through commands and scheduler ticks, [paused] is false
    on every axis, so the scheduler's pause test never holds an axis back
    and the [moving] flag of a status report is the [active] flag. *)
Theorem paused_never_set ins (st : Steppers) out :
  session ins setup_steppers = Done st out ->
  Forall (fun s => paused s = false) st /\
  (forall rd id s, st !! Z.to_nat id = Some s ->
     sendPinStates rd id s =
     [Serial (pin_states id (readLimitSwitch rd (limitA s)) (readLimitSwitch rd (limitB s))
                (readLimitSwitch rd (home s)) (position s) (active s))]).
Proof.
  intros E.
  destruct (session_Reachable ins setup_steppers st out eq_refl setup_Reachable E) as (H & _).
  assert (Hp : Forall (fun s => paused s = false) st).
  { eapply Forall_impl; [exact H|]. intros s Hs. apply Hs. }
  split; [exact Hp|].
  intros rd id s Hs. unfold sendPinStates.
  rewrite Forall_forall in Hp. rewrite (Hp s) by (eapply list_elem_of_lookup_2; exact Hs).
  rewrite andb_true_r. reflexivity.
Qed.

Lemma paused_never_set_witness :
  exists st out, session sample_session setup_steppers = Done st out /\
    Forall (fun s => paused s = false) st.
Proof.
  eexists _, _. split; [vm_compute; reflexivity|].
  eapply (fun o H => proj1 (paused_never_set sample_session _ o H)).
  vm_compute. reflexivity.
Defined.

(** X6.  [useAcceleration] is a derived flag in every reachable state: it
    is true exactly when [acceleration > 0] or [deceleration > 0], so the
    second half of the test a move command makes before it starts a
    profile ([acceleration > 0 || deceleration > 0]) never decides. *)
Theorem useAcceleration_derived ins (st : Steppers) out :
  session ins setup_steppers = Done st out ->
  Forall (fun s => useAcceleration s = ((0 <? acceleration s) || (0 <? deceleration s)) /\
                   useAcceleration s && ((0 <? acceleration s) || (0 <? deceleration s))
                   = useAcceleration s) st.
Proof.
  intros E.
  destruct (session_Reachable ins setup_steppers st out eq_refl setup_Reachable E) as (H & _).
  eapply Forall_impl; [exact H|]. intros s (_ & Hu & _).
  split; [exact Hu|]. rewrite <- Hu. apply andb_diag.
Qed.

Lemma useAcceleration_derived_witness :
  exists st out, session sample_session setup_steppers = Done st out /\
    Forall (fun s => useAcceleration s = ((0 <? acceleration s) || (0 <? deceleration s)) /\
                     useAcceleration s && ((0 <? acceleration s) || (0 <? deceleration s))
                     = useAcceleration s) st.
Proof.
  eexists _, _. split; [vm_compute; reflexivity|].
  eapply (useAcceleration_derived sample_session).
  vm_compute. reflexivity.
Defined.

(** X7.  In every reachable state a homing axis is active, travels
    backward and has the target [-999999] of the home command. *)
Theorem homing_axis_shape ins (st : Steppers) out :
  session ins setup_steppers = Done st out ->
  Forall (fun s => homing s = true ->
                   active s = true /\ direction s = false /\ target s = -999999) st.
Proof.
  intros E.
  destruct (session_Reachable ins setup_steppers st out eq_refl setup_Reachable E) as (H & _).
  eapply Forall_impl; [exact H|]. intros s (_ & _ & Hh). exact Hh.
Qed.

Lemma homing_axis_shape_witness :
  exists st out, session sample_session setup_steppers = Done st out /\
    Forall (fun s => homing s = true ->
                     active s = true /\ direction s = false /\ target s = -999999) st /\
    Exists (fun s => homing s = true) st.
Proof.
  eexists _, _. split; [vm_compute; reflexivity|]. split.
  - eapply (homing_axis_shape sample_session). vm_compute. reflexivity.
  - right. left. reflexivity.
Defined.

(* ------------------------------------------------------------------------- *)
(** ** Timing, events and commands *)

Lemma u32_elapsed t0 e : 0 <= e < 2 ^ 32 -> u32 (u32 (t0 + e) - u32 t0) = e.
Proof.
  intros He. unfold u32.
  rewrite Zminus_mod_idemp_l, Zminus_mod_idemp_r.
  replace (t0 + e - t0) with e by lia. apply Z.mod_small. exact He.
Qed.

(** X8.  The elapsed time is computed on the 32-bit microsecond clock and
    survives its roll-over: with the last step at clock value [t0 mod 2^32]
    and the tick [e < 2^32] microseconds later, a step is due exactly when
    [e] has reached the delay.  A negative delay is compared as the
    unsigned number [2^32 + delay]. *)
Theorem step_due_across_rollover t0 e s :
  lastStepTime s = u32 t0 -> 0 <= e < 2 ^ 32 -> is_int (effectiveDelay s) ->
  stepDue (u32 (t0 + e)) s =
  (if effectiveDelay s <? 0 then 2 ^ 32 + effectiveDelay s <=? e else effectiveDelay s <=? e).
Proof.
  intros Hl He Hd. unfold stepDue. rewrite Hl, u32_elapsed by exact He.
  unfold is_int, INT_MIN, INT_MAX in Hd. unfold u32.
  destruct (effectiveDelay s <? 0) eqn:Hn.
  - replace (effectiveDelay s mod 2 ^ 32) with (2 ^ 32 + effectiveDelay s); [reflexivity|].
    apply (Z.mod_unique _ _ (-1)); lia.
  - rewrite Z.mod_small by lia. reflexivity.
Qed.

Lemma step_due_across_rollover_witness :
  stepDue (u32 (4294967000 + 1000)) (wired_homing <| lastStepTime_ := 4294967000 |>) = true /\
  stepDue (u32 (4294967000 + 999)) (wired_homing <| lastStepTime_ := 4294967000 |>) = false.
Proof.
  split.
  - exact (step_due_across_rollover 4294967000 1000
             (wired_homing <| lastStepTime_ := 4294967000 |>) eq_refl
             ltac:(lia) ltac:(vm_compute; split; discriminate)).
  - exact (step_due_across_rollover 4294967000 999
             (wired_homing <| lastStepTime_ := 4294967000 |>) eq_refl
             ltac:(lia) ltac:(vm_compute; split; discriminate)).
Defined.

Lemma In_disableDriver o s :
  In o (disableDriver s) -> o = digitalWrite (enablePin s) HIGH.
Proof.
  unfold disableDriver.
  destruct (enableConfigured s); simpl; [intros [H | []]; congruence | intros []].
Qed.

(** X9.  What the scheduler reports is what it did: a move-complete event
    of a tick is about the axis of that iteration and carries the target of
    the move, or 0 when it ends a home-seek; a limit-hit event carries the
    position the axis had before the tick. *)
Theorem events_report_position now rd i s (m : SerialMsg) :
  In (Serial m) (updateStepper now rd i s).2 ->
  (m = stepper_done i (if homing s then 0 else target s) /\
   position (updateStepper now rd i s).1 = (if homing s then 0 else target s) /\
   active (updateStepper now rd i s).1 = false) \/
  (m = limit_hit i (guardName s) (position s) /\ homing s = false /\
   position (updateStepper now rd i s).1 = position s /\
   active (updateStepper now rd i s).1 = false).
Proof.
  destruct (Branch_total now rd s) as [Hs | Ha Hp Hh Hl | Ha Hp Hl Hd | Ha Hp Hh Hd Hl
                                      | Ha Hp Hh Hd Hl | Ha Hp Hh Hl Hd].
  - rewrite updateStepper_idle by assumption. intros [].
  - rewrite updateStepper_limit by assumption. simpl. intros H.
    apply in_app_or in H. destruct H as [H | [H | []]].
    + apply In_disableDriver in H. discriminate.
    + inversion H; subst. right. auto.
  - rewrite updateStepper_wait by assumption. intros [].
  - rewrite updateStepper_homed by assumption. simpl. rewrite Hh. intros [H | [H | H]];
      try discriminate.
    apply in_app_or in H. destruct H as [H | [H | []]].
    + apply In_disableDriver in H. discriminate.
    + inversion H; subst. left. auto.
  - rewrite updateStepper_homing_step by assumption. simpl.
    intros [H | [H | []]]; discriminate.
  - rewrite updateStepper_move by assumption. cbv zeta. rewrite Hh.
    destruct (position _ =? target _) eqn:E; simpl.
    + intros [H | [H | H]]; try discriminate.
      apply in_app_or in H. destruct H as [H | [H | []]].
      * apply In_disableDriver in H. discriminate.
      * inversion H; subst. left.
        destruct (advanced_fixed now i s) as (_ & _ & _ & _ & F5 & _).
        apply Z.eqb_eq in E. rewrite E, F5. auto.
    + intros [H | [H | []]]; discriminate.
Qed.

Lemma events_report_position_witness :
  (stepper_done 0 0 = stepper_done 0 (if homing wired_homing then 0 else target wired_homing) /\
   position (updateStepper 1000 (fun _ => LOW) 0 wired_homing).1
     = (if homing wired_homing then 0 else target wired_homing) /\
   active (updateStepper 1000 (fun _ => LOW) 0 wired_homing).1 = false) \/
  (stepper_done 0 0 = limit_hit 0 (guardName wired_homing) (position wired_homing) /\
   homing wired_homing = false /\
   position (updateStepper 1000 (fun _ => LOW) 0 wired_homing).1 = position wired_homing /\
   active (updateStepper 1000 (fun _ => LOW) 0 wired_homing).1 = false).
Proof.
  apply (events_report_position 1000 (fun _ => LOW) 0 wired_homing (stepper_done 0 0)).
  vm_compute. auto.
Defined.

Lemma insert_lookup_other (st : Steppers) (i j : nat) s : j <> i -> <[i := s]> st !! j = st !! j.
Proof. intros H. apply list_lookup_insert_ne. auto. Qed.

Lemma onStepper_other id (st st' : Steppers) f out :
  onStepper id st f = Done st' out ->
  length st' = length st /\ forall j, j <> Z.to_nat id -> st' !! j = st !! j.
Proof.
  unfold onStepper. destruct ((0 <=? id) && (id <? MAX_STEPPERS)); [|discriminate].
  destruct (st !! Z.to_nat id); [|discriminate].
  intros E. inversion E; subst. split; [apply length_insert|].
  intros j Hj. apply insert_lookup_other. exact Hj.
Qed.

(** X10.  A command touches the axis it names and no other: whenever a
    command returns, every other record of the array is what it was, and
    the array keeps its length. *)
Theorem command_touches_one_axis now rd c (st st' : Steppers) out (j : nat) :
  handleCommand now rd c st = Done st' out -> j <> Z.to_nat (commandAxis c) ->
  st' !! j = st !! j /\ length st' = length st.
Proof.
  intros E Hj.
  assert (G : length st' = length st /\
              forall k, k <> Z.to_nat (commandAxis c) -> st' !! k = st !! k).
  { destruct c; simpl in E, Hj |- *;
      repeat match type of E with
             | (if ?b then _ else _) = _ => destruct b
             end;
      first [ apply onStepper_other in E; exact E
            | apply readStepper_same in E; subst; auto
            | inversion E; subst; auto ]. }
  destruct G as (G1 & G2). split; [apply G2; exact Hj | exact G1].
Qed.

Lemma command_touches_one_axis_witness :
  exists st' out,
    handleCommand 0 (fun _ => HIGH) (home_stepper 1 None) [wired_axis; initial_stepper]
      = Done st' out /\
    st' !! 0%nat = Some wired_axis.
Proof.
  eexists _, _. split; [vm_compute; reflexivity|].
  refine (proj1 (command_touches_one_axis 0 (fun _ => HIGH) (home_stepper 1 None)
                   [wired_axis; initial_stepper] _ _ 0%nat _ _)).
  - vm_compute. reflexivity.
  - vm_compute. discriminate.
Defined.

(* ------------------------------------------------------------------------- *)
(** ** Initialisation *)

Lemma initStepper_fields id a b c d e f g h s :
  let s' := (initStepper id a b c d e f g h s).1 in
  position s' = 0 /\ active s' = false /\ paused s' = false /\ homing s' = false /\
  stepPin s' = a /\ dirPin s' = b /\ limitA s' = c /\ limitB s' = d /\ home s' = e /\
  minLimit s' = f /\ maxLimit s' = g /\
  enableConfigured s' = (match h with Some _ => true | None => false end) /\
  enablePin s' = (match h with Some p => p | None => enablePin s end) /\
  acceleration s' = acceleration s /\ deceleration s' = deceleration s /\
  useAcceleration s' = useAcceleration s /\ minDelay s' = minDelay s /\
  maxDelay s' = maxDelay s /\ target s' = target s /\ speed s' = speed s /\
  currentDelay s' = currentDelay s.
Proof. unfold initStepper. destruct h; fields; repeat split; reflexivity. Qed.

Lemma runStepper_idle i ticks s :
  active s = false \/ paused s = true -> runStepper i ticks s = (s, []).
Proof.
  intros H. induction ticks as [|t ticks IH]; [reflexivity|].
  cbn [runStepper]. rewrite updateStepper_idle by exact H. simpl. rewrite IH. reflexivity.
Qed.

(** X11.  [init_stepper] on a valid axis stops whatever the axis was doing
    without reporting it: the record gets the new pins, position 0 and the
    flags [active], [paused], [homing] cleared, the command prints only its
    acknowledgement, and in every later run of ticks the axis stays as it is
    and nothing is written for it.  The acceleration settings, the delay
    bounds, the speed and the target survive the command. *)
Theorem init_stops_axis now rd (st : Steppers) (i : nat) s a b c d e f g h ticks :
  length st = Z.to_nat MAX_STEPPERS -> st !! i = Some s ->
  exists st' s' out,
    handleCommand now rd (init_stepper (Z.of_nat i) a b c d e f g h) st = Done st' out /\
    st' !! i = Some s' /\
    position s' = 0 /\ active s' = false /\ paused s' = false /\ homing s' = false /\
    acceleration s' = acceleration s /\ deceleration s' = deceleration s /\
    useAcceleration s' = useAcceleration s /\ minDelay s' = minDelay s /\
    maxDelay s' = maxDelay s /\ target s' = target s /\ speed s' = speed s /\
    events_of (Z.of_nat i) out = [] /\ In (Serial (stepper_initialized (Z.of_nat i))) out /\
    (forall p, h = Some p -> In (digitalWrite p HIGH) out) /\
    runStepper (Z.of_nat i) ticks s' = (s', []) /\
    (run ticks st').1 !! i = Some s' /\
    events_of (Z.of_nat i) (run ticks st').2 = [].
Proof.
  intros Hlen Hi.
  destruct (lookup_validId st i s Hlen Hi) as [Hv Hid].
  assert (Hi' : st !! Z.to_nat (Z.of_nat i) = Some s) by (rewrite Hid; exact Hi).
  pose proof (onStepper_valid (Z.of_nat i) st
                (initStepper (Z.of_nat i) a b c d e f g h) s Hv Hi') as Hc.
  rewrite Hid in Hc.
  set (r := initStepper (Z.of_nat i) a b c d e f g h s) in *.
  destruct (initStepper_fields (Z.of_nat i) a b c d e f g h s)
    as (F1 & F2 & F3 & F4 & _ & _ & _ & _ & _ & _ & _ & _ & _ & F5 & F6 & F7 & F8 & F9
        & F10 & F11 & _).
  fold r in F1, F2, F3, F4, F5, F6, F7, F8, F9, F10, F11.
  assert (Hs' : <[i := r.1]> st !! i = Some r.1).
  { apply list_lookup_insert_eq. apply lookup_lt_Some in Hi. exact Hi. }
  assert (Hlen' : length (<[i := r.1]> st) = Z.to_nat MAX_STEPPERS).
  { rewrite length_insert. exact Hlen. }
  pose proof (runStepper_idle (Z.of_nat i) ticks r.1 (or_introl F2)) as Hrun.
  destruct (run_axis ticks _ i r.1 Hlen' Hs') as (E1 & E2).
  rewrite Hrun in E1, E2.
  exists (<[i := r.1]> st), r.1, r.2.
  split; [exact Hc|]. split; [exact Hs'|].
  repeat (split; [assumption|]).
  assert (Hout : r.2 =
            (match h with Some p => [pinMode p OUTPUT; digitalWrite p HIGH] | None => [] end)
            ++ [pinMode a OUTPUT; pinMode b OUTPUT; pinMode e INPUT_PULLUP;
                pinMode c INPUT_PULLUP; pinMode d INPUT_PULLUP]
            ++ [Serial (stepper_initialized (Z.of_nat i))]).
  { subst r. unfold initStepper. destruct h; reflexivity. }
  split; [rewrite Hout; destruct h; reflexivity|].
  split; [rewrite Hout; apply in_or_app; right; apply in_or_app; right; left; reflexivity|].
  split; [intros p ->; rewrite Hout; simpl; auto|].
  split; [exact Hrun|]. split; [exact E1 | exact E2].
Qed.

Lemma init_stops_axis_witness :
  exists st' s' out,
    handleCommand 0 (fun _ => HIGH) (init_stepper 0 25 26 32 33 34 0 1000 (Some 27))
      [ramping_up; initial_stepper] = Done st' out /\
    st' !! 0%nat = Some s' /\ position s' = 0 /\ active s' = false /\
    acceleration s' = 500 /\ runStepper 0 three_ticks s' = (s', []).
Proof.
  destruct (init_stops_axis 0 (fun _ => HIGH) [ramping_up; initial_stepper] 0 ramping_up
              25 26 32 33 34 0 1000 (Some 27) three_ticks eq_refl eq_refl)
    as (st' & s' & out & H1 & H2 & H3 & H4 & _ & _ & H5 & _ & _ & _ & _ & _ & _ & _ & _ & _ & H6 & _).
  exists st', s', out. repeat (split; [assumption|]). exact H6.
Defined.

(* ------------------------------------------------------------------------- *)
(** ** Moves that arrive *)

Lemma Cruising_run p0 n v fwd r0 i :
  is_int p0 -> is_int (p0 + stepUnit fwd * n) -> 0 <= v < 2 ^ 32 ->
  forall ticks k t s,
  Cruising p0 n v fwd r0 k t s -> 0 <= k -> k + Z.of_nat (length ticks) = n ->
  0 < Z.of_nat (length ticks) ->
  spaced v t ticks ->
  Forall (fun x => readLimitSwitch (tick_pins x) (guardPin r0) = false) ticks ->
  direction r0 = fwd ->
  let r := runStepper i ticks s in
  active r.1 = false /\ position r.1 = p0 + stepUnit fwd * n /\
  r.2 = pulseTrain r0 (length ticks) ++ disableDriver r0
          ++ [Serial (stepper_done i (p0 + stepUnit fwd * n))].
Proof.
  intros Hp0 Hend Hv.
  induction ticks as [|x ticks IH]; intros k t s Hc Hk Hlen Hpos Hsp Hl Hdir; [simpl in Hpos; lia|].
  destruct Hc as (Ha & Hp & Hh & Hu & Hd & Hs & Ht & Hps & Hlt & W1 & W2 & W3 & W4 & W5).
  destruct Hsp as (Hdue & Hsp). inversion Hl as [|? ? Hl1 Hl2]; subst x0 l.
  assert (Hg : guardPin s = guardPin r0).
  { unfold guardPin. rewrite Hd, Hdir, W4, W5. reflexivity. }
  assert (Hdue' : stepDue (tick_now x) s = true).
  { unfold stepDue, effectiveDelay. rewrite Hu, Hs, Hlt.
    unfold u32 at 1. rewrite Z.mod_small by lia. apply Z.leb_le. exact Hdue. }
  assert (Hclear : readLimitSwitch (tick_pins x) (guardPin s) = false).
  { rewrite Hg. exact Hl1. }
  cbn [runStepper]. cbv zeta.
  rewrite (updateStepper_move (tick_now x) (tick_pins x) i s Ha Hp Hh Hclear Hdue').
  cbv zeta.
  assert (Eadv : advanced (tick_now x) i s = stepped (tick_now x) s).
  { unfold advanced. rewrite Hu. reflexivity. }
  rewrite Eadv.
  assert (Eunit : stepUnit fwd = 1 \/ stepUnit fwd = -1) by (destruct fwd; auto).
  simpl length in Hlen.
  assert (Epos : position (stepped (tick_now x) s) = p0 + stepUnit fwd * (k + 1)).
  { unfold stepped. fields. rewrite Hd, Hps. fold (stepUnit fwd).
    unfold iadd. rewrite wrap32_id; [lia|].
    unfold is_int, INT_MIN, INT_MAX in *. destruct Eunit as [E | E]; rewrite E in *; lia. }
  assert (Etgt : target (stepped (tick_now x) s) = p0 + stepUnit fwd * n) by exact Ht.
  assert (Epulse : stepPulse s = stepPulse r0) by (unfold stepPulse; rewrite W1; reflexivity).
  assert (Edis : disableDriver s = disableDriver r0)
    by (unfold disableDriver; rewrite W2, W3; reflexivity).
  rewrite Epos, Etgt, Epulse, Edis.
  destruct ticks as [|y ticks].
  - simpl in Hlen. assert (En : k + 1 = n) by lia. rewrite En.
    rewrite Z.eqb_refl. cbn [runStepper fst snd]. fields.
    split; [reflexivity|]. split; [rewrite Epos, En; reflexivity|].
    rewrite app_nil_r. reflexivity.
  - assert (Hne : (p0 + stepUnit fwd * (k + 1) =? p0 + stepUnit fwd * n) = false).
    { apply Z.eqb_neq. simpl length in Hlen. destruct Eunit as [E | E]; rewrite E; lia. }
    rewrite Hne. cbn [fst snd].
    assert (Hc' : Cruising p0 n v fwd r0 (k + 1) (tick_now x) (stepped (tick_now x) s)).
    { unfold Cruising. rewrite Epos. unfold stepped. fields.
      repeat split; assumption. }
    destruct (IH (k + 1) (tick_now x) _ Hc' ltac:(lia) ltac:(simpl length in *; lia)
                ltac:(simpl length; lia) Hsp Hl2 Hdir) as (R1 & R2 & R3).
    split; [exact R1|]. split; [exact R2|].
    rewrite R3. change (pulseTrain r0 (length (x :: y :: ticks)))
      with (stepPulse r0 ++ pulseTrain r0 (length (y :: ticks))).
    rewrite <- app_assoc. reflexivity.
Qed.

(** X12.  A constant-speed move always arrives.  After a move command of
    [n > 0] steps with [dir] 0 or 1 on an axis without acceleration, [n]
    ticks that each come at least the commanded delay after the previous
    one, with the limit switch of the travel direction open, give exactly
    [n] step pulses, then the driver is disabled and one move-complete
    event reports the position, which is the start position plus [n]
    ([dir] 1) or minus [n] ([dir] 0); the axis is then inactive. *)
Theorem constant_speed_move_completes now id n dir v s ticks :
  useAcceleration s = false -> dir = 0 \/ dir = 1 -> 0 < n <= INT_MAX ->
  is_int (position s) -> is_int (position s + (if dir =? 1 then n else - n)) ->
  0 <= v < 2 ^ 32 ->
  Z.of_nat (length ticks) = n -> spaced v now ticks ->
  Forall (fun x => readLimitSwitch (tick_pins x)
                     (if dir =? 1 then limitA s else limitB s) = false) ticks ->
  let s0 := (moveStepper now id n dir v s).1 in
  let r := runStepper id ticks s0 in
  active s0 = true /\
  active r.1 = false /\
  position r.1 = position s + (if dir =? 1 then n else - n) /\
  r.2 = pulseTrain s (length ticks) ++ disableDriver s
          ++ [Serial (stepper_done id (position s + (if dir =? 1 then n else - n)))].
Proof.
  intros Hu Hdir Hn Hp0 Hend Hv Hlen Hsp Hl s0 r.
  assert (Hunit : stepUnit (negb (dir =? 0)) * n = (if dir =? 1 then n else - n)).
  { unfold stepUnit. destruct Hdir as [-> | ->]; simpl; lia. }
  assert (Etgt : iadd (position s) (if dir =? 1 then n else ineg n)
                 = position s + (if dir =? 1 then n else - n)).
  { unfold iadd, ineg. unfold is_int, INT_MIN, INT_MAX in *.
    destruct (dir =? 1).
    - apply wrap32_id. unfold is_int, INT_MIN, INT_MAX. lia.
    - rewrite (wrap32_id (- n)) by (unfold is_int, INT_MIN, INT_MAX; lia).
      apply wrap32_id. unfold is_int, INT_MIN, INT_MAX. lia. }
  assert (E0 : moveStepper now id n dir v s = moveStepper now id n dir v s) by reflexivity.
  rewrite (moveStepper_constant now id n dir v s Hu) in E0 at 2.
  assert (Hc : Cruising (position s) n v (negb (dir =? 0)) s0 0 now s0).
  { subst s0. rewrite E0. unfold Cruising. fields. rewrite Etgt, Hunit.
    repeat split; try reflexivity; [exact Hu | lia]. }
  assert (Hs0 : stepPin s0 = stepPin s /\ enablePin s0 = enablePin s /\
                enableConfigured s0 = enableConfigured s /\ limitA s0 = limitA s /\
                limitB s0 = limitB s /\ direction s0 = negb (dir =? 0)).
  { subst s0. rewrite E0. fields. repeat split; reflexivity. }
  destruct Hs0 as (W1 & W2 & W3 & W4 & W5 & W6).
  assert (Hg : guardPin s0 = (if dir =? 1 then limitA s else limitB s)).
  { unfold guardPin. rewrite W6, W4, W5. destruct Hdir as [-> | ->]; reflexivity. }
  rewrite <- Hg in Hl. rewrite <- Hunit in Hend.
  destruct (Cruising_run (position s) n v (negb (dir =? 0)) s0 id Hp0 Hend Hv
              ticks 0 now s0 Hc ltac:(lia) ltac:(lia) ltac:(lia) Hsp Hl W6) as (R1 & R2 & R3).
  fold r in R1, R2, R3.
  split; [apply Hc|]. split; [exact R1|]. split; [rewrite R2, Hunit; reflexivity|].
  rewrite R3, Hunit.
  assert (Ept : forall m, pulseTrain s0 m = pulseTrain s m).
  { induction m as [|m IHm]; [reflexivity|]. cbn [pulseTrain]. rewrite IHm.
    unfold stepPulse. rewrite W1. reflexivity. }
  rewrite Ept. unfold disableDriver. rewrite W2, W3. reflexivity.
Qed.

Lemma constant_speed_move_completes_witness :
  let s0 := (moveStepper 0 0 3 0 1000 wired_axis).1 in
  let r := runStepper 0 (steady_ticks 3) s0 in
  active s0 = true /\ active r.1 = false /\ position r.1 = 0 + - 3 /\
  r.2 = pulseTrain wired_axis 3 ++ disableDriver wired_axis ++ [Serial (stepper_done 0 (0 + - 3))].
Proof.
  apply (constant_speed_move_completes 0 0 3 0 1000 wired_axis (steady_ticks 3)).
  - reflexivity.
  - left. reflexivity.
  - unfold INT_MAX. lia.
  - vm_compute. split; discriminate.
  - vm_compute. split; discriminate.
  - lia.
  - reflexivity.
  - vm_compute. repeat split; discriminate.
  - repeat constructor.
Defined.

Section AcceleratedRun.

(** An accelerated move of [T] steps from [p0], as in [Moving], run with
    every tick at least [maxDelay] after the step before. *)
Variables (p0 T a d : Z) (fwd : bool).
Hypothesis Hp0 : is_int p0.
Hypothesis Hend : is_int (p0 + stepUnit fwd * T).
Hypothesis HT : T <= INT_MAX.
Hypothesis Ha : 0 < a < T.
Hypothesis Hd : 0 <= d <= T.

Lemma Moving_due_step now rd i s :
  Moving p0 T a d fwd s -> active s = true ->
  readLimitSwitch rd (guardPin s) = false -> stepDue now s = true ->
  let r := updateStepper now rd i s in
  Moving p0 T a d fwd r.1 /\ stepsTaken r.1 = stepsTaken s + 1 /\
  lastStepTime r.1 = now /\
  r.2 = stepPulse s ++
        (if stepsTaken s + 1 =? T
         then disableDriver s ++ [Serial (stepper_done i (p0 + stepUnit fwd * T))] else []).
Proof.
  intros Hm Hact Hl Hdue.
  destruct (Moving_step p0 T a d fwd Hp0 Hend HT ltac:(lia) Hd now rd i s Hm Hl) as (Hm' & _ & _).
  pose proof Hm as ((Hu & Hh & Hp & Hdir) & (Et & ET & Ea & Ed) & ((K0 & K1) & Epos & Eact) & P).
  rewrite Hact in Eact. symmetry in Eact. apply Z.ltb_lt in Eact.
  revert Hm'. rewrite (updateStepper_move now rd i s Hact Hp Hh Hl Hdue). cbv zeta.
  destruct (advanced_fixed now i s)
    as (F1 & F2 & F3 & F4 & F5 & F6 & _ & _ & _ & _ & F7 & F8 & _ & F9 & F10).
  assert (Ek : stepsTaken (advanced now i s) = stepsTaken s + 1).
  { unfold advanced. rewrite Hu.
    pose proof (profileStep_fixed i (stepped now s)) as H. cbv zeta in H.
    destruct H as (_ & _ & _ & _ & _ & _ & _ & _ & _ & _ & _ & _ & _ & _ & _ & _ & _ & _ & _
                   & _ & _ & _ & H).
    rewrite H. unfold stepped. fields. apply wrap32_id.
    unfold is_int, INT_MIN, INT_MAX in *. lia. }
  destruct (position (advanced now i s) =? target (advanced now i s)) eqn:E; cbn [fst snd].
  - intros Hm'. split; [exact Hm'|].
    destruct Hm' as (_ & _ & ((K0' & K1') & _ & Eact') & _).
    revert K0' K1' Eact'. fields. rewrite Ek. intros K0' K1' Eact'.
    symmetry in Eact'. apply Z.ltb_ge in Eact'.
    assert (En : stepsTaken s + 1 = T) by lia.
    split; [reflexivity|]. split; [exact F9|].
    rewrite En, Z.eqb_refl. apply Z.eqb_eq in E. rewrite E, F5, Et. reflexivity.
  - intros Hm'. split; [exact Hm'|].
    destruct Hm' as (_ & _ & ((K0' & K1') & _ & Eact') & _).
    rewrite F2, Hact, Ek in Eact'. symmetry in Eact'. apply Z.ltb_lt in Eact'.
    split; [exact Ek|]. split; [exact F9|].
    assert (Hne : (stepsTaken s + 1 =? T) = false) by lia.
    rewrite Hne, app_nil_r. reflexivity.
Qed.

Lemma Moving_due_run id M : M < 2 ^ 32 ->
  forall ticks r0 t s,
  Moving p0 T a d fwd s -> OnProfile id s -> maxDelay s = M -> lastStepTime s = t ->
  sameSetup r0 s ->
  stepsTaken s + Z.of_nat (length ticks) = T -> 0 < Z.of_nat (length ticks) ->
  spaced M t ticks ->
  Forall (fun x => readLimitSwitch (tick_pins x) (guardPin r0) = false) ticks ->
  let r := runStepper id ticks s in
  active r.1 = false /\ stepsTaken r.1 = T /\ position r.1 = p0 + stepUnit fwd * T /\
  r.2 = pulseTrain r0 (length ticks) ++ disableDriver r0
          ++ [Serial (stepper_done id (p0 + stepUnit fwd * T))].
Proof.
  intros HM.
  induction ticks as [|x ticks IH]; intros r0 t s Hm Hop EM Elt Hss Hlen Hpos Hsp Hl;
    [simpl in Hpos; lia|].
  pose proof Hm as ((Hu & Hh & Hp & Hdir) & (Et & ET & Ea & Ed) & ((K0 & K1) & Epos & Eact) & P).
  destruct Hsp as (Hdue & Hsp). inversion Hl as [|? ? Hl1 Hl2]; subst x0 l.
  simpl length in Hlen.
  assert (Hact : active s = true) by (rewrite Eact; apply Z.ltb_lt; lia).
  pose proof Hss as (W1 & _ & W3 & W4 & W5 & W6 & _ & _ & _ & _ & W11 & _).
  assert (Hg : guardPin s = guardPin r0).
  { unfold guardPin. rewrite W11, W5, W6. reflexivity. }
  assert (Hdue' : stepDue (tick_now x) s = true).
  { pose proof (OnProfile_bounds id s Hop) as B.
    destruct Hop as ((S0 & _) & _).
    unfold stepDue, effectiveDelay. rewrite Hu, Elt.
    unfold u32 at 1. rewrite Z.mod_small by lia. apply Z.leb_le. lia. }
  assert (Hclear : readLimitSwitch (tick_pins x) (guardPin s) = false)
    by (rewrite Hg; exact Hl1).
  destruct (Moving_due_step (tick_now x) (tick_pins x) id s Hm Hact Hclear Hdue')
    as (Hm' & Ek & Elt' & Eout).
  pose proof (updateStepper_OnProfile (tick_now x) (tick_pins x) id s Hop)
    as (_ & _ & _ & Hop' & _ & EM' & _).
  pose proof (updateStepper_sameSetup (tick_now x) (tick_pins x) id s) as Hss'.
  cbv zeta in *. cbn [runStepper]. cbv zeta.
  set (s' := (updateStepper (tick_now x) (tick_pins x) id s).1) in *.
  assert (Epulse : stepPulse s = stepPulse r0) by (unfold stepPulse; rewrite W1; reflexivity).
  assert (Edis : disableDriver s = disableDriver r0)
    by (unfold disableDriver; rewrite W3, W4; reflexivity).
  rewrite Eout, Epulse, Edis.
  destruct ticks as [|y ticks].
  - simpl in Hlen. assert (En : stepsTaken s + 1 = T) by lia.
    rewrite En, Z.eqb_refl. cbn [runStepper fst snd].
    destruct (Moving_complete p0 T a d fwd ltac:(lia) Hd s' Hm') as (_ & C2 & C3).
    { destruct Hm' as (_ & _ & (_ & _ & Eact') & _). rewrite Eact', Ek, En.
      apply Z.ltb_irrefl. }
    split.
    { destruct Hm' as (_ & _ & (_ & _ & Eact') & _). rewrite Eact', Ek, En.
      apply Z.ltb_irrefl. }
    split; [exact C2|]. split; [exact C3|].
    rewrite app_nil_r. reflexivity.
  - assert (Hne : (stepsTaken s + 1 =? T) = false) by (simpl length in Hlen; lia).
    rewrite Hne, app_nil_r. cbn [fst snd].
    assert (Hlt : stepsTaken s' < totalSteps s').
    { destruct Hm' as (_ & (_ & ET' & _) & _). rewrite ET', Ek. simpl length in Hlen. lia. }
    destruct (IH r0 (tick_now x) s' Hm' (Hop' Hu Hh Hlt) ltac:(congruence) Elt'
                (sameSetup_trans _ _ _ Hss Hss')
                ltac:(rewrite Ek; simpl length in *; lia) ltac:(simpl length; lia) Hsp Hl2)
      as (R1 & R2 & R3 & R4).
    split; [exact R1|]. split; [exact R2|]. split; [exact R3|].
    rewrite R4. change (pulseTrain r0 (length (x :: y :: ticks)))
      with (stepPulse r0 ++ pulseTrain r0 (length (y :: ticks))).
    rewrite <- app_assoc. reflexivity.
Qed.

End AcceleratedRun.

Lemma moveStepper_wiring now id steps dir v s :
  let s' := (moveStepper now id steps dir v s).1 in
  stepPin s' = stepPin s /\ enablePin s' = enablePin s /\
  enableConfigured s' = enableConfigured s /\ maxDelay s' = maxDelay s /\
  minDelay s' = minDelay s.
Proof.
  unfold moveStepper. fields.
  destruct (useAcceleration s && ((0 <? acceleration s) || (0 <? deceleration s))).
  - match goal with
    | |- context [startAcceleratedMove id ?t v ?r] =>
        pose proof (startAcceleratedMove_fields id t v r) as F;
        pose proof (startAcceleratedMove_wiring id t v r) as W;
        destruct (startAcceleratedMove id t v r) as [s1 o1]
    end.
    cbv zeta in F, W. fields.
    destruct F as (_ & _ & _ & _ & _ & _ & _ & _ & _ & _ & _ & _ & _ & _ & F1 & F2 & _).
    destruct W as (_ & _ & _ & W1 & W2 & W3 & _).
    rewrite F1, F2, W1, W2, W3. repeat split; reflexivity.
  - fields. repeat split; reflexivity.
Qed.

Lemma moveStepper_OnProfile now id steps dir v s :
  useAcceleration s = true -> 0 < acceleration s \/ 0 < deceleration s ->
  dir = 0 \/ dir = 1 -> 0 < steps <= INT_MAX -> is_int (position s) ->
  is_int (position s + (if dir =? 1 then steps else - steps)) ->
  0 <= v -> v <= maxDelay s -> maxDelay s <= 2 ^ 24 ->
  OnProfile id (moveStepper now id steps dir v s).1.
Proof.
  intros Hu Had Hdir Hsteps Hpos Hend Hv0 Hv1 HM.
  assert (Hbr : useAcceleration s && ((0 <? acceleration s) || (0 <? deceleration s)) = true).
  { rewrite Hu. simpl. apply orb_true_iff. rewrite !Z.ltb_lt. exact Had. }
  assert (Etgt : iadd (position s) (if dir =? 1 then steps else ineg steps)
                 = position s + (if dir =? 1 then steps else - steps)).
  { unfold iadd, ineg. unfold is_int, INT_MIN, INT_MAX in *.
    destruct (dir =? 1).
    - apply wrap32_id. unfold is_int, INT_MIN, INT_MAX. lia.
    - rewrite (wrap32_id (- steps)) by (unfold is_int, INT_MIN, INT_MAX; lia).
      apply wrap32_id. unfold is_int, INT_MIN, INT_MAX. lia. }
  unfold moveStepper. fields. rewrite Hbr, Etgt.
  match goal with
  | |- context [startAcceleratedMove id ?t v ?r] =>
      pose proof (startAcceleratedMove_OnProfile id t v r) as H;
      destruct (startAcceleratedMove id t v r) as [s1 o1]
  end.
  revert H. fields. intros H.
  assert (Ed : isub (position s + (if dir =? 1 then steps else - steps)) (position s)
               = (if dir =? 1 then steps else - steps)).
  { unfold isub. replace (position s + (if dir =? 1 then steps else - steps) - position s)
      with (if dir =? 1 then steps else - steps) by lia.
    apply wrap32_id. unfold is_int, INT_MIN, INT_MAX in *. destruct (dir =? 1); lia. }
  rewrite Ed in H.
  assert (Hop : OnProfile id s1).
  { apply H; try assumption; unfold INT_MIN, INT_MAX in *; destruct (dir =? 1); lia. }
  unfold OnProfile in *. fields. exact Hop.
Qed.

(** X13.  An accelerated move always arrives.  For a move of [n] steps
    with [dir] 0 or 1, target delay [0 <= speed <= maxDelay <= 2^24] and a
    profile with [0 < accelSteps < totalSteps], [n] ticks that each come at
    least [maxDelay] microseconds after the previous one, with the limit
    switch of the travel direction open, give exactly [n] step pulses; then
    the driver is disabled and one move-complete event reports the final
    position, the start position plus or minus [n]. *)
Theorem accelerated_move_completes now id n dir v s ticks :
  useAcceleration s = true -> 0 < acceleration s \/ 0 < deceleration s ->
  dir = 0 \/ dir = 1 -> 0 < n <= INT_MAX -> is_int (position s) ->
  is_int (position s + (if dir =? 1 then n else - n)) ->
  0 <= v -> v <= maxDelay s -> maxDelay s <= 2 ^ 24 ->
  let s0 := (moveStepper now id n dir v s).1 in
  0 < accelSteps s0 < totalSteps s0 ->
  Z.of_nat (length ticks) = n -> spaced (maxDelay s) now ticks ->
  Forall (fun x => readLimitSwitch (tick_pins x)
                     (if dir =? 1 then limitA s else limitB s) = false) ticks ->
  let r := runStepper id ticks s0 in
  active s0 = true /\ active r.1 = false /\ stepsTaken r.1 = n /\
  position r.1 = position s + (if dir =? 1 then n else - n) /\
  r.2 = pulseTrain s (length ticks) ++ disableDriver s
          ++ [Serial (stepper_done id (position s + (if dir =? 1 then n else - n)))].
Proof.
  intros Hu Had Hdir Hn Hpos Hend Hv0 Hv1 HM s0 Hacc Hlen Hsp Hl r.
  destruct (moveStepper_Moving now id n dir v s Hu Had Hdir Hn Hpos Hend Hacc)
    as (ET & Eph & Ek & Hd & Hunit & Hm).
  fold s0 in ET, Eph, Ek, Hd, Hm. rewrite ET in Hacc.
  pose proof (moveStepper_OnProfile now id n dir v s Hu Had Hdir Hn Hpos Hend Hv0 Hv1 HM) as Hop.
  fold s0 in Hop.
  destruct (moveStepper_flags now id n dir v s)
    as (_ & _ & Fa & _ & _ & _ & Fd & _ & _ & _ & Flt & FA & FB & _).
  destruct (moveStepper_wiring now id n dir v s) as (W1 & W2 & W3 & WM & _).
  fold s0 in Fa, Fd, Flt, FA, FB, W1, W2, W3, WM.
  assert (Hend' : is_int (position s + stepUnit (negb (dir =? 0)) * n))
    by (rewrite Hunit; exact Hend).
  assert (Hg : guardPin s0 = (if dir =? 1 then limitA s else limitB s)).
  { unfold guardPin. rewrite Fd, FA, FB. destruct Hdir as [-> | ->]; reflexivity. }
  rewrite <- Hg in Hl. rewrite <- WM in Hsp.
  destruct (Moving_due_run (position s) n (accelSteps s0) (decelSteps s0) (negb (dir =? 0))
              Hpos Hend' (proj2 Hn) Hacc Hd id (maxDelay s0)
              ltac:(rewrite WM; lia) ticks s0 now s0 Hm Hop eq_refl Flt (sameSetup_refl s0)
              ltac:(rewrite Ek; lia) ltac:(lia) Hsp Hl) as (R1 & R2 & R3 & R4).
  fold r in R1, R2, R3, R4.
  split; [exact Fa|]. split; [exact R1|]. split; [exact R2|].
  split; [rewrite R3, Hunit; reflexivity|].
  rewrite R4, Hunit.
  assert (Ept : forall m, pulseTrain s0 m = pulseTrain s m).
  { induction m as [|m IHm]; [reflexivity|]. cbn [pulseTrain]. rewrite IHm.
    unfold stepPulse. rewrite W1. reflexivity. }
  rewrite Ept. unfold disableDriver. rewrite W2, W3. reflexivity.
Qed.

Lemma accelerated_move_completes_witness :
  let s0 := (moveStepper 0 0 30 1 500 both_ramps).1 in
  let r := runStepper 0 (slow_ticks 30) s0 in
  active s0 = true /\ active r.1 = false /\ stepsTaken r.1 = 30 /\ position r.1 = 0 + 30 /\
  r.2 = pulseTrain both_ramps 30 ++ disableDriver both_ramps
          ++ [Serial (stepper_done 0 (0 + 30))].
Proof.
  apply (accelerated_move_completes 0 0 30 1 500 both_ramps (slow_ticks 30)).
  - reflexivity.
  - left. reflexivity.
  - right. reflexivity.
  - unfold INT_MAX. lia.
  - vm_compute. split; discriminate.
  - vm_compute. split; discriminate.
  - lia.
  - vm_compute. discriminate.
  - vm_compute. discriminate.
  - vm_compute. split; reflexivity.
  - reflexivity.
  - vm_compute. repeat split; discriminate.
  - unfold slow_ticks. apply Forall_forall. intros t Ht.
    apply list_elem_of_In, in_map_iff in Ht. destruct Ht as (k & <- & _). reflexivity.
Defined.

(* ------------------------------------------------------------------------- *)
(** ** Moves that do not arrive; ramp lengths *)

Lemma wrap32_add_wrap32 a b : wrap32 (a + wrap32 b) = wrap32 (a + b).
Proof. rewrite (Z.add_comm a), wrap32_wrap32_add. f_equal. lia. Qed.

(** X14.  A move aimed behind the direction of travel never arrives.  A
    move command takes the target from [dir == 1 ? steps : -steps] and the
    direction from [dir != 0]; when the two disagree (a negative [steps],
    or a positive [steps] with a [dir] that is neither 0 nor 1) the axis
    steps away from its target: as long as the limit switch of the travel
    direction stays open it remains active and no event about it is
    emitted (for runs short of the [2^32] pulses that wrap the position
    counter round). *)
Theorem misdirected_move_never_completes now id steps dir v s ticks :
  is_int (position s) ->
  stepUnit (negb (dir =? 0)) * (if dir =? 1 then steps else - steps) < 0 ->
  Z.abs steps + Z.of_nat (length ticks) < 2 ^ 32 ->
  Forall (fun x => readLimitSwitch (tick_pins x)
                     (if dir =? 0 then limitB s else limitA s) = false) ticks ->
  let s0 := (moveStepper now id steps dir v s).1 in
  let r := runStepper id ticks s0 in
  target s0 = wrap32 (position s + (if dir =? 1 then steps else - steps)) /\
  direction s0 = negb (dir =? 0) /\ active s0 = true /\
  active r.1 = true /\ events_of id r.2 = [].
Proof.
  intros Hpos Hmis Hlen Hl s0 r.
  destruct (moveStepper_flags now id steps dir v s)
    as (Fp & Fh & Fa & _ & _ & _ & Fd & Ft & Fpos & _ & _ & FA & FB & _).
  fold s0 in Fp, Fh, Fa, Fd, Ft, Fpos, FA, FB.
  set (off := if dir =? 1 then steps else - steps) in *.
  assert (Etgt : target s0 = wrap32 (position s + off)).
  { rewrite Ft. unfold iadd, ineg, off. destruct (dir =? 1); [reflexivity|].
    apply wrap32_add_wrap32. }
  assert (Hk : stepUnit (direction s0) * Z.abs steps = - off /\ 0 < Z.abs steps).
  { rewrite Fd. unfold off in *. unfold stepUnit in *.
    destruct (dir =? 0), (dir =? 1); simpl in *; lia. }
  destruct Hk as (Hk1 & Hk2).
  assert (Ho : Overshot (position s + off) s0 (Z.abs steps) s0).
  { unfold Overshot. rewrite Fa, Fp, Fh, Etgt, Fpos.
    repeat split; try reflexivity; [lia|].
    intros _. replace (position s + off + stepUnit (direction s0) * Z.abs steps)
      with (position s) by lia.
    symmetry. apply wrap32_id. exact Hpos. }
  assert (Hg : guardPin s0 = (if dir =? 0 then limitB s else limitA s)).
  { unfold guardPin. rewrite Fd, FA, FB. destruct (dir =? 0); reflexivity. }
  rewrite <- Hg in Hl.
  destruct (Overshot_run (position s + off) s0 id ticks (Z.abs steps) s0 Ho
              ltac:(lia) Hlen Hl) as (R1 & R2).
  fold r in R1, R2. auto.
Qed.

Lemma misdirected_move_never_completes_witness :
  let s0 := (moveStepper 0 0 5 2 1000 wired_axis).1 in
  let r := runStepper 0 (steady_ticks 8) s0 in
  target s0 = wrap32 (0 + - 5) /\ direction s0 = true /\ active s0 = true /\
  active r.1 = true /\ events_of 0 r.2 = [].
Proof.
  apply (misdirected_move_never_completes 0 0 5 2 1000 wired_axis (steady_ticks 8)).
  - vm_compute. split; discriminate.
  - vm_compute. reflexivity.
  - vm_compute. reflexivity.
  - repeat constructor.
Defined.

Lemma calculateAccelSteps_value s T :
  0 < acceleration s -> 0 <= T <= 2 ^ 30 - 1 ->
  calculateAccelSteps s T = Z.max (Z.min (Z.quot (2 * T) 5) (acceleration s)) 10.
Proof.
  intros Ha HT. unfold calculateAccelSteps.
  destruct (acceleration s <=? 0) eqn:E; [lia|].
  assert (E2 : imul T 2 = 2 * T).
  { unfold imul. rewrite wrap32_id; [lia|]. unfold is_int, INT_MIN, INT_MAX. lia. }
  rewrite E2.
  destruct (idiv_range (2 * T) 5) as [_ E5]; [unfold is_int, INT_MIN, INT_MAX; lia | lia|].
  rewrite E5. reflexivity.
Qed.

Lemma calculateDecelSteps_value s T :
  0 < deceleration s -> 0 <= T <= 2 ^ 30 - 1 ->
  calculateDecelSteps s T = Z.max (Z.min (Z.quot (2 * T) 5) (deceleration s)) 10.
Proof.
  intros Ha HT. unfold calculateDecelSteps.
  destruct (deceleration s <=? 0) eqn:E; [lia|].
  assert (E2 : imul T 2 = 2 * T).
  { unfold imul. rewrite wrap32_id; [lia|]. unfold is_int, INT_MIN, INT_MAX. lia. }
  rewrite E2.
  destruct (idiv_range (2 * T) 5) as [_ E5]; [unfold is_int, INT_MIN, INT_MAX; lia | lia|].
  rewrite E5. reflexivity.
Qed.

(** X15.  The ramp lengths of a move with both ramps enabled, for a
    distance [T] of at most [2^30 - 1] steps.  A move shorter than 20 steps
    is split in two halves, whatever the settings, and has no
    constant-speed part.  From 20 steps on each ramp is the setting capped
    at 40% of the distance and raised to at least 10 steps, the rescaling
    never applies, and from 25 steps on at least a fifth of the move runs
    at constant speed. *)
Theorem ramp_lengths id targetPos moveSpeed s :
  0 < acceleration s -> 0 < deceleration s ->
  Z.abs (isub targetPos (position s)) <= 2 ^ 30 - 1 ->
  let s' := (startAcceleratedMove id targetPos moveSpeed s).1 in
  let T := totalSteps s' in
  T = Z.abs (isub targetPos (position s)) /\
  (T < 20 -> accelSteps s' = Z.quot T 2 /\ decelSteps s' = T - Z.quot T 2) /\
  (20 <= T ->
   accelSteps s' = Z.max (Z.min (Z.quot (2 * T) 5) (acceleration s)) 10 /\
   decelSteps s' = Z.max (Z.min (Z.quot (2 * T) 5) (deceleration s)) 10 /\
   accelSteps s' + decelSteps s' <= T) /\
  (25 <= T -> T <= 5 * (T - accelSteps s' - decelSteps s')).
Proof.
  intros Ha Hd HT s' T.
  assert (Hmin : isub targetPos (position s) <> INT_MIN).
  { intros E. rewrite E in HT. unfold INT_MIN in HT. lia. }
  destruct (phase_lengths_clamped id targetPos moveSpeed s Hmin)
    as (ET & _ & _ & _ & Hresc & Hkeep & _).
  fold s' in ET, Hresc, Hkeep. fold T in ET, Hresc, Hkeep.
  assert (HT' : 0 <= T <= 2 ^ 30 - 1) by lia.
  rewrite (calculateAccelSteps_value s T Ha HT') in Hresc, Hkeep.
  rewrite (calculateDecelSteps_value s T Hd HT') in Hresc, Hkeep.
  pose proof (Z.quot_rem (2 * T) 5 ltac:(lia)) as Q.
  pose proof (Z.rem_bound_pos (2 * T) 5 ltac:(lia) ltac:(lia)) as B.
  split; [exact ET|]. split; [|split].
  - intros Hs. destruct Hresc as (R1 & R2 & _); [lia | auto].
  - intros Hs. destruct Hkeep as (K1 & K2); [lia|]. rewrite K1, K2. repeat split. lia.
  - intros Hs. destruct Hkeep as (K1 & K2); [lia|]. rewrite K1, K2. lia.
Qed.

Lemma ramp_lengths_witness :
  let s' := (startAcceleratedMove 0 2000 500 both_ramps).1 in
  totalSteps s' = 2000 /\ accelSteps s' = 500 /\ decelSteps s' = 500.
Proof.
  destruct (ramp_lengths 0 2000 500 both_ramps ltac:(reflexivity) ltac:(reflexivity)
              ltac:(vm_compute; discriminate)) as (H1 & _ & H2 & _).
  cbv zeta. split; [exact H1|].
  destruct H2 as (A & B & _); [vm_compute; discriminate|].
  split; [rewrite A | rewrite B]; vm_compute; reflexivity.
Defined.

(* ------------------------------------------------------------------------- *)
(** ** Travel limits *)

Ltac norm_record :=
  lazy beta iota zeta delta
    [withLimits setZ setB stepPin dirPin enablePin limitA limitB home position minLimit
     maxLimit target active paused direction homing enableConfigured lastStepTime speed
     acceleration deceleration minDelay maxDelay useAcceleration currentDelay totalSteps
     stepsTaken accelSteps decelSteps movePhase fst snd andb orb negb app].

Ltac by_cases :=
  repeat (norm_record;
          match goal with
          | |- context [if ?b then _ else _] =>
              lazymatch b with
              | context [if _ then _ else _] => fail
              | _ => destruct b
              end
          end);
  norm_record; try reflexivity.

Lemma profileStep_withLimits lo hi i s :
  profileStep i (withLimits lo hi s) = withLimits lo hi (profileStep i s).
Proof. destruct s. unfold profileStep. by_cases. Qed.

Lemma startAcceleratedMove_withLimits lo hi id t v s :
  startAcceleratedMove id t v (withLimits lo hi s) =
  (withLimits lo hi (startAcceleratedMove id t v s).1, (startAcceleratedMove id t v s).2).
Proof.
  destruct s. unfold startAcceleratedMove, calculateAccelSteps, calculateDecelSteps. by_cases.
Qed.

Lemma setZ_withLimits f v lo hi s :
  limitField f = false -> setZ f v (withLimits lo hi s) = withLimits lo hi (setZ f v s).
Proof. destruct s, f; intros H; try discriminate H; norm_record; reflexivity. Qed.

Lemma setB_withLimits f v lo hi s :
  setB f v (withLimits lo hi s) = withLimits lo hi (setB f v s).
Proof. destruct s, f; norm_record; reflexivity. Qed.

(** Every field but the two limits. *)
Lemma withLimits_fields lo hi s :
  let s' := withLimits lo hi s in
  (stepPin s' = stepPin s /\ dirPin s' = dirPin s /\ enablePin s' = enablePin s /\
   limitA s' = limitA s /\ limitB s' = limitB s /\ home s' = home s /\
   position s' = position s /\ target s' = target s) /\
  (active s' = active s /\ paused s' = paused s /\ direction s' = direction s /\
   homing s' = homing s /\ enableConfigured s' = enableConfigured s /\
   useAcceleration s' = useAcceleration s) /\
  (lastStepTime s' = lastStepTime s /\ speed s' = speed s /\
   acceleration s' = acceleration s /\ deceleration s' = deceleration s /\
   minDelay s' = minDelay s /\ maxDelay s' = maxDelay s /\
   currentDelay s' = currentDelay s) /\
  (totalSteps s' = totalSteps s /\ stepsTaken s' = stepsTaken s /\
   accelSteps s' = accelSteps s /\ decelSteps s' = decelSteps s /\
   movePhase s' = movePhase s) /\
  minLimit s' = lo /\ maxLimit s' = hi.
Proof. repeat split; reflexivity. Qed.

Ltac limits_out :=
  repeat first [ rewrite setZ_withLimits by reflexivity | rewrite setB_withLimits ].

Lemma homeStepper_withLimits lo hi now sp s :
  homeStepper now sp (withLimits lo hi s) =
  (withLimits lo hi (homeStepper now sp s).1, (homeStepper now sp s).2).
Proof.
  unfold homeStepper. cbv zeta. limits_out. cbn [fst snd]. destruct s; norm_record; reflexivity.
Qed.

Lemma moveStepper_withLimits lo hi now id steps dir v s :
  moveStepper now id steps dir v (withLimits lo hi s) =
  (withLimits lo hi (moveStepper now id steps dir v s).1, (moveStepper now id steps dir v s).2).
Proof.
  unfold moveStepper. cbv zeta.
  change (position (withLimits lo hi s)) with (position s).
  limits_out.
  set (s1 := (((s <| target_ := iadd (position s) (if dir =? 1 then steps else ineg steps) |>)
                 <| speed_ := v |>) <| direction_ ::= negb (dir =? 0) |>) <| homing_ ::= false |>).
  change (dirPin (withLimits lo hi s1)) with (dirPin s1).
  change (enableConfigured (withLimits lo hi s1)) with (enableConfigured s1).
  change (enablePin (withLimits lo hi s1)) with (enablePin s1).
  change (useAcceleration (withLimits lo hi s1)) with (useAcceleration s1).
  change (acceleration (withLimits lo hi s1)) with (acceleration s1).
  change (deceleration (withLimits lo hi s1)) with (deceleration s1).
  change (target (withLimits lo hi s1)) with (target s1).
  destruct (useAcceleration s1 && ((0 <? acceleration s1) || (0 <? deceleration s1))).
  - rewrite startAcceleratedMove_withLimits.
    destruct (startAcceleratedMove id (target s1) v s1) as [s2 o2].
    cbn [fst snd]. limits_out. reflexivity.
  - limits_out. cbn [fst snd]. reflexivity.
Qed.

Lemma updateStepper_withLimits lo hi now rd i s :
  updateStepper now rd i (withLimits lo hi s) =
  (withLimits lo hi (updateStepper now rd i s).1, (updateStepper now rd i s).2).
Proof.
  destruct (withLimits_fields lo hi s)
    as ((P1 & _ & P3 & P4 & P5 & P6 & P7 & P8) & (B1 & B2 & B3 & B4 & B5 & B6)
        & (Z1 & Z2 & _ & _ & _ & _ & Z7) & _).
  cbv zeta in *.
  assert (Hg : guardPin (withLimits lo hi s) = guardPin s)
    by (unfold guardPin; rewrite B3, P4, P5; reflexivity).
  assert (Hn : guardName (withLimits lo hi s) = guardName s)
    by (unfold guardName; rewrite B3; reflexivity).
  assert (Hdue : stepDue now (withLimits lo hi s) = stepDue now s)
    by (unfold stepDue, effectiveDelay; rewrite B6, Z7, Z2, Z1; reflexivity).
  assert (Hdis : disableDriver (withLimits lo hi s) = disableDriver s)
    by (unfold disableDriver; rewrite B5, P3; reflexivity).
  assert (Hpulse : stepPulse (withLimits lo hi s) = stepPulse s)
    by (unfold stepPulse; rewrite P1; reflexivity).
  assert (Hstep : stepped now (withLimits lo hi s) = withLimits lo hi (stepped now s)).
  { unfold stepped. rewrite P7, B3. limits_out. reflexivity. }
  destruct (Branch_total now rd s) as [Hs | Ha Hp Hh Hl | Ha Hp Hl Hd | Ha Hp Hh Hd Hl
                                      | Ha Hp Hh Hd Hl | Ha Hp Hh Hl Hd].
  - rewrite (updateStepper_idle now rd i s Hs).
    rewrite updateStepper_idle by (rewrite B1, B2; exact Hs). reflexivity.
  - rewrite (updateStepper_limit now rd i s Ha Hp Hh Hl).
    rewrite updateStepper_limit; rewrite ?B1, ?B2, ?B4, ?Hg; try assumption.
    rewrite Hdis, Hn, P7. cbn [fst snd]. limits_out. reflexivity.
  - rewrite (updateStepper_wait now rd i s Ha Hp Hl Hd).
    rewrite updateStepper_wait; rewrite ?B1, ?B2, ?B4, ?Hg, ?Hdue; try assumption.
    reflexivity.
  - rewrite (updateStepper_homed now rd i s Ha Hp Hh Hd Hl).
    rewrite updateStepper_homed; rewrite ?B1, ?B2, ?B4, ?Hdue, ?P6; try assumption.
    rewrite Hstep, Hdis, Hpulse. cbn [fst snd]. limits_out. reflexivity.
  - rewrite (updateStepper_homing_step now rd i s Ha Hp Hh Hd Hl).
    rewrite updateStepper_homing_step; rewrite ?B1, ?B2, ?B4, ?Hdue, ?P6; try assumption.
    rewrite Hstep, Hpulse. reflexivity.
  - rewrite (updateStepper_move now rd i s Ha Hp Hh Hl Hd).
    rewrite updateStepper_move; rewrite ?B1, ?B2, ?B4, ?Hg, ?Hdue; try assumption.
    cbv zeta.
    assert (E : advanced now i (withLimits lo hi s) = withLimits lo hi (advanced now i s)).
    { unfold advanced. rewrite B6, Hstep.
      destruct (useAcceleration s); [apply profileStep_withLimits | reflexivity]. }
    rewrite E, Hdis, Hpulse.
    destruct (withLimits_fields lo hi (advanced now i s))
      as ((_ & _ & _ & _ & _ & _ & Q7 & Q8) & _).
    cbv zeta in Q7, Q8. rewrite Q7, Q8.
    destruct (position (advanced now i s) =? target (advanced now i s)); cbn [fst snd].
    + limits_out. reflexivity.
    + reflexivity.
Qed.

Lemma runStepper_withLimits lo hi i ticks : forall s,
  runStepper i ticks (withLimits lo hi s) =
  (withLimits lo hi (runStepper i ticks s).1, (runStepper i ticks s).2).
Proof.
  induction ticks as [|t ticks IH]; intros s; [reflexivity|].
  cbn [runStepper]. cbv zeta. rewrite updateStepper_withLimits. cbn [fst snd].
  rewrite IH. reflexivity.
Qed.

(** X30.  The software travel limits are stored and never consulted.
    [init_stepper] writes [min_limit] and [max_limit] into the record, and
    nothing reads them: a move command, a home command and any run of
    scheduler ticks write the same pins, print the same lines and leave the
    same record, the two limit fields apart, whatever values [minLimit] and
    [maxLimit] have.  A move is therefore not confined to the interval
    between them. *)
Theorem travel_limits_not_enforced lo hi now rd id steps dir v sp ticks s :
  moveStepper now id steps dir v (withLimits lo hi s) =
    (withLimits lo hi (moveStepper now id steps dir v s).1,
     (moveStepper now id steps dir v s).2) /\
  homeStepper now sp (withLimits lo hi s) =
    (withLimits lo hi (homeStepper now sp s).1, (homeStepper now sp s).2) /\
  updateStepper now rd id (withLimits lo hi s) =
    (withLimits lo hi (updateStepper now rd id s).1, (updateStepper now rd id s).2) /\
  runStepper id ticks (withLimits lo hi s) =
    (withLimits lo hi (runStepper id ticks s).1, (runStepper id ticks s).2) /\
  sendPinStates rd id (withLimits lo hi s) = sendPinStates rd id s.
Proof.
  split; [apply moveStepper_withLimits|]. split; [apply homeStepper_withLimits|].
  split; [apply updateStepper_withLimits|]. split; [apply runStepper_withLimits|].
  reflexivity.
Qed.

(* ------------------------------------------------------------------------- *)
(** ** The delay over a run *)

(** A tick does not start a move, and does not end a home-seek other than
    by stopping the axis. *)
Lemma updateStepper_still now rd i s :
  let s' := (updateStepper now rd i s).1 in
  (active s' = true -> active s = true) /\
  (active s' = true -> homing s' = homing s) /\
  (homing s = false -> homing s' = false).
Proof.
  destruct (Branch_total now rd s) as [Hs | Ha Hp Hh Hl | Ha Hp Hl Hd | Ha Hp Hh Hd Hl
                                      | Ha Hp Hh Hd Hl | Ha Hp Hh Hl Hd].
  - rewrite updateStepper_idle by assumption. simpl. auto.
  - rewrite updateStepper_limit by assumption. simpl. auto.
  - rewrite updateStepper_wait by assumption. simpl. auto.
  - rewrite updateStepper_homed by assumption. simpl. repeat split; congruence.
  - rewrite updateStepper_homing_step by assumption. simpl. auto.
  - rewrite updateStepper_move by assumption. cbv zeta.
    destruct (advanced_fixed now i s) as (F1 & F2 & _).
    destruct (position _ =? target _); simpl; rewrite ?F1, ?F2; repeat split; congruence.
Qed.

(** The delay steps of an axis on its profile, until its last step. *)
Lemma OnProfile_delaySteps id ticks : forall s,
  OnProfile id s -> useAcceleration s = true -> homing s = false ->
  delaySteps s (history id ticks s).
Proof.
  induction ticks as [|t ticks IH]; intros s Hon Hu Hh; [exact I|].
  simpl history. cbv zeta.
  destruct (updateStepper_OnProfile (tick_now t) (tick_pins t) id s Hon)
    as (A & B & C & D & _).
  pose proof (updateStepper_sameSetup (tick_now t) (tick_pins t) id s) as Hss.
  destruct (updateStepper_still (tick_now t) (tick_pins t) id s) as (_ & _ & Hh').
  set (s' := (updateStepper (tick_now t) (tick_pins t) id s).1) in *.
  split; [exact (conj A (conj B C))|].
  intros Hk. apply IH.
  - exact (D Hu Hh Hk).
  - unfold sameSetup in Hss. intuition congruence.
  - exact (Hh' Hh).
Qed.

(** A move that can reach its target: on its profile while it is active. *)
Lemma Moving_delayRun id p0 T a d fwd ticks : forall s,
  is_int p0 -> is_int (p0 + stepUnit fwd * T) -> T <= INT_MAX ->
  0 <= a <= T -> 0 <= d <= T ->
  active s = false \/ (Moving p0 T a d fwd s /\ OnProfile id s) ->
  delayRun s (history id ticks s).
Proof.
  induction ticks as [|t ticks IH]; intros s Hp0 Hend HT Ha Hd Hs; [exact I|].
  simpl history. cbv zeta.
  destruct Hs as [Hoff | (Hm & Hon)].
  { rewrite updateStepper_idle by (left; exact Hoff). simpl.
    split; [left; reflexivity|]. apply IH; auto. }
  destruct (updateStepper_OnProfile (tick_now t) (tick_pins t) id s Hon)
    as (A & B & C & D & _).
  pose proof Hm as ((Hu & Hh & Hp & Hdir) & _ & ((K0 & K1) & Epos & Eact) & _).
  destruct (readLimitSwitch (tick_pins t) (guardPin s)) eqn:Hl.
  - destruct (active s) eqn:Hact.
    + revert A B C D. rewrite updateStepper_limit by assumption. simpl. intros A B C D.
      split; [right; exact (conj A (conj B C))|]. apply IH; auto.
    + rewrite updateStepper_idle by (left; exact Hact). simpl.
      split; [left; reflexivity|]. apply IH; auto.
  - destruct (Moving_step p0 T a d fwd Hp0 Hend HT Ha Hd (tick_now t) (tick_pins t) id s Hm Hl)
      as (Hm' & _ & _).
    set (s' := (updateStepper (tick_now t) (tick_pins t) id s).1) in *.
    split; [right; exact (conj A (conj B C))|]. apply IH; auto.
    destruct (active s') eqn:Hact'; [right | left; reflexivity].
    split; [exact Hm'|]. apply D; [exact Hu | exact Hh|].
    destruct Hm' as (_ & (_ & ET & _) & (_ & _ & Eact') & _).
    rewrite Hact' in Eact'. symmetry in Eact'. apply Z.ltb_lt in Eact'. lia.
Qed.

(** Such a move is stopped, by completion or by a limit switch, before it
    has taken more than its [totalSteps] steps. *)
Lemma Moving_stops id p0 T a d fwd ticks : forall s,
  is_int p0 -> is_int (p0 + stepUnit fwd * T) -> T <= INT_MAX ->
  0 <= a <= T -> 0 <= d <= T ->
  (active s = false /\ stepsTaken s <= totalSteps s) \/ Moving p0 T a d fwd s ->
  Forall (fun t => active t = false \/ stepsTaken t < totalSteps t) (s :: history id ticks s).
Proof.
  induction ticks as [|t ticks IH]; intros s Hp0 Hend HT Ha Hd Hs.
  - constructor; [|constructor].
    destruct Hs as [(Hoff & _) | Hm]; [left; exact Hoff|].
    destruct Hm as (_ & (_ & ET & _) & (_ & _ & Eact) & _).
    destruct (active s); [right | left; reflexivity].
    symmetry in Eact. apply Z.ltb_lt in Eact. lia.
  - constructor.
    { destruct Hs as [(Hoff & _) | Hm]; [left; exact Hoff|].
      destruct Hm as (_ & (_ & ET & _) & (_ & _ & Eact) & _).
      destruct (active s); [right | left; reflexivity].
      symmetry in Eact. apply Z.ltb_lt in Eact. lia. }
    simpl history. cbv zeta. apply IH; try assumption.
    destruct Hs as [(Hoff & Hk) | Hm].
    { rewrite updateStepper_idle by (left; exact Hoff). simpl. left. auto. }
    pose proof Hm as ((Hu & Hh & Hp & Hdir) & (_ & ET & _) & ((K0 & K1) & Epos & Eact) & _).
    destruct (readLimitSwitch (tick_pins t) (guardPin s)) eqn:Hl.
    + destruct (active s) eqn:Hact.
      * rewrite updateStepper_limit by assumption. simpl. left. split; [reflexivity | lia].
      * rewrite updateStepper_idle by (left; exact Hact). simpl. left. split; [exact Hact | lia].
    + right.
      apply (Moving_step p0 T a d fwd Hp0 Hend HT Ha Hd (tick_now t) (tick_pins t) id s Hm Hl).
Qed.

(** An accelerated move over a nonzero distance starts on its profile,
    whatever direction it is commanded with. *)
Lemma moveStepper_starts_OnProfile now id steps dir v s :
  useAcceleration s = true -> 0 < acceleration s \/ 0 < deceleration s ->
  0 <= v -> v <= maxDelay s -> maxDelay s <= 2 ^ 24 ->
  let distance :=
    isub (iadd (position s) (if dir =? 1 then steps else ineg steps)) (position s) in
  distance <> INT_MIN -> distance <> 0 ->
  let s0 := (moveStepper now id steps dir v s).1 in
  OnProfile id s0 /\ useAcceleration s0 = true /\ homing s0 = false.
Proof.
  intros Hu Had Hv0 Hv1 HM distance Hd1 Hd2 s0.
  destruct (moveStepper_flags now id steps dir v s)
    as (_ & Fh & _ & _ & _ & Fu & _).
  fold s0 in Fh, Fu. split; [|split; [rewrite Fu; exact Hu | exact Fh]].
  assert (Hbr : useAcceleration s && ((0 <? acceleration s) || (0 <? deceleration s)) = true).
  { rewrite Hu. simpl. apply orb_true_iff. rewrite !Z.ltb_lt. exact Had. }
  unfold s0, moveStepper. fields. rewrite Hbr.
  match goal with
  | |- context [startAcceleratedMove id ?t v ?r] =>
      pose proof (startAcceleratedMove_OnProfile id t v r) as H;
      destruct (startAcceleratedMove id t v r) as [s1 o1]
  end.
  revert H. fields. intros H.
  assert (Hop : OnProfile id s1) by (apply H; assumption).
  unfold OnProfile in *. fields. exact Hop.
Qed.

(** C7 does not hold as stated: with a target delay above [maxDelay]
    (speed 6000, maxDelay 5000) the calculator's delays grow during ACCEL
    and shrink during DECEL, and so does the stored delay of a move.  And a
    move that cannot reach its target (30 steps commanded with [dir] 2,
    which travels forward towards a target behind it) goes on stepping in
    DECEL after its 30 steps, the delay rising past [maxDelay]. *)
Lemma C7_counterexample :
  let s := (moveStepper 0 0 30 1 6000
              (setDeceleration 500 (setAcceleration 500 initial_stepper))).1 in
  let s1 := (updateStepper 100000 (fun _ => HIGH) 0 s).1 in
  let m := (moveStepper 0 0 30 2 500
              (setDeceleration 500 (setAcceleration 500 initial_stepper))).1 in
  let m' := (runStepper 0 (slow_ticks 31) m).1 in
  (movePhase s = 0 /\ currentDelay s = 5000 /\ movePhase s1 = 0 /\ currentDelay s1 = 5083) /\
  calculateAccelDelay 0 0 12 5000 6000 = 5000 /\
  calculateAccelDelay 0 1 12 5000 6000 = 5083 /\
  calculateDecelDelay 0 1 12 6000 5000 = 5917 /\
  calculateDecelDelay 0 2 12 6000 5000 = 5834 /\
  (speed m = 500 /\ maxDelay m = 5000 /\ totalSteps m = 30 /\
   active m' = true /\ movePhase m' = 2 /\ stepsTaken m' = 31 /\ currentDelay m' = 5375).
Proof. vm_compute. repeat split; reflexivity. Qed.

(** C7 (amended).  For target delays with [0 <= speed <= maxDelay <= 2^24]:
    an accelerated move over a nonzero distance starts on its profile,
    whatever [dir] it is commanded with; at a tick of an axis on its
    profile the stored delay does not grow while the phase is ACCEL (and
    stays at or above [speed]), is [speed] and unchanged while the phase is
    CONST, and does not shrink while the phase is DECEL (and stays at or
    below [maxDelay]), and the axis is on its profile again after the tick
    as long as steps remain; so this holds at every tick of a run up to and
    including the one that takes the last of the [totalSteps] steps.  A move commanded with [dir] 0 or 1 and
    [steps > 0], start and end positions representable, is stopped at that
    tick at the latest, and in any run every tick leaves its axis as it is
    or changes the delay in this way.  The calculator's acceleration delay
    is non-increasing and its deceleration delay non-decreasing in the step
    index, from [maxDelay] at index 0 to [speed] at the phase length,
    respectively from [speed] to [maxDelay]. *)
Theorem C7_delay_monotone now rd id s :
  OnProfile id s ->
  let s' := (updateStepper now rd id s).1 in
  (movePhase s = 0 -> speed s <= currentDelay s' <= currentDelay s) /\
  (movePhase s = 1 -> currentDelay s' = speed s /\ currentDelay s' = currentDelay s) /\
  (movePhase s = 2 -> currentDelay s <= currentDelay s' <= maxDelay s) /\
  (useAcceleration s = true -> homing s = false ->
   stepsTaken s' < totalSteps s' -> OnProfile id s') /\
  (forall k k' n, 0 <= k <= k' -> k' <= n ->
     calculateAccelDelay id k' n (maxDelay s) (speed s)
       <= calculateAccelDelay id k n (maxDelay s) (speed s) /\
     calculateDecelDelay id k n (speed s) (maxDelay s)
       <= calculateDecelDelay id k' n (speed s) (maxDelay s)) /\
  (forall n, 0 < n ->
     calculateAccelDelay id 0 n (maxDelay s) (speed s) = maxDelay s /\
     calculateAccelDelay id n n (maxDelay s) (speed s) = speed s /\
     calculateDecelDelay id 0 n (speed s) (maxDelay s) = speed s /\
     calculateDecelDelay id n n (speed s) (maxDelay s) = maxDelay s) /\
  (forall targetPos moveSpeed r,
     0 <= moveSpeed -> moveSpeed <= maxDelay r -> maxDelay r <= 2 ^ 24 ->
     isub targetPos (position r) <> INT_MIN -> isub targetPos (position r) <> 0 ->
     OnProfile id (startAcceleratedMove id targetPos moveSpeed r).1) /\
  (useAcceleration s = true -> homing s = false ->
   forall ticks, delaySteps s (history id ticks s)) /\
  (forall now0 steps dir v r ticks,
     useAcceleration r = true -> 0 < acceleration r \/ 0 < deceleration r ->
     0 <= v -> v <= maxDelay r -> maxDelay r <= 2 ^ 24 ->
     let distance :=
       isub (iadd (position r) (if dir =? 1 then steps else ineg steps)) (position r) in
     distance <> INT_MIN -> distance <> 0 ->
     let s0 := (moveStepper now0 id steps dir v r).1 in
     OnProfile id s0 /\ delaySteps s0 (history id ticks s0)) /\
  (forall now0 steps dir v r ticks,
     useAcceleration r = true -> 0 < acceleration r \/ 0 < deceleration r ->
     dir = 0 \/ dir = 1 -> 0 < steps <= INT_MAX -> is_int (position r) ->
     is_int (position r + (if dir =? 1 then steps else - steps)) ->
     0 <= v -> v <= maxDelay r -> maxDelay r <= 2 ^ 24 ->
     let s0 := (moveStepper now0 id steps dir v r).1 in
     OnProfile id s0 /\ delayRun s0 (history id ticks s0) /\
     Forall (fun t => active t = false \/ stepsTaken t < totalSteps t)
       (s0 :: history id ticks s0)).
Proof.
  intros Hon s'.
  destruct (updateStepper_OnProfile now rd id s Hon) as (A & B & C & D & _).
  pose proof Hon as ((H1 & H2 & H3) & _).
  refine (conj A (conj B (conj C (conj D (conj _ (conj _ (conj _ (conj _ (conj _ _))))))))).
  - intros k k' n Hk Hn. split.
    + apply calculateAccelDelay_mono; assumption.
    + apply calculateDecelDelay_mono; assumption.
  - intros n Hn.
    rewrite (calculateAccelDelay_start (speed s) (maxDelay s) H1 H2 H3) by lia.
    rewrite (calculateAccelDelay_end (speed s) (maxDelay s) H1 H2 H3) by lia.
    rewrite (calculateDecelDelay_start (speed s) (maxDelay s) H1 H2 H3).
    rewrite (calculateDecelDelay_end (speed s) (maxDelay s) H1 H2 H3) by lia.
    destruct (n =? 0) eqn:E; [lia|]. repeat split; reflexivity.
  - intros. apply startAcceleratedMove_OnProfile; assumption.
  - intros Hu Hh ticks. apply OnProfile_delaySteps; assumption.
  - intros now0 steps dir v r ticks Hu Had Hv0 Hv1 HM distance Hd1 Hd2 s0.
    destruct (moveStepper_starts_OnProfile now0 id steps dir v r Hu Had Hv0 Hv1 HM Hd1 Hd2)
      as (Hon0 & Hu0 & Hh0).
    fold s0 in Hon0, Hu0, Hh0.
    split; [exact Hon0 | apply OnProfile_delaySteps; assumption].
  - intros now0 steps dir v r ticks Hu Had Hdir Hsteps Hpos Hend Hv0 Hv1 HM s0.
    pose proof (moveStepper_OnProfile now0 id steps dir v r Hu Had Hdir Hsteps Hpos Hend
                  Hv0 Hv1 HM) as Hon0.
    destruct (moveStepper_Moving_any now0 id steps dir v r Hu Had Hdir Hsteps Hpos Hend)
      as (_ & _ & _ & Hacc & Hd & Hunit & Hm).
    fold s0 in Hon0, Hacc, Hd, Hm.
    assert (Hend' : is_int (position r + stepUnit (negb (dir =? 0)) * steps))
      by (rewrite Hunit; exact Hend).
    split; [exact Hon0|]. split.
    + apply (Moving_delayRun id (position r) steps (accelSteps s0) (decelSteps s0)
               (negb (dir =? 0))); try assumption; [lia|].
      right. split; assumption.
    + apply (Moving_stops id (position r) steps (accelSteps s0) (decelSteps s0)
               (negb (dir =? 0))); try assumption; [lia|].
      right. exact Hm.
Qed.

Lemma ramping_up_OnProfile : OnProfile 0 ramping_up.
Proof.
  unfold OnProfile. vm_compute.
  repeat split; try discriminate. left. repeat split; discriminate || reflexivity.
Qed.

Lemma C7_delay_monotone_witness :
  let s' := (updateStepper 100000 (fun _ => HIGH) 0 ramping_up).1 in
  (speed ramping_up <= currentDelay s' <= currentDelay ramping_up) /\
  delaySteps ramping_up (history 0 (slow_ticks 31) ramping_up).
Proof.
  pose proof (C7_delay_monotone 100000 (fun _ => HIGH) 0 ramping_up ramping_up_OnProfile) as H.
  cbv zeta in H. destruct H as (A & _ & _ & _ & _ & _ & _ & R & _ & _).
  split; [exact (A eq_refl) | exact (R eq_refl eq_refl (slow_ticks 31))].
Defined.

(* ------------------------------------------------------------------------- *)
(** ** The delay over a lifetime *)

Lemma OnProfile_id id id' s : OnProfile id s -> OnProfile id' s.
Proof. intros H. exact H. Qed.

(** A tick changes the stored delay only on an active accelerated move. *)
Lemma updateStepper_delay_kept now rd i s :
  active s = false \/ homing s = true \/ useAcceleration s = false ->
  currentDelay (updateStepper now rd i s).1 = currentDelay s.
Proof.
  intros Hc.
  destruct (Branch_total now rd s) as [Hs | Ha Hp Hh Hl | Ha Hp Hl Hd | Ha Hp Hh Hd Hl
                                      | Ha Hp Hh Hd Hl | Ha Hp Hh Hl Hd].
  - rewrite updateStepper_idle by assumption. reflexivity.
  - rewrite updateStepper_limit by assumption. reflexivity.
  - rewrite updateStepper_wait by assumption. reflexivity.
  - rewrite updateStepper_homed by assumption. reflexivity.
  - rewrite updateStepper_homing_step by assumption. reflexivity.
  - rewrite updateStepper_move by assumption. cbv zeta.
    assert (Hu : useAcceleration s = false) by (destruct Hc as [? | [? | ?]]; congruence).
    unfold advanced. rewrite Hu.
    destruct (position _ =? target _); reflexivity.
Qed.

Lemma Flat_profileStep i s : Flat s -> Flat (profileStep i s).
Proof.
  intros (Hd & Hp & Hc). unfold Flat, profileStep. fields.
  destruct Hp as [Hp | Hp]; rewrite Hp; simpl Z.eqb; cbv iota.
  - destruct (_ <=? _); fields; rewrite ?Hp; auto.
  - fields. rewrite Hp, Hd. unfold calculateDecelDelay. simpl Z.eqb. cbv iota. auto.
Qed.

Lemma Flat_updateStepper now rd i s : Flat s -> Flat (updateStepper now rd i s).1.
Proof.
  intros Hf.
  destruct (Branch_total now rd s) as [Hs | Ha Hp Hh Hl | Ha Hp Hl Hd | Ha Hp Hh Hd Hl
                                      | Ha Hp Hh Hd Hl | Ha Hp Hh Hl Hd].
  - rewrite updateStepper_idle by assumption. exact Hf.
  - rewrite updateStepper_limit by assumption. exact Hf.
  - rewrite updateStepper_wait by assumption. exact Hf.
  - rewrite updateStepper_homed by assumption. exact Hf.
  - rewrite updateStepper_homing_step by assumption. exact Hf.
  - rewrite updateStepper_move by assumption. cbv zeta.
    assert (Hadv : Flat (advanced now i s)).
    { unfold advanced. destruct (useAcceleration s); [|exact Hf].
      apply Flat_profileStep. exact Hf. }
    destruct (position _ =? target _); exact Hadv.
Qed.

(** Ticks keep the stored delay within the bounds. *)
Lemma DelayKept_updateStepper now rd i s :
  DelayKept s -> DelayKept (updateStepper now rd i s).1.
Proof.
  intros (Hr & Hb & Hc & Hm).
  pose proof (Reachable_updateStepper now rd i s Hr) as Hr'.
  pose proof (updateStepper_sameSetup now rd i s) as Hss.
  destruct (updateStepper_still now rd i s) as (S1 & S2 & S3).
  cbv zeta in *. set (s' := (updateStepper now rd i s).1) in *.
  assert (Emin : minDelay s' = minDelay s) by (unfold sameSetup in Hss; tauto).
  assert (Emax : maxDelay s' = maxDelay s) by (unfold sameSetup in Hss; tauto).
  assert (Eu : useAcceleration s' = useAcceleration s) by (unfold sameSetup in Hss; tauto).
  assert (Esp : speed s' = speed s) by (unfold sameSetup in Hss; tauto).
  unfold DelayKept. rewrite Emin, Emax, Eu, Esp.
  split; [exact Hr'|]. split; [exact Hb|].
  destruct (active s) eqn:Ha; [destruct (homing s) eqn:Hh; [|destruct (useAcceleration s) eqn:Hu]|].
  - (* homing *)
    split.
    + unfold s'. rewrite updateStepper_delay_kept by auto. exact Hc.
    + intros Ha' Hh'. rewrite (S2 Ha') in Hh'. discriminate.
  - (* an accelerated move *)
    destruct (Hm eq_refl eq_refl eq_refl) as (Hv & [Hf | (Hon & p0 & T & a & d & fwd & Hp0 & Hend & HT & Hrange_a & Hrange_d & Hmv)]).
    + pose proof (Flat_updateStepper now rd i s Hf) as Hf'. fold s' in Hf'.
      split.
      * destruct Hf' as (_ & _ & E). rewrite E, Esp. destruct Hf as (_ & _ & E0). lia.
      * intros _ _ _. split; [exact Hv | left; exact Hf'].
    + apply (OnProfile_id 0 i) in Hon.
      pose proof (OnProfile_bounds i s Hon) as Hbd.
      destruct (updateStepper_OnProfile now rd i s Hon) as (A & B & C & D & _).
      fold s' in A, B, C, D.
      split.
      * pose proof Hon as (_ & _ & _ & P).
        destruct P as [(P & _) | [(P & _) | (P & _)]].
        -- specialize (A P). lia.
        -- specialize (B P). lia.
        -- specialize (C P). lia.
      * intros Ha' _ _. split; [exact Hv | right].
        destruct (readLimitSwitch rd (guardPin s)) eqn:Hl.
        { exfalso. revert Ha'. unfold s'.
          rewrite updateStepper_limit; try assumption; [discriminate|apply Hr]. }
        destruct (Moving_step p0 T a d fwd Hp0 Hend HT Hrange_a Hrange_d now rd i s Hmv Hl)
          as (Hmv' & _ & _).
        fold s' in Hmv'.
        split.
        -- apply (OnProfile_id i 0). apply D; [exact Hu | exact Hh|].
           destruct Hmv' as (_ & (_ & ET & _) & (_ & _ & Eact') & _).
           rewrite Ha' in Eact'. symmetry in Eact'. apply Z.ltb_lt in Eact'.
           rewrite ET. exact Eact'.
        -- exists p0, T, a, d, fwd. tauto.
  - (* a constant-speed move *)
    split.
    + unfold s'. rewrite updateStepper_delay_kept by auto. exact Hc.
    + intros _ _ Hf. discriminate.
  - (* inactive *)
    split.
    + unfold s'. rewrite updateStepper_delay_kept by auto. exact Hc.
    + intros Ha'. apply S1 in Ha'. congruence.
Qed.

(** A move of zero steps with acceleration enabled has empty ramps. *)
Lemma moveStepper_zero_Flat now id dir v s :
  useAcceleration s = true -> 0 < acceleration s \/ 0 < deceleration s ->
  is_int (position s) ->
  Flat (moveStepper now id 0 dir v s).1 /\ currentDelay (moveStepper now id 0 dir v s).1 = v.
Proof.
  intros Hu Had Hpos.
  assert (Hbr : useAcceleration s && ((0 <? acceleration s) || (0 <? deceleration s)) = true).
  { rewrite Hu. simpl. apply orb_true_iff. rewrite !Z.ltb_lt. exact Had. }
  assert (E : iadd (position s) (if dir =? 1 then 0 else ineg 0) = position s).
  { unfold iadd, ineg. change (wrap32 (- 0)) with 0.
    destruct (dir =? 1); rewrite Z.add_0_r; apply wrap32_id; exact Hpos. }
  unfold moveStepper. fields. rewrite Hbr, E.
  set (r := (((s <| target_ := position s |>) <| speed_ := v |>)
               <| direction_ ::= negb (dir =? 0) |>) <| homing_ ::= false |>).
  assert (Ediff : isub (position s) (position r) = 0).
  { unfold r, isub. fields. rewrite Z.sub_diag. reflexivity. }
  assert (Hnm : isub (position s) (position r) <> INT_MIN)
    by (rewrite Ediff; unfold INT_MIN; lia).
  destruct (phase_lengths_clamped id (position s) v r Hnm) as (ET & A0 & D0 & Hsum & _).
  destruct (startAcceleratedMove_fields id (position s) v r)
    as (_ & _ & Es & _ & _ & _ & _ & Eph & Ec & _).
  rewrite Ediff in ET. simpl Z.abs in ET. rewrite ET in Hsum.
  destruct (startAcceleratedMove id (position s) v r) as [s1 o1]. fields.
  assert (Ea : accelSteps s1 = 0) by lia.
  assert (Ed : decelSteps s1 = 0) by lia.
  rewrite Ea in Eph, Ec. simpl in Eph, Ec.
  unfold Flat. fields. rewrite Ed, Eph, Ec, Es. auto.
Qed.

Lemma DelayKept_moveStepper now id steps dir v s :
  DelayKept s -> minDelay s <= v <= maxDelay s ->
  (useAcceleration s = true ->
   (dir = 0 \/ dir = 1) /\ 0 <= steps <= INT_MAX /\ is_int (position s) /\
   is_int (position s + (if dir =? 1 then steps else - steps))) ->
  DelayKept (moveStepper now id steps dir v s).1.
Proof.
  intros (Hr & Hb & Hc & Hm) Hv Hacc.
  pose proof (Reachable_moveStepper now id steps dir v s Hr) as Hr'.
  destruct (moveStepper_wiring now id steps dir v s) as (_ & _ & _ & Emax & Emin).
  destruct (moveStepper_flags now id steps dir v s)
    as (_ & _ & _ & _ & _ & Eu & _ & _ & _ & Esp & _).
  unfold DelayKept. rewrite Emax, Emin, Eu, Esp.
  split; [exact Hr'|]. split; [exact Hb|].
  destruct (useAcceleration s) eqn:Hu.
  - destruct (Hacc eq_refl) as (Hdir & Hsteps & Hpos & Hend).
    assert (Had : 0 < acceleration s \/ 0 < deceleration s).
    { destruct Hr as (_ & Hd & _). rewrite Hu in Hd. symmetry in Hd.
      apply orb_true_iff in Hd. rewrite !Z.ltb_lt in Hd. exact Hd. }
    destruct (Z.eq_dec steps 0) as [-> | Hnz].
    + destruct (moveStepper_zero_Flat now id dir v s Hu Had Hpos) as (Hf & Ec).
      rewrite Ec. split; [lia|]. intros _ _ _. split; [lia | left; exact Hf].
    + assert (Hsteps' : 0 < steps <= INT_MAX) by lia.
      pose proof (moveStepper_OnProfile now id steps dir v s Hu Had Hdir Hsteps' Hpos Hend
                    ltac:(lia) ltac:(lia) ltac:(lia)) as Hon.
      pose proof (OnProfile_bounds id _ Hon) as Hbd. rewrite Esp, Emax in Hbd.
      destruct (moveStepper_Moving_any now id steps dir v s Hu Had Hdir Hsteps' Hpos Hend)
        as (_ & _ & _ & Ha & Hd & Hunit & Hmv).
      split; [lia|]. intros _ _ _. split; [lia | right].
      split; [exact (OnProfile_id id 0 _ Hon)|].
      eexists _, _, _, _, _.
      split; [exact Hpos|]. split; [rewrite Hunit; exact Hend|].
      split; [exact (proj2 Hsteps)|]. split; [exact Ha|]. split; [exact Hd | exact Hmv].
  - rewrite (moveStepper_constant now id steps dir v s Hu). fields.
    split; [lia|]. intros _ _ Hf. discriminate.
Qed.

Lemma DelayKept_homeStepper now sp s :
  DelayKept s -> minDelay s <= (match sp with Some v => v | None => 1000 end) <= maxDelay s ->
  DelayKept (homeStepper now sp s).1.
Proof.
  intros (Hr & Hb & Hc & Hm) Hv.
  pose proof (Reachable_homeStepper now sp s Hr) as Hr'.
  unfold DelayKept. split; [exact Hr'|].
  unfold homeStepper. fields.
  split; [exact Hb|]. split; [exact Hv|]. intros _ Hf. discriminate.
Qed.

Lemma DelayKept_initStepper id a b c d e f g h s :
  DelayKept s -> DelayKept (initStepper id a b c d e f g h s).1.
Proof.
  intros (Hr & Hb & Hc & Hm).
  pose proof (Reachable_initStepper id a b c d e f g h s Hr) as Hr'.
  destruct (initStepper_fields id a b c d e f g h s)
    as (_ & Ea & _ & _ & _ & _ & _ & _ & _ & _ & _ & _ & _ & _ & _ & _ & Emin & Emax & _ & _ & Ec).
  unfold DelayKept. rewrite Ea, Emin, Emax, Ec.
  split; [exact Hr'|]. split; [exact Hb|]. split; [exact Hc|]. intros Hf. discriminate.
Qed.

(** Changing a ramp magnitude leaves a move in progress where it is. *)
Lemma DelayKept_ramp_changed s s' :
  DelayKept s -> Reachable s' ->
  (active s' = active s /\ homing s' = homing s /\ paused s' = paused s /\
   direction s' = direction s /\ position s' = position s /\ target s' = target s) ->
  (speed s' = speed s /\ minDelay s' = minDelay s /\ maxDelay s' = maxDelay s /\
   currentDelay s' = currentDelay s) ->
  (totalSteps s' = totalSteps s /\ stepsTaken s' = stepsTaken s /\
   accelSteps s' = accelSteps s /\ decelSteps s' = decelSteps s /\
   movePhase s' = movePhase s) ->
  (active s = true -> homing s = false -> useAcceleration s = false ->
   useAcceleration s' = false) ->
  DelayKept s'.
Proof.
  intros (Hr & Hb & Hc & Hm) Hr' (F1 & F2 & F3 & F4 & F5 & F6) (G1 & G2 & G3 & G4)
    (P1 & P2 & P3 & P4 & P5) Hoff.
  unfold DelayKept. rewrite F1, F2, G1, G2, G3, G4.
  split; [exact Hr'|]. split; [exact Hb|]. split; [exact Hc|].
  intros Ha Hh Hu'.
  destruct (useAcceleration s) eqn:Hu.
  2:{ rewrite (Hoff Ha Hh eq_refl) in Hu'. discriminate. }
  destruct (Hm Ha Hh eq_refl) as (Hv & [Hf | (Hon & p0 & T & a & d & fwd & Hrest)]).
  - split; [exact Hv | left].
    unfold Flat in *. rewrite P4, P5, G4, G1. exact Hf.
  - split; [exact Hv | right]. split.
    + unfold OnProfile in *. rewrite G1, G3, G4, P1, P2, P3, P4, P5. exact Hon.
    + exists p0, T, a, d, fwd.
      destruct Hrest as (Hp0 & Hend & HT & Hra & Hrd & Hmv).
      refine (conj Hp0 (conj Hend (conj HT (conj Hra (conj Hrd _))))).
      unfold Moving, PhaseOk in *.
      rewrite Hu', F1, F2, F3, F4, F5, F6, P1, P2, P3, P4, P5.
      rewrite Hu in Hmv. exact Hmv.
Qed.

Lemma DelayKept_setAcceleration v s :
  DelayKept s ->
  (active s = true -> homing s = false -> useAcceleration s = false -> v <= 0) ->
  DelayKept (setAcceleration v s).
Proof.
  intros Hk Hadm.
  apply (DelayKept_ramp_changed s); try (unfold setAcceleration; fields; tauto).
  - apply Reachable_setAcceleration. apply Hk.
  - intros Ha Hh Hu. specialize (Hadm Ha Hh Hu).
    destruct Hk as ((_ & Hd & _) & _). rewrite Hu in Hd.
    symmetry in Hd. apply orb_false_iff in Hd. destruct Hd as (_ & Hd).
    unfold setAcceleration. fields. rewrite Hd.
    apply orb_false_iff. split; [lia | reflexivity].
Qed.

Lemma DelayKept_setDeceleration v s :
  DelayKept s ->
  (active s = true -> homing s = false -> useAcceleration s = false -> v <= 0) ->
  DelayKept (setDeceleration v s).
Proof.
  intros Hk Hadm.
  apply (DelayKept_ramp_changed s); try (unfold setDeceleration; fields; tauto).
  - apply Reachable_setDeceleration. apply Hk.
  - intros Ha Hh Hu. specialize (Hadm Ha Hh Hu).
    destruct Hk as ((_ & Hd & _) & _). rewrite Hu in Hd.
    symmetry in Hd. apply orb_false_iff in Hd. destruct Hd as (Hd & _).
    unfold setDeceleration. fields. rewrite Hd.
    apply orb_false_iff. split; [reflexivity | lia].
Qed.

Lemma DelayKept_setSpeedLimits lo hi s :
  DelayKept s -> 0 <= lo -> lo <= currentDelay s <= hi -> hi <= 2 ^ 24 ->
  (active s = true -> homing s = false -> useAcceleration s = false) ->
  DelayKept (setSpeedLimits lo hi s).
Proof.
  intros (Hr & Hb & Hc & Hm) Hlo Hcd Hhi Hoff.
  pose proof (Reachable_setSpeedLimits lo hi s Hr) as Hr'.
  unfold DelayKept. split; [exact Hr'|].
  unfold setSpeedLimits. fields.
  split; [lia|]. split; [exact Hcd|]. intros Ha Hh Hu.
  rewrite (Hoff Ha Hh) in Hu. discriminate.
Qed.

Lemma onStepper_Forall_at (P : StepperConfig -> Prop) id (st st' : Steppers) f out :
  (forall s, 0 <= id -> st !! Z.to_nat id = Some s -> P s -> P (f s).1) -> Forall P st ->
  onStepper id st f = Done st' out -> Forall P st' /\ length st' = length st.
Proof.
  intros Hf Hst. unfold onStepper.
  destruct ((0 <=? id) && (id <? MAX_STEPPERS)) eqn:Hv; [|discriminate].
  destruct (st !! Z.to_nat id) as [s|] eqn:Hs; [|discriminate].
  intros E. inversion E; subst. split; [|apply length_insert].
  apply Forall_insert_list; [exact Hst|]. apply Hf; [lia | reflexivity|].
  rewrite Forall_forall in Hst. apply Hst. eapply list_elem_of_lookup_2. exact Hs.
Qed.

Lemma handleCommand_DelayKept now rd c (st st' : Steppers) out :
  Forall DelayKept st -> admissible c st -> handleCommand now rd c st = Done st' out ->
  Forall DelayKept st' /\ length st' = length st.
Proof.
  intros Hst Hadm. destruct c; simpl in Hadm |- *.
  - apply onStepper_Forall_at; [|exact Hst]. intros s _ _. apply DelayKept_initStepper.
  - destruct (id <? MAX_STEPPERS).
    + apply onStepper_Forall_at; [|exact Hst]. intros s Hid Hs Hk.
      destruct (Hadm s Hid Hs) as (Hv & Hacc). apply DelayKept_moveStepper; assumption.
    + intros E. inversion E; subst. auto.
  - apply onStepper_Forall_at; [|exact Hst]. intros s Hid Hs Hk.
    apply DelayKept_homeStepper; [exact Hk | exact (Hadm s Hid Hs)].
  - destruct (validId id).
    + apply onStepper_Forall_at; [|exact Hst]. intros s Hid Hs Hk.
      apply DelayKept_setAcceleration; [exact Hk | exact (Hadm s Hid Hs)].
    + intros E. inversion E; subst. auto.
  - destruct (validId id).
    + apply onStepper_Forall_at; [|exact Hst]. intros s Hid Hs Hk.
      apply DelayKept_setDeceleration; [exact Hk | exact (Hadm s Hid Hs)].
    + intros E. inversion E; subst. auto.
  - destruct (validId id).
    + apply onStepper_Forall_at; [|exact Hst]. intros s Hid Hs Hk.
      destruct (Hadm s Hid Hs) as ((Hlo & Hcd & Hhi) & Hoff).
      apply DelayKept_setSpeedLimits; assumption.
    + intros E. inversion E; subst. auto.
  - destruct (validId id).
    + intros E. apply readStepper_same in E. subst. auto.
    + intros E. inversion E; subst. auto.
  - destruct (validId _).
    + intros E. apply readStepper_same in E. subst. auto.
    + intros E. inversion E; subst. auto.
Qed.

Lemma updateSteppers_DelayKept now rd (st : Steppers) :
  length st = Z.to_nat MAX_STEPPERS -> Forall DelayKept st ->
  Forall DelayKept (updateSteppers now rd st).1.
Proof.
  intros Hlen Hst. destruct (Steppers_two st Hlen) as (s0 & s1 & ->).
  rewrite updateSteppers_two. simpl.
  inversion Hst as [|? ? H0 Hst']; subst. inversion Hst' as [|? ? H1 _]; subst.
  constructor; [apply DelayKept_updateStepper; assumption|].
  constructor; [apply DelayKept_updateStepper; assumption | constructor].
Qed.

Lemma session_DelayKept ins : forall (st st' : Steppers) out,
  length st = Z.to_nat MAX_STEPPERS -> Forall DelayKept st ->
  admissibleSession ins st -> session ins st = Done st' out ->
  Forall DelayKept st' /\ length st' = Z.to_nat MAX_STEPPERS.
Proof.
  induction ins as [|x ins IH]; intros st st' out Hlen Hst Hadm E; simpl in E.
  - inversion E; subst. auto.
  - destruct Hadm as (Hx & Hrest).
    destruct (feed x st) as [st1 o1|] eqn:E1; [|discriminate].
    destruct (session ins st1) as [st2 o2|] eqn:E2; [|discriminate].
    inversion E; subst.
    assert (H1 : Forall DelayKept st1 /\ length st1 = Z.to_nat MAX_STEPPERS).
    { destruct x; simpl in E1.
      - apply (handleCommand_DelayKept _ _ _ _ _ _ Hst Hx) in E1.
        split; [tauto | lia].
      - inversion E1; subst. split.
        + apply updateSteppers_DelayKept; assumption.
        + apply updateSteppers_length. exact Hlen. }
    apply (IH st1 st' o2); tauto.
Qed.

Lemma admissibleSession_app ins more : forall st,
  admissibleSession (ins ++ more) st -> admissibleSession ins st.
Proof.
  induction ins as [|x ins IH]; intros st H; [exact I|].
  simpl in H |- *. destruct H as (Hx & Hrest). split; [exact Hx|].
  destruct (feed x st); [apply IH; exact Hrest | exact I].
Qed.

Lemma DelayKept_initial : DelayKept initial_stepper.
Proof.
  unfold DelayKept. split; [apply Reachable_initial|]. simpl.
  split; [lia|]. split; [lia|]. intros Hf. discriminate.
Qed.

(** In a run of admissible inputs from [setup()] the stored delay of every
    axis is within its bounds at every point. *)
Lemma delay_within_bounds ins more (st : Steppers) out :
  admissibleSession (ins ++ more) setup_steppers ->
  session ins setup_steppers = Done st out ->
  Forall (fun s => minDelay s <= currentDelay s <= maxDelay s) st.
Proof.
  intros Hadm E. apply admissibleSession_app in Hadm.
  assert (H0 : Forall DelayKept setup_steppers).
  { constructor; [apply DelayKept_initial|].
    constructor; [apply DelayKept_initial | constructor]. }
  destruct (session_DelayKept ins setup_steppers st out eq_refl H0 Hadm E) as (H & _).
  eapply Forall_impl; [exact H|]. intros s Hs. apply Hs.
Qed.

(** C5 does not hold as stated: nothing compares a delay with [minDelay]
    or [maxDelay].  A move commanded at speed 100 on an axis with the
    default bounds [500, 5000] stores [currentDelay = 100], and the
    calculator returns 105 near the end of an acceleration phase toward
    that speed.  With every commanded speed within the bounds: new bounds
    [2000, 5000] leave the stored delay of 1000 below [minDelay]; an
    accelerated move that cannot reach its target (30 steps commanded with
    [dir] 2) steps on in DECEL past its 30 steps, to a delay of 5375; so
    does a constant-speed move during which acceleration is switched on,
    the scheduler then resuming the profile of the move before; and new
    bounds [2000, 5000] set during an ACCEL ramp, around the stored delay
    of 4625, are left behind by the ramp on its way down to speed 500. *)
Lemma C5_counterexample :
  let s := (moveStepper 0 0 10 1 100 initial_stepper).1 in
  let quiet := fun _ : Z => HIGH in
  let m := (runStepper 0 (slow_ticks 31) (moveStepper 0 0 30 2 500 both_ramps).1).1 in
  let switched :=
    [ on_command 0 quiet (set_stepper_acceleration 0 500);
      on_command 0 quiet (set_stepper_deceleration 0 500);
      on_command 0 quiet (move_stepper 0 30 1 500) ] ++
    map on_tick (slow_ticks 30) ++
    [ on_command 200000 quiet (set_stepper_acceleration 0 0);
      on_command 200000 quiet (set_stepper_deceleration 0 0);
      on_command 200000 quiet (move_stepper 0 5 1 500);
      on_command 200010 quiet (set_stepper_acceleration 0 500);
      on_tick {| tick_now := 210000; tick_pins := quiet |} ] in
  let ramping :=
    [ on_command 0 quiet (set_stepper_acceleration 0 500);
      on_command 0 quiet (set_stepper_deceleration 0 500);
      on_command 0 quiet (move_stepper 0 30 1 500);
      on_tick {| tick_now := 5000; tick_pins := quiet |} ] in
  let narrowed :=
    ramping ++ on_command 6000 quiet (set_stepper_speed_limits 0 2000 5000)
            :: map on_tick (slow_ticks 10) in
  (minDelay s = 500 /\ maxDelay s = 5000 /\ currentDelay s = 100) /\
  calculateAccelDelay 0 999 1000 5000 100 = 105 /\
  (exists st out s',
     session [on_command 0 quiet (set_stepper_speed_limits 0 2000 5000)] setup_steppers
       = Done st out /\
     st !! 0%nat = Some s' /\ minDelay s' = 2000 /\ currentDelay s' = 1000) /\
  (minDelay m = 500 /\ maxDelay m = 5000 /\ speed m = 500 /\ currentDelay m = 5375) /\
  (exists st out s',
     session switched setup_steppers = Done st out /\ st !! 0%nat = Some s' /\
     minDelay s' = 500 /\ maxDelay s' = 5000 /\ speed s' = 500 /\ currentDelay s' = 5375) /\
  (exists st out s',
     session ramping setup_steppers = Done st out /\ st !! 0%nat = Some s' /\
     currentDelay s' = 4625) /\
  (exists st out s',
     session narrowed setup_steppers = Done st out /\ st !! 0%nat = Some s' /\
     minDelay s' = 2000 /\ maxDelay s' = 5000 /\ speed s' = 500 /\ currentDelay s' = 1250).
Proof.
  cbv zeta. split; [vm_compute; repeat split; reflexivity|].
  split; [vm_compute; reflexivity|].
  split; [eexists _, _, _; vm_compute; repeat split; reflexivity|].
  split; [vm_compute; repeat split; reflexivity|].
  split; [eexists _, _, _; vm_compute; repeat split; reflexivity|].
  split; [eexists _, _, _; vm_compute; repeat split; reflexivity|].
  eexists _, _, _. vm_compute. repeat split; reflexivity.
Qed.

(** C5 (amended).  The firmware never compares a delay with [minDelay] or
    [maxDelay]; [currentDelay] stays within [[minDelay, maxDelay]] under
    these conditions.  For a commanded speed [v] within the bounds, the
    bounds being at most [2^24]: the calculator's delays for a step index
    within the phase lie between [v] and [maxDelay]; a move command stores
    [v] or [maxDelay] and a home command stores [v]; a tick of an axis on
    its profile whose speed is at least [minDelay] leaves [currentDelay]
    within the bounds; and a tick of an axis that is inactive, homing or
    has acceleration disabled leaves [currentDelay] as it is.  Over a
    lifetime: in every run of commands and ticks from [setup()] in which
    each command is admissible when it arrives ([admissible]: commanded
    speeds within the bounds, moves of an axis with acceleration enabled
    commanded with [dir] 0 or 1 and a representable target, acceleration
    not switched on during a constant-speed move, bounds not changed
    during an accelerated move, new bounds enclosing the stored delay),
    [currentDelay] is within [[minDelay, maxDelay]] on every axis at every
    point of the run. *)
Theorem C5_delay_bounds now id steps dir v s :
  0 <= v -> minDelay s <= v -> v <= maxDelay s -> maxDelay s <= 2 ^ 24 ->
  (forall k n, 0 <= k <= n ->
     minDelay s <= calculateAccelDelay id k n (maxDelay s) v <= maxDelay s /\
     minDelay s <= calculateDecelDelay id k n v (maxDelay s) <= maxDelay s) /\
  (let s' := (moveStepper now id steps dir v s).1 in
   minDelay s' = minDelay s /\ maxDelay s' = maxDelay s /\
   minDelay s' <= currentDelay s' <= maxDelay s') /\
  (let s' := (homeStepper now (Some v) s).1 in
   minDelay s' = minDelay s /\ maxDelay s' = maxDelay s /\
   minDelay s' <= currentDelay s' <= maxDelay s') /\
  (forall rd t, OnProfile id t -> minDelay t <= speed t ->
     let t' := (updateStepper now rd id t).1 in
     minDelay t' = minDelay t /\ maxDelay t' = maxDelay t /\
     minDelay t' <= currentDelay t' <= maxDelay t') /\
  (forall rd t, active t = false \/ homing t = true \/ useAcceleration t = false ->
     let t' := (updateStepper now rd id t).1 in
     minDelay t' = minDelay t /\ maxDelay t' = maxDelay t /\
     currentDelay t' = currentDelay t) /\
  (forall ins more (st : Steppers) out,
     admissibleSession (ins ++ more) setup_steppers ->
     session ins setup_steppers = Done st out ->
     Forall (fun s' => minDelay s' <= currentDelay s' <= maxDelay s') st).
Proof.
  intros H0 H1 H2 H3. split; [|split; [|split; [|split; [|split]]]].
  - intros k n Hk.
    pose proof (calculateAccelDelay_bounds v (maxDelay s) H0 H2 H3 id k n Hk).
    pose proof (calculateDecelDelay_bounds v (maxDelay s) H0 H2 H3 id k n Hk).
    lia.
  - unfold moveStepper. fields.
    destruct (useAcceleration s && ((0 <? acceleration s) || (0 <? deceleration s))).
    + match goal with
      | |- context [startAcceleratedMove id ?t v ?r] =>
          destruct (startAcceleratedMove_fields id t v r)
            as (_ & _ & _ & _ & _ & _ & _ & _ & Ec & _ & _ & _ & _ & _ & Em & En & _);
          destruct (startAcceleratedMove id t v r) as [s1 o1]
      end.
      fields. rewrite Ec, Em, En.
      destruct (0 <? accelSteps s1); fields; lia.
    + fields. lia.
  - unfold homeStepper. fields. lia.
  - intros rd t Hon Hmin t'.
    pose proof (OnProfile_bounds id t Hon) as Hb.
    destruct (updateStepper_OnProfile now rd id t Hon) as (A & B & C & _ & E1 & E2 & E3).
    fold t' in A, B, C, E1, E2, E3. rewrite E2, E3.
    split; [reflexivity|]. split; [reflexivity|].
    destruct Hon as (_ & _ & _ & P).
    destruct P as [(P & _) | [(P & _) | (P & _)]].
    + specialize (A P). lia.
    + specialize (B P). lia.
    + specialize (C P). lia.
  - intros rd t Hc t'.
    pose proof (updateStepper_sameSetup now rd id t) as Hss. fold t' in Hss.
    split; [unfold sameSetup in Hss; tauto|]. split; [unfold sameSetup in Hss; tauto|].
    apply updateStepper_delay_kept. exact Hc.
  - intros ins more st out. apply delay_within_bounds.
Qed.

(** Replace the outcome of the next input of a concrete session by its value. *)
Ltac feed_step :=
  match goal with
  | |- match ?f with Done _ _ => _ | OutOfBounds _ => _ end =>
      let v := eval vm_compute in f in
      replace f with v by (vm_compute; reflexivity); cbv iota beta
  end.

(** Name the record a command of a concrete session addresses. *)
Ltac at_axis :=
  let s := fresh "s" in let Hs := fresh "Hs" in
  intros s _ Hs; vm_compute in Hs; injection Hs as <-; fields.

Lemma sample_session_admissible : admissibleSession (sample_session ++ []) setup_steppers.
Proof.
  unfold sample_session. rewrite app_nil_r. cbn [admissibleSession].
  split; [exact I|]. feed_step.
  split; [at_axis; intros Hact; discriminate Hact|]. feed_step.
  split.
  { at_axis. split; [lia|]. intros _.
    unfold is_int, INT_MIN, INT_MAX. simpl. repeat split; lia. }
  feed_step.
  split; [exact I|]. feed_step.
  split; [at_axis; lia|]. feed_step.
  split; [exact I|]. feed_step.
  split; [exact I|]. feed_step.
  exact I.
Qed.

Lemma C5_delay_bounds_witness :
  let s' := (moveStepper 0 0 2000 1 800
               (setDeceleration 500 (setAcceleration 500 initial_stepper))).1 in
  (minDelay s' = 500 /\ maxDelay s' = 5000 /\ minDelay s' <= currentDelay s' <= maxDelay s') /\
  exists st out, session sample_session setup_steppers = Done st out /\
    Forall (fun s => minDelay s <= currentDelay s <= maxDelay s) st.
Proof.
  pose proof (C5_delay_bounds 0 0 2000 1 800
    (setDeceleration 500 (setAcceleration 500 initial_stepper))
    ltac:(lia) ltac:(simpl; lia) ltac:(simpl; lia) ltac:(simpl; lia)) as H.
  destruct H as (_ & A & _ & _ & _ & L).
  split; [exact A|].
  eexists _, _. split; [vm_compute; reflexivity|].
  eapply (L sample_session [] _ _ sample_session_admissible).
  vm_compute. reflexivity.
Defined.

(* ------------------------------------------------------------------------- *)
(** ** Properties of the serial line assembly *)

Module SerialInputFacts.
Import SerialInput.

Lemma readSerial_app a b buf :
  readSerial (a ++ b) buf =
  ((readSerial b (readSerial a buf).1).1,
   (readSerial a buf).2 ++ (readSerial b (readSerial a buf).1).2).
Proof.
  revert buf. induction a as [|c a IH]; intros buf; simpl.
  - destruct (readSerial b buf); reflexivity.
  - rewrite IH. simpl. rewrite app_assoc. reflexivity.
Qed.

Lemma plain_eqb c : plain c -> Ascii.eqb c LF = false /\ Ascii.eqb c CR = false.
Proof. intros [H1 H2]. split; apply Ascii.eqb_neq; assumption. Qed.

Lemma readChar_plain c buf :
  plain c -> (length buf < 500)%nat -> readChar c buf = (buf ++ [c], []).
Proof.
  intros Hc Hlen. destruct (plain_eqb c Hc) as [E1 E2].
  unfold readChar. rewrite E1, E2. simpl.
  assert (E : Nat.ltb 500 (length (buf ++ [c])) = false).
  { apply Nat.ltb_ge. rewrite length_app. simpl. lia. }
  rewrite E. reflexivity.
Qed.

Lemma readSerial_plain l : forall buf,
  Forall plain l -> (length buf + length l <= 500)%nat ->
  readSerial l buf = (buf ++ l, []).
Proof.
  induction l as [|c l IH]; intros buf Hl Hlen; simpl.
  - rewrite app_nil_r. reflexivity.
  - inversion Hl; subst. simpl in Hlen.
    rewrite readChar_plain by (assumption || lia). simpl.
    rewrite IH; [|assumption | rewrite length_app; simpl; lia].
    rewrite <- app_assoc. reflexivity.
Qed.

Lemma readChar_invariant c buf :
  (length buf <= 500)%nat -> Forall plain buf ->
  (length (readChar c buf).1 <= 500)%nat /\ Forall plain (readChar c buf).1 /\
  Forall wellFormedCall (readChar c buf).2.
Proof.
  intros Hlen Hp. unfold readChar.
  destruct (Ascii.eqb c LF) eqn:E1.
  - destruct (Nat.ltb 0 (length buf)) eqn:E0; cbn [fst snd].
    + apply Nat.ltb_lt in E0.
      split; [simpl; lia|]. split; [constructor|].
      constructor; [|constructor]. simpl. split; [lia | exact Hp].
    + split; [exact Hlen|]. split; [exact Hp | constructor].
  - destruct (Ascii.eqb c CR) eqn:E2; cbn [negb fst snd].
    + split; [exact Hlen|]. split; [exact Hp | constructor].
    + destruct (Nat.ltb 500 (length (buf ++ [c]))) eqn:E5; cbn [fst snd].
      * split; [simpl; lia|]. split; [constructor|].
        constructor; [exact I | constructor].
      * apply Nat.ltb_ge in E5. split; [exact E5|]. split; [|constructor].
        apply Forall_app. split; [exact Hp|]. constructor; [|constructor].
        split; apply Ascii.eqb_neq; assumption.
Qed.

Lemma readSerial_invariant cs : forall buf,
  (length buf <= 500)%nat -> Forall plain buf ->
  (length (readSerial cs buf).1 <= 500)%nat /\ Forall plain (readSerial cs buf).1 /\
  Forall wellFormedCall (readSerial cs buf).2.
Proof.
  induction cs as [|c cs IH]; intros buf Hlen Hp; simpl.
  - repeat split; auto.
  - destruct (readChar_invariant c buf Hlen Hp) as (H1 & H2 & H3).
    destruct (IH _ H1 H2) as (I1 & I2 & I3).
    repeat split; auto. apply Forall_app. auto.
Qed.

End SerialInputFacts.

(** X16.  Whatever arrives on the serial port after power-up, in however
    many pieces, the line buffer never holds more than 500 characters, and
    [handleCommand] is only ever called with a line of 1 to 500 characters
    that contains neither a line feed nor a carriage return. *)
Theorem line_buffer_bounded (received : list ascii) :
  let r := SerialInput.readSerial received [] in
  (length r.1 <= 500)%nat /\ Forall SerialInput.wellFormedCall r.2.
Proof.
  intros r.
  destruct (SerialInputFacts.readSerial_invariant received []) as (H1 & _ & H3);
    [simpl; lia | constructor | auto].
Qed.

(** X17.  Lines of at most 500 characters come through unchanged and in
    order: a text made of such lines, each ended by a line feed, makes the
    loop call [handleCommand] once for every line that is not empty, with
    exactly that line, and leaves the buffer empty.  Empty lines are
    skipped without a call. *)
Theorem lines_dispatched_in_order (lines : list (list ascii)) :
  Forall (fun l => Forall SerialInput.plain l /\ (length l <= 500)%nat) lines ->
  SerialInput.readSerial (SerialInput.unlines lines) [] =
  ([], map SerialInput.handleCommand_call (List.filter SerialInput.nonEmpty lines)).
Proof.
  intros H. induction lines as [|l lines IH]; [reflexivity|].
  inversion H as [|? ? [Hp Hlen] Hrest]; subst.
  unfold SerialInput.unlines in *. cbn [map concat].
  rewrite <- app_assoc, SerialInputFacts.readSerial_app.
  rewrite (SerialInputFacts.readSerial_plain l []) by (assumption || simpl; lia).
  cbn [app fst snd SerialInput.readSerial].
  unfold SerialInput.readChar. simpl Ascii.eqb. cbv iota.
  cbn [List.filter]. unfold SerialInput.nonEmpty at 1.
  destruct (Nat.ltb 0 (length l)) eqn:E; cbn [fst snd].
  - rewrite (IH Hrest). reflexivity.
  - assert (l = []) as -> by (apply Nat.ltb_ge in E; destruct l; [reflexivity | simpl in E; lia]).
    rewrite (IH Hrest). reflexivity.
Qed.

Lemma readSerial_single_line l :
  Forall SerialInput.plain l -> (length l <= 500)%nat ->
  SerialInput.readSerial (l ++ [SerialInput.LF]) [] =
  ([], if SerialInput.nonEmpty l then [SerialInput.handleCommand_call l] else []).
Proof.
  intros Hp Hlen. rewrite SerialInputFacts.readSerial_app.
  rewrite (SerialInputFacts.readSerial_plain l []) by (assumption || simpl; lia).
  cbn [app fst snd SerialInput.readSerial].
  unfold SerialInput.readChar. simpl Ascii.eqb. cbv iota. unfold SerialInput.nonEmpty.
  destruct (Nat.ltb 0 (length l)) eqn:E; cbn [fst snd]; [reflexivity|].
  assert (l = []) as -> by (apply Nat.ltb_ge in E; destruct l; [reflexivity | simpl in E; lia]).
  reflexivity.
Qed.

Lemma lines_dispatched_in_order_witness :
  SerialInput.readSerial (SerialInput.unlines SerialInput.sample_lines) [] =
  ([], [SerialInput.handleCommand_call (list_ascii_of_string "first");
        SerialInput.handleCommand_call (list_ascii_of_string "second")]).
Proof.
  apply (lines_dispatched_in_order SerialInput.sample_lines).
  repeat constructor; try discriminate; simpl; lia.
Defined.

(** X18.  Carriage returns are dropped wherever they stand: the loop does
    with a text what it does with the same text without its carriage
    returns, so lines ended by CR LF are handled like lines ended by LF. *)
Theorem carriage_returns_ignored (received inputString : list ascii) :
  SerialInput.readSerial received inputString =
  SerialInput.readSerial (List.filter SerialInput.notCR received) inputString.
Proof.
  revert inputString. induction received as [|c cs IH]; intros buf; [reflexivity|].
  cbn [List.filter]. unfold SerialInput.notCR at 1.
  destruct (Ascii.eqb c SerialInput.CR) eqn:E; cbn [negb SerialInput.readSerial].
  - apply Ascii.eqb_eq in E. subst c.
    change (SerialInput.readChar SerialInput.CR buf) with (buf, @nil SerialInput.LoopEvent).
    cbn [fst snd app]. rewrite <- IH. destruct (SerialInput.readSerial cs buf); reflexivity.
  - rewrite IH. reflexivity.
Qed.

(** X19.  A line that is too long is not dropped as a whole.  The 501st
    character empties the buffer and reports [command_too_long]; what
    follows on the same line is collected as if it began a new line and is
    passed to [handleCommand] when the line feed arrives. *)
Theorem overlong_line_tail_dispatched (head tail : list ascii) :
  length head = 501%nat -> Forall SerialInput.plain head ->
  (length tail <= 500)%nat -> Forall SerialInput.plain tail ->
  SerialInput.readSerial (head ++ tail ++ [SerialInput.LF]) [] =
  ([], SerialInput.command_too_long ::
       (if SerialInput.nonEmpty tail then [SerialInput.handleCommand_call tail] else [])).
Proof.
  intros Hlen Hp Htl Htp.
  destruct (List.exists_last (l := head)) as (h' & c & ->).
  { intros ->. discriminate. }
  rewrite length_app in Hlen. simpl in Hlen.
  apply Forall_app in Hp. destruct Hp as [Hp' Hc]. inversion Hc as [|? ? Hc' _]; subst.
  rewrite <- !app_assoc. rewrite SerialInputFacts.readSerial_app.
  rewrite (SerialInputFacts.readSerial_plain h' []) by (assumption || simpl; lia).
  cbn [app fst snd SerialInput.readSerial].
  destruct (SerialInputFacts.plain_eqb c Hc') as [E1 E2].
  assert (Erc : SerialInput.readChar c h' = ([], [SerialInput.command_too_long])).
  { unfold SerialInput.readChar. rewrite E1, E2. cbn [negb].
    assert (E : Nat.ltb 500 (length (h' ++ [c])) = true).
    { apply Nat.ltb_lt. rewrite length_app. simpl. lia. }
    rewrite E. reflexivity. }
  rewrite Erc. cbn [fst snd].
  rewrite (readSerial_single_line tail Htp Htl). reflexivity.
Qed.

Lemma overlong_line_tail_dispatched_witness :
  SerialInput.readSerial (SerialInput.overlong_head ++ list_ascii_of_string "tail" ++ [SerialInput.LF]) [] =
  ([], [SerialInput.command_too_long;
        SerialInput.handleCommand_call (list_ascii_of_string "tail")]).
Proof.
  apply (overlong_line_tail_dispatched SerialInput.overlong_head (list_ascii_of_string "tail")).
  - reflexivity.
  - apply Forall_forall. intros c Hc. apply list_elem_of_In, repeat_spec in Hc. subst c.
    split; discriminate.
  - simpl. lia.
  - repeat constructor; discriminate.
Defined.

(* ------------------------------------------------------------------------- *)
(** ** Properties of the servo slots *)

Module ServoFacts.
Import ServoSlots.

Lemma findSlot_offset pin l : forall i,
  findSlot pin l i = option_map (fun k => (k + i)%nat) (findSlot pin l 0).
Proof.
  induction l as [|p l IH]; intros i; simpl; [reflexivity|].
  destruct (p =? pin); [reflexivity|].
  rewrite (IH (S i)), (IH 1%nat).
  destruct (findSlot pin l 0); simpl; [f_equal; lia | reflexivity].
Qed.

Lemma findSlot_cons pin p l :
  findSlot pin (p :: l) 0 =
  if p =? pin then Some 0%nat else option_map S (findSlot pin l 0).
Proof.
  simpl. destruct (p =? pin); [reflexivity|].
  rewrite findSlot_offset. destruct (findSlot pin l 0); simpl; [f_equal; lia | reflexivity].
Qed.

Lemma findSlot_None pin l : findSlot pin l 0 = None <-> ~ In pin l.
Proof.
  induction l as [|p l IH]; [simpl; tauto|].
  rewrite findSlot_cons. destruct (p =? pin) eqn:E.
  - apply Z.eqb_eq in E. split; [discriminate | intros H; exfalso; apply H; left; exact E].
  - apply Z.eqb_neq in E. destruct (findSlot pin l 0) eqn:F; simpl.
    + split; [discriminate|]. intros H. exfalso. apply H. right.
      destruct (In_dec Z.eq_dec pin l) as [Hin | Hn]; [exact Hin|].
      apply IH in Hn. discriminate.
    + split; [|reflexivity]. intros _ [H | H]; [auto|]. apply (proj1 IH eq_refl). exact H.
Qed.

(** [findSlot] returns the first slot that holds [pin]. *)
Lemma findSlot_spec pin l : forall k,
  findSlot pin l 0 = Some k <->
  l !! k = Some pin /\ forall j q, (j < k)%nat -> l !! j = Some q -> q <> pin.
Proof.
  induction l as [|p l IH]; intros k.
  - simpl. split; [discriminate | intros [H _]; destruct k; discriminate].
  - rewrite findSlot_cons. destruct (p =? pin) eqn:E.
    + apply Z.eqb_eq in E. subst p. split.
      * intros H. inversion H; subst. split; [reflexivity|]. intros j q Hj. lia.
      * intros [H1 H2]. destruct k as [|k]; [reflexivity|].
        exfalso. apply (H2 0%nat pin); [lia | reflexivity | reflexivity].
    + apply Z.eqb_neq in E. split.
      * destruct (findSlot pin l 0) as [k'|] eqn:F; simpl; [|discriminate].
        intros H. inversion H; subst. destruct (proj1 (IH k') eq_refl) as [H1 H2].
        split; [exact H1|]. intros j q Hj Hq. destruct j as [|j]; simpl in Hq.
        -- inversion Hq; subst. exact E.
        -- apply (H2 j); [lia | exact Hq].
      * intros [H1 H2]. destruct k as [|k]; simpl in H1.
        -- inversion H1; subst. contradiction.
        -- assert (F : findSlot pin l 0 = Some k).
           { apply IH. split; [exact H1|]. intros j q Hj Hq.
             apply (H2 (S j)); [lia | exact Hq]. }
           rewrite F. reflexivity.
Qed.

Lemma setServo_found pin angle ap i :
  findSlot pin ap 0 = Some i ->
  setServo pin angle ap = (ap, [servo_write i angle], servo_reply true pin angle).
Proof. intros H. unfold setServo. rewrite H. reflexivity. Qed.

(** A command leaves every attached pin in its slot. *)
Lemma setServo_keeps pin i q angle ap :
  pin <> -1 -> findSlot pin ap 0 = Some i ->
  findSlot pin (setServo q angle ap).1.1 0 = Some i.
Proof.
  intros Hpin Hi. unfold setServo.
  destruct (findSlot q ap 0) as [k|] eqn:Fq; [exact Hi|].
  destruct (findSlot (-1) ap 0) as [k|] eqn:Ff; [|exact Hi].
  cbn [fst]. apply findSlot_None in Fq.
  apply findSlot_spec in Hi. destruct Hi as [H1 H2].
  apply findSlot_spec in Ff. destruct Ff as [F1 F2].
  assert (Hq : q <> pin).
  { intros ->. apply Fq. eapply list_elem_of_In, list_elem_of_lookup_2. exact H1. }
  assert (Hki : k <> i) by (intros ->; rewrite F1 in H1; inversion H1; lia).
  apply findSlot_spec. split.
  - rewrite list_lookup_insert_ne by exact Hki. exact H1.
  - intros j p Hj Hp. destruct (Nat.eq_dec k j) as [-> | Hkj].
    + rewrite list_lookup_insert_eq in Hp by (apply lookup_lt_Some in F1; exact F1).
      inversion Hp; subst. exact Hq.
    + rewrite list_lookup_insert_ne in Hp by exact Hkj. apply (H2 j); assumption.
Qed.

Lemma setServos_keeps pin i cmds : forall ap,
  pin <> -1 -> findSlot pin ap 0 = Some i ->
  findSlot pin (setServos cmds ap).1.1 0 = Some i.
Proof.
  induction cmds as [|[q a] cmds IH]; intros ap Hpin Hi; [exact Hi|].
  cbn [setServos].
  pose proof (setServo_keeps pin i q a ap Hpin Hi) as H1.
  destruct (setServo q a ap) as [[a1 c1] r1]. cbn [fst] in H1.
  pose proof (IH a1 Hpin H1) as H2.
  destruct (setServos cmds a1) as [[a2 c2] r2]. exact H2.
Qed.

Lemma setServo_full pin angle ap :
  ~ In (-1) ap -> (setServo pin angle ap).1.1 = ap.
Proof.
  intros Hfull. unfold setServo.
  destruct (findSlot pin ap 0); [reflexivity|].
  apply findSlot_None in Hfull. rewrite Hfull. reflexivity.
Qed.

Lemma setServos_full cmds : forall ap, ~ In (-1) ap -> (setServos cmds ap).1.1 = ap.
Proof.
  induction cmds as [|[q a] cmds IH]; intros ap Hfull; [reflexivity|].
  cbn [setServos].
  pose proof (setServo_full q a ap Hfull) as H1.
  destruct (setServo q a ap) as [[a1 c1] r1]. cbn [fst] in H1. subst a1.
  pose proof (IH ap Hfull) as H2.
  destruct (setServos cmds ap) as [[a2 c2] r2]. exact H2.
Qed.

Lemma findSlot_app_free pin used n :
  ~ In pin used -> pin <> -1 -> findSlot pin (used ++ repeat (-1) n) 0 = None.
Proof.
  intros H1 H2. apply findSlot_None. intros H. apply in_app_or in H.
  destruct H as [H | H]; [auto|]. apply repeat_spec in H. auto.
Qed.

Lemma findSlot_free used n :
  ~ In (-1) used -> findSlot (-1) (used ++ repeat (-1) (S n)) 0 = Some (length used).
Proof.
  intros H. apply findSlot_spec. split.
  - rewrite lookup_app_r by lia. rewrite Nat.sub_diag. reflexivity.
  - intros j q Hj Hq. rewrite lookup_app_l in Hq by exact Hj.
    intros ->. apply H. eapply list_elem_of_In, list_elem_of_lookup_2. exact Hq.
Qed.

Lemma setServo_Packed pin angle ap : Packed ap -> Packed (setServo pin angle ap).1.1.
Proof.
  intros (used & n & -> & H1 & H2 & H3). unfold setServo.
  destruct (findSlot pin (used ++ repeat (-1) n) 0) as [k|] eqn:Fp.
  { exists used, n. auto. }
  destruct n as [|n].
  - assert (F : findSlot (-1) (used ++ repeat (-1) 0) 0 = None).
    { apply findSlot_None. simpl. rewrite app_nil_r. exact H1. }
    rewrite F. exists used, 0%nat. auto.
  - rewrite (findSlot_free used n H1). cbn [fst].
    apply findSlot_None in Fp.
    assert (Hpin : pin <> -1).
    { intros ->. apply Fp. apply in_or_app. right. left. reflexivity. }
    exists (used ++ [pin]), n. repeat split.
    + rewrite insert_app_r_alt by lia. rewrite Nat.sub_diag. simpl.
      rewrite <- app_assoc. reflexivity.
    + intros H. apply in_app_or in H. destruct H as [H | [H | []]]; auto.
    + apply NoDup_app. split; [exact H2|]. split.
      * intros x Hx Hx'. apply list_elem_of_In in Hx. apply list_elem_of_In in Hx'.
        destruct Hx' as [<- | []]. apply Fp. apply in_or_app. left. exact Hx.
      * apply NoDup_singleton.
    + rewrite length_app. simpl. lia.
Qed.

Lemma setServos_Packed cmds : forall ap, Packed ap -> Packed (setServos cmds ap).1.1.
Proof.
  induction cmds as [|[q a] cmds IH]; intros ap H; [exact H|].
  cbn [setServos].
  pose proof (setServo_Packed q a ap H) as H1.
  destruct (setServo q a ap) as [[a1 c1] r1]. cbn [fst] in H1.
  pose proof (IH a1 H1) as H2.
  destruct (setServos cmds a1) as [[a2 c2] r2]. exact H2.
Qed.

Lemma initial_Packed : Packed initial_pins.
Proof.
  exists [], 4%nat. repeat split; [intros [] | constructor].
Qed.

End ServoFacts.

(** X20.  A servo pin keeps its servo.  Once a pin other than [-1] is in
    the table, no later command moves or removes it, and every command
    for that pin writes the angle to the servo of its slot, without
    attaching again, and reports success. *)
Theorem servo_pin_keeps_slot pin i (attachedPins : list Z) cmds angle :
  pin <> -1 -> ServoSlots.findSlot pin attachedPins 0 = Some i ->
  let later := (ServoSlots.setServos cmds attachedPins).1.1 in
  later !! i = Some pin /\
  ServoSlots.setServo pin angle later =
  (later, [ServoSlots.servo_write i angle], ServoSlots.servo_reply true pin angle).
Proof.
  intros Hpin Hi later.
  pose proof (ServoFacts.setServos_keeps pin i cmds attachedPins Hpin Hi) as H.
  fold later in H. split.
  - apply ServoFacts.findSlot_spec in H. apply H.
  - apply ServoFacts.setServo_found. exact H.
Qed.

Lemma servo_pin_keeps_slot_witness :
  let later := (ServoSlots.setServos [(18, 90); (19, 45); (5, 0)] [18; -1; -1; -1]).1.1 in
  later !! 0%nat = Some 18 /\
  ServoSlots.setServo 18 120 later =
  (later, [ServoSlots.servo_write 0 120], ServoSlots.servo_reply true 18 120).
Proof.
  apply (servo_pin_keeps_slot 18 0 [18; -1; -1; -1] [(18, 90); (19, 45); (5, 0)] 120).
  - discriminate.
  - reflexivity.
Defined.

(** X21.  There is no way to free a servo slot.  When no entry of the
    table is [-1], no command changes the table any more, and a command
    for a pin that is not in it touches no servo and answers
    [servo_attach_failed]. *)
Theorem servo_table_full (attachedPins : list Z) cmds pin angle :
  ~ In (-1) attachedPins -> ~ In pin attachedPins ->
  (ServoSlots.setServos cmds attachedPins).1.1 = attachedPins /\
  ServoSlots.setServo pin angle attachedPins =
  (attachedPins, [], ServoSlots.servo_reply false pin angle).
Proof.
  intros Hfull Hpin. split; [apply ServoFacts.setServos_full; exact Hfull|].
  unfold ServoSlots.setServo.
  apply ServoFacts.findSlot_None in Hpin. apply ServoFacts.findSlot_None in Hfull.
  rewrite Hpin, Hfull. reflexivity.
Qed.

Lemma servo_table_full_witness :
  (ServoSlots.setServos [(9, 10); (18, 20)] [18; 19; 5; 21]).1.1 = [18; 19; 5; 21] /\
  ServoSlots.setServo 9 10 [18; 19; 5; 21] =
  ([18; 19; 5; 21], [], ServoSlots.servo_reply false 9 10).
Proof.
  apply (servo_table_full [18; 19; 5; 21] [(9, 10); (18, 20)] 9 10).
  - simpl. intros H. decompose [or] H; discriminate || assumption.
  - simpl. intros H. decompose [or] H; discriminate || assumption.
Defined.



(** X23.  From power-up on, whatever [set_servo] commands arrive, the
    table keeps its [MAX_SERVOS] entries, the attached pins occupy the
    first slots with the free slots after them, and no pin is attached
    twice. *)
Theorem servo_table_packed cmds :
  let table := (ServoSlots.setServos cmds ServoSlots.initial_pins).1.1 in
  exists used n,
    table = used ++ repeat (-1) n /\ ~ In (-1) used /\ NoDup used /\
    (length used + n = ServoSlots.MAX_SERVOS)%nat /\ length table = ServoSlots.MAX_SERVOS.
Proof.
  intros table.
  destruct (ServoFacts.setServos_Packed cmds _ ServoFacts.initial_Packed)
    as (used & n & E & H1 & H2 & H3).
  exists used, n. fold table in E. repeat split; try assumption.
  rewrite E, length_app, repeat_length. exact H3.
Qed.

(* ------------------------------------------------------------------------- *)
(** ** Properties of the status LED *)

Module LedFacts.
Import Led.

Section Animation.
Context {ops : PixelOps}.

Lemma updateLedAnimations_idle ms l :
  updateDue ms l = false -> updateLedAnimations ms l = (l, []).
Proof.
  unfold updateDue, updateLedAnimations. intros H.
  destruct (ledInitialized l); simpl in *; [|reflexivity].
  destruct (ledAnimationMode l =? 0); simpl in *; [reflexivity|].
  destruct (u32 (ms - lastLedUpdate l) <? u32 (ledAnimationSpeed l)); [reflexivity|discriminate].
Qed.

Lemma animate_solid times : forall l,
  ledAnimationMode l = 0 -> animate times l = (l, []).
Proof.
  induction times as [|t times IH]; intros l H; [reflexivity|].
  cbn [animate]. rewrite updateLedAnimations_idle.
  - simpl. rewrite IH by exact H. reflexivity.
  - unfold updateDue. rewrite H. simpl. rewrite andb_false_r. reflexivity.
Qed.

(** A due update, mode by mode. *)
Lemma updateLedAnimations_due ms l :
  updateDue ms l = true ->
  updateLedAnimations ms l =
  let l := with_lastLedUpdate ms l in
  let currentColor := leds0 l in
  let shown (l : LedState) := (l, [FastLED_show (leds0 l)]) in
  if ledAnimationMode l =? 1 then
    shown (if 0 <? getLuma (leds0 l) then with_leds0 Black l else with_leds0 currentColor l)
  else if ledAnimationMode l =? 2 then
    let l :=
      if ledAnimationDirection l then
        let l := with_step (iadd (ledAnimationStep l) 5) l in
        if 100 <=? ledAnimationStep l then with_direction false (with_step 100 l) else l
      else
        let l := with_step (isub (ledAnimationStep l) 5) l in
        if ledAnimationStep l <=? 5 then with_direction true (with_step 5 l) else l in
    let l := with_leds0 currentColor l in
    shown (with_leds0
             (fadeToBlackBy (leds0 l)
                (u8 (isub 255 (idiv (imul (ledAnimationStep l) 255) 100)))) l)
  else if ledAnimationMode l =? 3 then
    let l := with_leds0 (setHue (leds0 l) (u8 (ledAnimationStep l))) l in
    shown (with_step (Z.rem (iadd (ledAnimationStep l) 5) 256) l)
  else if ledAnimationMode l =? 4 then
    let l :=
      if Z.rem (idiv (ledAnimationStep l) 2) 2 =? 0 then with_leds0 currentColor l
      else with_leds0 Black l in
    shown (with_step (Z.rem (iadd (ledAnimationStep l) 1) 20) l)
  else if ledAnimationMode l =? 5 then
    let flashPhase := Z.rem (ledAnimationStep l) 10 in
    let l :=
      if (flashPhase <? 1) || (flashPhase =? 2) || (flashPhase =? 4)
      then with_leds0 currentColor l
      else with_leds0 Black l in
    shown (with_step (Z.rem (iadd (ledAnimationStep l) 1) 20) l)
  else (with_mode 0 l, []).
Proof.
  unfold updateDue, updateLedAnimations. intros H.
  apply andb_true_iff in H. destruct H as [H H3].
  apply andb_true_iff in H. destruct H as [H1 H2].
  rewrite H1. apply negb_true_iff in H2, H3. rewrite H2, H3. reflexivity.
Qed.

Lemma onOff_update ms l :
  onOffMode l ->
  let l' := (updateLedAnimations ms l).1 in
  (leds0 l' = leds0 l \/ leds0 l' = Black) /\ ledAnimationMode l' = ledAnimationMode l /\
  ledInitialized l' = ledInitialized l.
Proof.
  intros Hm. destruct (updateDue ms l) eqn:Hd.
  2:{ rewrite updateLedAnimations_idle by exact Hd. simpl. auto. }
  rewrite updateLedAnimations_due by exact Hd. cbv zeta.
  destruct Hm as [Hm | [Hm | Hm]]; cbn [ledAnimationMode with_lastLedUpdate]; rewrite Hm;
    simpl Z.eqb; cbv iota.
  - destruct (0 <? getLuma _); simpl; auto.
  - destruct (Z.rem _ 2 =? 0); simpl; auto.
  - destruct ((_ <? 1) || _ || _); simpl; auto.
Qed.

Lemma onOff_animate times : forall l,
  onOffMode l ->
  let l' := (animate times l).1 in
  (leds0 l' = leds0 l \/ leds0 l' = Black) /\ onOffMode l' /\
  ledAnimationMode l' = ledAnimationMode l.
Proof.
  induction times as [|t times IH]; intros l Hm; [simpl; auto|].
  cbn [animate]. cbv zeta. cbn [fst].
  destruct (onOff_update t l Hm) as (H1 & H2 & _). cbv zeta in H1, H2.
  set (l1 := (updateLedAnimations t l).1) in *.
  assert (Hm1 : onOffMode l1) by (unfold onOffMode in *; rewrite H2; exact Hm).
  destruct (IH l1 Hm1) as (I1 & I2 & I3). cbv zeta in I1, I2, I3.
  split; [|split; [exact I2 | congruence]].
  destruct I1 as [I1 | I1]; [|right; exact I1].
  rewrite I1. exact H1.
Qed.

Lemma animate_app a b l :
  (animate (a ++ b) l).1 = (animate b (animate a l).1).1.
Proof.
  revert l. induction a as [|t a IH]; intros l; [reflexivity|].
  cbn [app animate]. cbv zeta. cbn [fst]. apply IH.
Qed.

End Animation.
End LedFacts.

(** X24.  The start-up colour is never shown.  [setup()] calls
    [setLedColor(0, 0, 50)] before it sets [ledInitialized], so the call
    returns at its first test: after [setup()] the pixel still has the
    content it had at power-up, and that content, not blue, is what
    [FastLED.show()] displays. *)
Theorem startup_colour_not_set ms (pixel : Led.CRGB) :
  let r := Led.setup_led ms (Led.power_on pixel) in
  Led.leds0 r.1 = pixel /\ Led.ledInitialized r.1 = true /\ Led.ledBrightness r.1 = 50 /\
  r.2 = [Led.FastLED_setBrightness 50; Led.FastLED_show pixel;
         Led.led_println "LED initialized successfully"].
Proof. repeat split; reflexivity. Qed.

(** X25.  The blinking, SOS and flash animations (modes 1, 4 and 5) can
    switch the LED off but never on again: they store black in the pixel
    and read the colour to restore from the pixel itself.  After any
    number of updates the pixel has its old colour or is black, and once
    it is black it stays black; in mode 1 the first due update of a pixel
    with a nonzero luma makes it black. *)
Theorem on_off_animations_go_dark `{ops : Led.PixelOps} (times more : list Z) (l : Led.LedState) :
  Led.ledAnimationMode l = 1 \/ Led.ledAnimationMode l = 4 \/ Led.ledAnimationMode l = 5 ->
  let l' := (Led.animate times l).1 in
  (Led.leds0 l' = Led.leds0 l \/ Led.leds0 l' = Led.Black) /\
  (Led.leds0 l' = Led.Black -> Led.leds0 (Led.animate (times ++ more) l).1 = Led.Black) /\
  (forall ms, Led.ledAnimationMode l = 1 -> Led.updateDue ms l = true ->
     0 < Led.getLuma (Led.leds0 l) ->
     Led.leds0 (Led.updateLedAnimations ms l).1 = Led.Black).
Proof.
  intros Hm l'.
  destruct (LedFacts.onOff_animate times l Hm) as (H1 & H2 & _). fold l' in H1, H2.
  split; [exact H1|]. split.
  - intros Hb. rewrite LedFacts.animate_app. fold l'.
    destruct (LedFacts.onOff_animate more l' H2) as ([H3 | H3] & _); congruence.
  - intros ms H1m Hd Hl. rewrite LedFacts.updateLedAnimations_due by exact Hd.
    cbv zeta. cbn [Led.ledAnimationMode Led.with_lastLedUpdate Led.leds0]. rewrite H1m.
    simpl Z.eqb. cbv iota.
    assert (E : (0 <? Led.getLuma (Led.leds0 l)) = true) by lia. rewrite E. reflexivity.
Qed.


Lemma on_off_animations_go_dark_witness :
  let l' := (@Led.animate Led.sample_ops [100; 200; 300] Led.blinking_red).1 in
  (Led.leds0 l' = Led.leds0 Led.blinking_red \/ Led.leds0 l' = Led.Black) /\
  (Led.leds0 l' = Led.Black ->
   Led.leds0 (@Led.animate Led.sample_ops ([100; 200; 300] ++ [400; 500])
                Led.blinking_red).1 = Led.Black) /\
  (forall ms, Led.ledAnimationMode Led.blinking_red = 1 ->
     Led.updateDue ms Led.blinking_red = true ->
     0 < @Led.getLuma Led.sample_ops (Led.leds0 Led.blinking_red) ->
     Led.leds0 (@Led.updateLedAnimations Led.sample_ops ms Led.blinking_red).1
     = Led.Black).
Proof.
  exact (@on_off_animations_go_dark Led.sample_ops [100; 200; 300] [400; 500]
           Led.blinking_red (or_introl eq_refl)).
Defined.

Lemma breathing_arith s :
  5 <= s <= 100 ->
  Led.u8 (isub 255 (idiv (imul s 255) 100)) = 255 - s * 255 / 100 /\
  0 <= 255 - s * 255 / 100 <= 243.
Proof.
  intros Hs.
  assert (E1 : imul s 255 = s * 255).
  { unfold imul. apply wrap32_id. unfold is_int, INT_MIN, INT_MAX. lia. }
  assert (Hq : 12 <= s * 255 / 100 <= 255).
  { split; [apply Z.div_le_lower_bound; lia | apply Z.div_le_upper_bound; lia]. }
  assert (E2 : idiv (s * 255) 100 = s * 255 / 100).
  { unfold idiv. rewrite Z.quot_div_nonneg by lia. apply wrap32_id.
    unfold is_int, INT_MIN, INT_MAX. lia. }
  rewrite E1, E2.
  assert (E3 : isub 255 (s * 255 / 100) = 255 - s * 255 / 100).
  { unfold isub. apply wrap32_id. unfold is_int, INT_MIN, INT_MAX. lia. }
  rewrite E3. split; [|lia]. unfold Led.u8. apply Z.mod_small. lia.
Qed.

Lemma breathing_update `{ops : Led.PixelOps} ms l :
  Led.ledAnimationMode l = 2 -> 0 <= Led.ledAnimationStep l <= 100 ->
  let l1 := (Led.updateLedAnimations ms l).1 in
  Led.ledAnimationMode l1 = 2 /\ 0 <= Led.ledAnimationStep l1 <= 100 /\
  (Led.updateDue ms l = true ->
   5 <= Led.ledAnimationStep l1 <= 100 /\
   Led.leds0 l1 =
     Led.fadeToBlackBy (Led.leds0 l) (255 - Led.ledAnimationStep l1 * 255 / 100) /\
   0 <= 255 - Led.ledAnimationStep l1 * 255 / 100 <= 243).
Proof.
  intros Hm Hs. destruct (Led.updateDue ms l) eqn:Hd.
  2:{ rewrite LedFacts.updateLedAnimations_idle by exact Hd. simpl.
      split; [exact Hm|]. split; [exact Hs | discriminate]. }
  rewrite LedFacts.updateLedAnimations_due by exact Hd. cbv zeta.
  cbn [Led.ledAnimationMode Led.with_lastLedUpdate Led.ledAnimationDirection
       Led.ledAnimationStep Led.leds0].
  rewrite Hm. simpl Z.eqb. cbv iota.
  assert (Ea : iadd (Led.ledAnimationStep l) 5 = Led.ledAnimationStep l + 5).
  { unfold iadd. apply wrap32_id. unfold is_int, INT_MIN, INT_MAX. lia. }
  assert (Eb : isub (Led.ledAnimationStep l) 5 = Led.ledAnimationStep l - 5).
  { unfold isub. apply wrap32_id. unfold is_int, INT_MIN, INT_MAX. lia. }
  rewrite Ea, Eb.
  destruct (Led.ledAnimationDirection l);
    cbn [Led.ledAnimationStep Led.with_step].
  - destruct (100 <=? Led.ledAnimationStep l + 5) eqn:E;
      cbn [fst Led.ledAnimationMode Led.ledAnimationStep Led.leds0 Led.with_leds0
           Led.with_direction Led.with_step Led.with_lastLedUpdate].
    + destruct (breathing_arith 100 ltac:(lia)) as (A1 & A2). rewrite A1.
      repeat split; try lia; reflexivity.
    + destruct (breathing_arith (Led.ledAnimationStep l + 5) ltac:(lia)) as (A1 & A2).
      rewrite A1. repeat split; try lia; reflexivity.
  - destruct (Led.ledAnimationStep l - 5 <=? 5) eqn:E;
      cbn [fst Led.ledAnimationMode Led.ledAnimationStep Led.leds0 Led.with_leds0
           Led.with_direction Led.with_step Led.with_lastLedUpdate].
    + destruct (breathing_arith 5 ltac:(lia)) as (A1 & A2). rewrite A1.
      repeat split; try lia; reflexivity.
    + destruct (breathing_arith (Led.ledAnimationStep l - 5) ltac:(lia)) as (A1 & A2).
      rewrite A1. repeat split; try lia; reflexivity.
Qed.

(** X26.  The breathing animation (mode 2) keeps its step within bounds:
    started from a step between 0 and 100, as [set_animation] leaves it,
    the step stays there through any number of updates; after a due
    update it is between 5 and 100, the fade factor
    [255 - step * 255 / 100] passed to the library is between 0 and 243,
    within [uint8_t], and the pixel is the previous pixel faded by it
    (the fade is applied to the pixel as the last update left it). *)
Theorem breathing_step_bounded `{ops : Led.PixelOps} (times : list Z) (l : Led.LedState) :
  Led.ledAnimationMode l = 2 -> 0 <= Led.ledAnimationStep l <= 100 ->
  let l' := (Led.animate times l).1 in
  Led.ledAnimationMode l' = 2 /\ 0 <= Led.ledAnimationStep l' <= 100 /\
  (forall ms, Led.updateDue ms l' = true ->
     let l1 := (Led.updateLedAnimations ms l').1 in
     5 <= Led.ledAnimationStep l1 <= 100 /\
     Led.leds0 l1 =
       Led.fadeToBlackBy (Led.leds0 l') (255 - Led.ledAnimationStep l1 * 255 / 100) /\
     0 <= 255 - Led.ledAnimationStep l1 * 255 / 100 <= 243).
Proof.
  revert l. induction times as [|t times IH]; intros l Hm Hs l'.
  - subst l'. simpl. split; [exact Hm|]. split; [exact Hs|].
    intros ms Hd. apply (breathing_update ms l Hm Hs). exact Hd.
  - subst l'. cbn [Led.animate]. cbv zeta. cbn [fst].
    destruct (breathing_update t l Hm Hs) as (H1 & H2 & _).
    apply (IH _ H1 H2).
Qed.

Lemma breathing_step_bounded_witness :
  let l' := (@Led.animate Led.sample_ops [50; 100; 150] Led.breathing_green).1 in
  Led.ledAnimationMode l' = 2 /\ 0 <= Led.ledAnimationStep l' <= 100 /\
  (forall ms, Led.updateDue ms l' = true ->
     let l1 := (@Led.updateLedAnimations Led.sample_ops ms l').1 in
     5 <= Led.ledAnimationStep l1 <= 100 /\
     Led.leds0 l1 =
       @Led.fadeToBlackBy Led.sample_ops (Led.leds0 l')
         (255 - Led.ledAnimationStep l1 * 255 / 100) /\
     0 <= 255 - Led.ledAnimationStep l1 * 255 / 100 <= 243).
Proof.
  exact (@breathing_step_bounded Led.sample_ops [50; 100; 150] Led.breathing_green
           eq_refl ltac:(vm_compute; split; discriminate)).
Defined.

(** X27.  [set_animation] accepts any mode number.  With a mode outside
    0..5 the command is acknowledged with [animation_set] like any other;
    the first due update then sets the mode to 0 without touching or
    showing the pixel, and no later update does anything. *)
Theorem unknown_animation_mode `{ops : Led.PixelOps} ms0 mode speed rgb brightness
    (l : Led.LedState) ms (times : list Z) :
  Led.ledInitialized l = true -> mode < 0 \/ 5 < mode ->
  let r := Led.handleLedCommand ms0 (Led.set_animation mode speed rgb brightness) l in
  In (Led.led_reply (status_ok "animation_set")) r.2 /\
  Led.ledAnimationMode r.1 = mode /\
  (Led.updateDue ms r.1 = true ->
   let u := Led.updateLedAnimations ms r.1 in
   u.2 = [] /\ Led.ledAnimationMode u.1 = 0 /\ Led.leds0 u.1 = Led.leds0 r.1 /\
   Led.animate times u.1 = (u.1, [])).
Proof.
  intros Hi Hm r.
  assert (Er : Led.ledAnimationMode r.1 = mode /\
               In (Led.led_reply (status_ok "animation_set")) r.2).
  { subst r. unfold Led.handleLedCommand. rewrite Hi. cbn [negb].
    destruct speed, rgb as [[[? ?] ?]|], brightness; simpl; auto. }
  destruct Er as (Er1 & Er2). split; [exact Er2|]. split; [exact Er1|].
  intros Hd u. subst u. rewrite LedFacts.updateLedAnimations_due by exact Hd. cbv zeta.
  cbn [Led.ledAnimationMode Led.with_lastLedUpdate]. rewrite Er1.
  assert (E1 : (mode =? 1) = false) by lia. assert (E2 : (mode =? 2) = false) by lia.
  assert (E3 : (mode =? 3) = false) by lia. assert (E4 : (mode =? 4) = false) by lia.
  assert (E5 : (mode =? 5) = false) by lia.
  rewrite E1, E2, E3, E4, E5. cbn [fst snd].
  repeat split. apply LedFacts.animate_solid. reflexivity.
Qed.

Lemma unknown_animation_mode_witness :
  let r := Led.handleLedCommand 0 (Led.set_animation 9 None None None) Led.ready in
  In (Led.led_reply (status_ok "animation_set")) r.2 /\
  Led.ledAnimationMode r.1 = 9 /\
  (Led.updateDue 500 r.1 = true ->
   let u := @Led.updateLedAnimations Led.sample_ops 500 r.1 in
   u.2 = [] /\ Led.ledAnimationMode u.1 = 0 /\ Led.leds0 u.1 = Led.leds0 r.1 /\
   @Led.animate Led.sample_ops [600; 700] u.1 = (u.1, [])).
Proof.
  exact (@unknown_animation_mode Led.sample_ops 0 9 None None None Led.ready 500
           [600; 700] eq_refl (or_intror eq_refl)).
Defined.

Lemma setLedColor_result ms r g b l :
  Led.ledInitialized l = true ->
  let x := Led.setLedColor ms r g b 255 l in
  Led.leds0 x.1 = {| Led.red := r; Led.green := g; Led.blue := b |} /\
  Led.ledAnimationMode x.1 = Led.ledAnimationMode l /\
  Led.ledBrightness x.1 = Led.ledBrightness l /\
  Led.ledInitialized x.1 = true /\
  In (Led.FastLED_show {| Led.red := r; Led.green := g; Led.blue := b |}) x.2 /\
  (forall m, ~ In (Led.led_reply m) x.2).
Proof.
  intros Hi. unfold Led.setLedColor. rewrite Hi. cbn [negb]. simpl Z.eqb. cbn [negb].
  cbv zeta. cbn [Led.with_leds0 Led.leds0 Led.lastDebugOutput Led.ledBrightness].
  destruct (1000 <? u32 (ms - Led.lastDebugOutput l)); simpl;
    (repeat split; auto); intros m H; decompose [or] H; try discriminate; try contradiction.
Qed.

(** X28.  A colour command ends any animation.  On an initialised LED
    [set_color] stores and shows the commanded colour and [off] stores and
    shows black; both set the animation mode to 0, after which no call of
    [updateLedAnimations] changes or shows anything until the next
    command. *)
Theorem colour_command_stops_animation `{ops : Led.PixelOps} ms (l : Led.LedState)
    (times : list Z) :
  Led.ledInitialized l = true ->
  (forall r g b brightness,
     let x := Led.handleLedCommand ms (Led.set_color r g b brightness) l in
     Led.leds0 x.1 = {| Led.red := r; Led.green := g; Led.blue := b |} /\
     In (Led.FastLED_show {| Led.red := r; Led.green := g; Led.blue := b |}) x.2 /\
     Led.ledAnimationMode x.1 = 0 /\ Led.animate times x.1 = (x.1, [])) /\
  (let x := Led.handleLedCommand ms Led.off l in
   Led.leds0 x.1 = Led.Black /\ In (Led.FastLED_show Led.Black) x.2 /\
   Led.ledAnimationMode x.1 = 0 /\ Led.animate times x.1 = (x.1, [])).
Proof.
  intros Hi. split.
  - intros r g b brightness x. subst x. unfold Led.handleLedCommand. rewrite Hi. cbn [negb].
    destruct brightness as [v|].
    + pose proof (setLedColor_result ms r g b (Led.with_mode 0 (Led.with_brightness v l)) Hi)
        as (H1 & H2 & _ & _ & H5 & _).
      cbv zeta in H1, H2, H5.
      destruct (Led.setLedColor ms r g b 255 (Led.with_mode 0 (Led.with_brightness v l)))
        as [l1 o1]. cbn [fst snd] in *.
      split; [exact H1|]. split; [simpl; right; apply in_or_app; left; exact H5|].
      split; [exact H2|]. apply LedFacts.animate_solid. exact H2.
    + pose proof (setLedColor_result ms r g b (Led.with_mode 0 l) Hi)
        as (H1 & H2 & _ & _ & H5 & _).
      cbv zeta in H1, H2, H5.
      destruct (Led.setLedColor ms r g b 255 (Led.with_mode 0 l)) as [l1 o1].
      cbn [fst snd] in *.
      split; [exact H1|]. split; [simpl; apply in_or_app; left; exact H5|].
      split; [exact H2|]. apply LedFacts.animate_solid. exact H2.
  - intros x. subst x. unfold Led.handleLedCommand. rewrite Hi. cbn [negb].
    pose proof (setLedColor_result ms 0 0 0 l Hi) as (H1 & _ & _ & _ & H5 & _).
    cbv zeta in H1, H5.
    destruct (Led.setLedColor ms 0 0 0 255 l) as [l1 o1]. cbn [fst snd] in *.
    split; [exact H1|]. split; [simpl; apply in_or_app; left; exact H5|].
    split; [reflexivity|]. apply LedFacts.animate_solid. reflexivity.
Qed.

Lemma colour_command_stops_animation_witness :
  let x := Led.handleLedCommand 10 Led.off Led.blinking_red in
  Led.leds0 x.1 = Led.Black /\ In (Led.FastLED_show Led.Black) x.2 /\
  Led.ledAnimationMode x.1 = 0 /\
  @Led.animate Led.sample_ops [100; 200] x.1 = (x.1, []).
Proof.
  exact (proj2 (@colour_command_stops_animation Led.sample_ops 10 Led.blinking_red
                  [100; 200] eq_refl)).
Defined.

(** X29.  An LED command that is answered with an error has done nothing:
    whenever the reply of [handleLedCommand] has the status ["error"]
    (LED not initialised, unknown or missing subcommand), the LED state is
    unchanged and the reply is all that was written. *)
Theorem led_error_changes_nothing ms (c : Led.LedCommand) (l : Led.LedState) message :
  In (Led.led_reply (status_error message)) (Led.handleLedCommand ms c l).2 ->
  Led.handleLedCommand ms c l = (l, [Led.led_reply (status_error message)]).
Proof.
  unfold Led.handleLedCommand. destruct (Led.ledInitialized l) eqn:Hi; cbn [negb].
  2:{ simpl. intros [H | []]. inversion H; subst. reflexivity. }
  destruct c as [r g b brightness | mode speed rgb brightness | | name |].
  - destruct brightness as [v|].
    + pose proof (setLedColor_result ms r g b (Led.with_mode 0 (Led.with_brightness v l)) Hi)
        as (_ & _ & _ & _ & _ & H6).
      cbv zeta in H6.
      destruct (Led.setLedColor ms r g b 255 (Led.with_mode 0 (Led.with_brightness v l)))
        as [l1 o1]. cbn [fst snd] in *.
      simpl. intros [H | H]; [discriminate|]. apply in_app_or in H.
      destruct H as [H | [H | []]]; [exfalso; eapply H6; exact H | discriminate].
    + pose proof (setLedColor_result ms r g b (Led.with_mode 0 l) Hi)
        as (_ & _ & _ & _ & _ & H6).
      cbv zeta in H6.
      destruct (Led.setLedColor ms r g b 255 (Led.with_mode 0 l)) as [l1 o1].
      cbn [fst snd] in *.
      simpl. intros H. apply in_app_or in H.
      destruct H as [H | [H | []]]; [exfalso; eapply H6; exact H | discriminate].
  - destruct speed, rgb as [[[? ?] ?]|], brightness; simpl;
      intros H; decompose [or] H; try discriminate; try contradiction.
  - pose proof (setLedColor_result ms 0 0 0 l Hi) as (_ & _ & _ & _ & _ & H6).
    cbv zeta in H6.
    destruct (Led.setLedColor ms 0 0 0 255 l) as [l1 o1]. cbn [fst snd] in *.
    intros H. apply in_app_or in H.
    destruct H as [H | [H | []]]; [exfalso; eapply H6; exact H | discriminate].
  - simpl. intros [H | []]. inversion H; subst. reflexivity.
  - simpl. intros [H | []]. inversion H; subst. reflexivity.
Qed.

Lemma led_error_changes_nothing_witness :
  Led.handleLedCommand 0 (Led.other_subcommand "sparkle") Led.ready =
  (Led.ready, [Led.led_reply (status_error "unknown_subcommand")]).
Proof.
  apply (led_error_changes_nothing 0 (Led.other_subcommand "sparkle") Led.ready
           "unknown_subcommand").
  left. reflexivity.
Defined.
